(** * Nebula galaxy control: gesture interpreter, particle field, analysis client

    A shallow embedding of the TypeScript sources
    - [components/GalaxyCanvas]      (class [Particle], the particle pool),
    - [components/GestureController] ([predictWebcam]),
    - [App]                          ([INITIAL_PARAMS], [handleParamsUpdate]),
    - [services/geminiService.ts]    ([generateCosmicAnalysis]).

    JavaScript numbers are modelled as real numbers: arithmetic is exact,
    rounding, overflow and the special values NaN and Infinity are outside
    the model.  [Math.random()] reads the next element of a stream of draws
    that is threaded through the code as explicit state.

    Where a property is about NaN and Infinity, class [Particle] is embedded
    a second time, over the binary64 numbers of the Standard Library
    ([GalaxyCanvas64]): the arithmetic is the rounded one, [Math.cos],
    [Math.sin] and the draws are arguments. *)

From Stdlib Require Import Floats.
From Stdlib Require Import Reals Lra Lia List String ZArith Bool DecimalString.
Import ListNotations.

Open Scope R_scope.

(** ** JavaScript primitives used by the sources *)

Module Js.

Abbreviation number := R.

(** Abrupt completion of a function body: [Throws] is a thrown exception
    (a rejected promise for an [async] function). *)
Inductive error :=
| TypeError (msg : string)
| ServiceError (msg : string).

Inductive outcome (A : Type) :=
| Returns (a : A)
| Throws (e : error).
Arguments Returns {A} a.
Arguments Throws {A} e.

Definition obind {A B} (m : outcome A) (k : A -> outcome B) : outcome B :=
  match m with
  | Returns a => k a
  | Throws e => Throws e
  end.

(** [xs[i]]: reading past the end gives [undefined]; a property access on
    [undefined] throws. *)
Definition at_index {A} (xs : list A) (i : nat) : outcome A :=
  match nth_error xs i with
  | Some a => Returns a
  | None => Throws (TypeError "Cannot read properties of undefined")
  end.

Definition Math_min (a b : number) : number := Rmin a b.
Definition Math_max (a b : number) : number := Rmax a b.
Definition Math_sqrt (a : number) : number := sqrt a.
Definition Math_pow (a : number) (n : nat) : number := a ^ n.
Definition Math_floor (a : number) : Z := Int_part a.
Definition Math_round (a : number) : Z := Int_part (a + / 2).

(** [Math.random()] as a state transformer on the cursor into a stream of
    draws. *)
Definition Rand (A : Type) := (nat -> number) -> nat -> A * nat.

Definition ret {A} (a : A) : Rand A := fun _ i => (a, i).
Definition bind {A B} (m : Rand A) (k : A -> Rand B) : Rand B :=
  fun draws i => let (a, j) := m draws i in k a draws j.
Definition Math_random : Rand number := fun draws i => (draws i, S i).

(** Every draw of [Math.random()] lies in [0, 1). *)
Definition unit_draws (draws : nat -> number) : Prop :=
  forall i, 0 <= draws i < 1.

End Js.

Notation "x <- m ;; k" := (Js.bind m (fun x => k))
  (at level 61, m at next level, right associativity).

(** ** types.ts *)

Record SimulationParams := {
  chaos : R;
  scale : R;
  active : bool
}.

(** [Partial<SimulationParams>]: every key is optional. *)
Record PartialSimulationParams := {
  chaos_opt : option R;
  scale_opt : option R;
  active_opt : option bool
}.

(** ** components/GalaxyCanvas *)

Module GalaxyCanvas.

Import Js.

Record Particle := {
  x : number;
  y : number;
  z : number;
  vx : number;
  vy : number;
  size : number;
  color : option string;   (* [None] is [undefined] *)
  angle : number;
  radius : number;
  angularSpeed : number
}.

Definition colors : list string :=
  [ "rgba(255, 255, 255, "; "rgba(100, 200, 255, ";
    "rgba(200, 100, 255, "; "rgba(255, 150, 50, " ]%string.

(** [colors[k]] for an integer-valued [k] *)
Definition colors_at (k : Z) : option string :=
  if (k <? 0)%Z then None else nth_error colors (Z.to_nat k).

(** [new Particle(width, height)] *)
Definition new_Particle (width height : number) : Rand Particle :=
  r_z <- Math_random ;;
  r_angle <- Math_random ;;
  r_radius <- Math_random ;;
  r_speed <- Math_random ;;
  r_sign <- Math_random ;;
  r_size <- Math_random ;;
  r_color <- Math_random ;;
  ret {| x := width / 2;
         y := height / 2;
         z := r_z * 2;
         vx := 0;
         vy := 0;
         angle := r_angle * PI * 2;
         radius := r_radius * (Math_min width height / 3);
         angularSpeed :=
           (0.02 + r_speed * 0.05) * (if Rlt_dec r_sign 0.5 then 1 else -1);
         size := r_size * 2 + 0.5;
         color := colors_at (Math_floor (r_color * INR (List.length colors))) |}.

(** The locals of [update]. *)
Definition targetRadius (p : Particle) (scale : number) : number :=
  radius p * (0.1 + scale * 1.5).

Definition jitter (chaos : number) : number := chaos * 5.

(** [p.update(width, height, chaos, scale)]: the particle after the call. *)
Definition update (width height chaos scale : number) (p : Particle)
  : Rand Particle :=
  let cx := width / 2 in
  let cy := height / 2 in
  let targetRadius := targetRadius p scale in
  let jitter := jitter chaos in
  let angle1 := angle p + angularSpeed p * (1 + chaos * 2) in
  let targetX := cx + cos angle1 * targetRadius in
  let targetY := cy + sin angle1 * targetRadius in
  let x1 := x p + (targetX - x p) * 0.1 in
  let y1 := y p + (targetY - y p) * 0.1 in
  rx <- Math_random ;;
  let x2 := x1 + (rx - 0.5) * jitter in
  ry <- Math_random ;;
  let y2 := y1 + (ry - 0.5) * jitter in
  ret {| x := x2; y := y2; z := z p; vx := vx p; vy := vy p;
         size := size p; color := color p;
         angle := angle1; radius := radius p;
         angularSpeed := angularSpeed p |}.

(** What [p.draw(ctx, chaos)] paints: one filled arc. *)
Record Arc := {
  arc_x : number;
  arc_y : number;
  arc_radius : number;
  fill_color : option string;
  fill_alpha : number
}.

(** [p.draw(ctx, chaos)]: reads the particle, never writes it. *)
Definition draw (chaos : number) (p : Particle) : Rand Arc :=
  r <- Math_random ;;
  let alpha := (0.3 + r * 0.7) * (1 - chaos * 0.5) in
  ret {| arc_x := x p; arc_y := y p; arc_radius := size p;
         fill_color := color p; fill_alpha := alpha |}.

(** [Array.from({ length: n }, () => new Particle(width, height))] *)
Fixpoint Array_from (n : nat) (width height : number)
  : Rand (list Particle) :=
  match n with
  | O => ret []
  | S m =>
      p <- new_Particle width height ;;
      ps <- Array_from m width height ;;
      ret (p :: ps)
  end.

(** The effect that initialises [particlesRef.current]. *)
Definition init_particles (width height : number) : Rand (list Particle) :=
  Array_from 800 width height.

(** [particlesRef.current.forEach(p => { p.update(...); p.draw(ctx, chaos) })] *)
Fixpoint forEach_particle (width height chaos scale : number)
         (ps : list Particle) : Rand (list Particle * list Arc) :=
  match ps with
  | [] => ret ([], [])
  | p :: rest =>
      p' <- update width height chaos scale p ;;
      a <- draw chaos p' ;;
      r <- forEach_particle width height chaos scale rest ;;
      ret (p' :: fst r, a :: snd r)
  end.

(** One run of [render] on a canvas of the given extent: the central
    star's size, the pool after the frame and the arcs painted. *)
Record Frame := {
  centerSize : number;
  particles : list Particle;
  arcs : list Arc
}.

Definition render (width height : number) (params : SimulationParams)
           (ps : list Particle) : Rand Frame :=
  let chaos := chaos params in
  let scale := scale params in
  r <- Math_random ;;
  let centerSize := 20 * scale + r * 5 * chaos in
  res <- forEach_particle width height chaos scale ps ;;
  ret {| centerSize := centerSize; particles := fst res; arcs := snd res |}.

(** [n] consecutive animation frames with the same extent and parameters:
    the pool after the last one. *)
Fixpoint frames (n : nat) (width height : number)
         (params : SimulationParams) (ps : list Particle)
  : Rand (list Particle) :=
  match n with
  | O => ret ps
  | S m =>
      f <- render width height params ps ;;
      frames m width height params (particles f)
  end.

(** The point on the orbit that [update] steers towards, read off the
    particle after the call (its angle is already advanced). *)
Definition orbit_target (width height scale : number) (p : Particle)
  : number * number :=
  (width / 2 + cos (angle p) * targetRadius p scale,
   height / 2 + sin (angle p) * targetRadius p scale).

(** The fields that the constructor fixes. *)
Definition fixed_fields (p : Particle)
  : number * number * number * option string :=
  (radius p, angularSpeed p, size p, color p).

Definition center (width height : number) : number * number :=
  (width / 2, height / 2).

Definition position (p : Particle) : number * number := (x p, y p).

Definition dist (a b : number * number) : number :=
  sqrt ((fst a - fst b) ^ 2 + (snd a - snd b) ^ 2).

(** The particles the program can hold: built by the constructor for a
    canvas of non-negative extent, then updated any number of times. *)
Inductive reachable : Particle -> Prop :=
| reachable_new width height draws i :
    0 <= width -> 0 <= height -> unit_draws draws ->
    reachable (fst (new_Particle width height draws i))
| reachable_update width height chaos scale p draws i :
    reachable p ->
    reachable (fst (update width height chaos scale p draws i)).

(** What one animation frame finds: the window's extent and the content
    of [params.current]. *)
Record Tick := {
  innerWidth : number;
  innerHeight : number;
  current : SimulationParams
}.

(** The resize at the head of [render]: the canvas takes the window's
    extent whenever the two differ. *)
Definition handle_resize (canvas : number * number) (t : Tick)
  : number * number :=
  if Req_dec_T (fst canvas) (innerWidth t)
  then if Req_dec_T (snd canvas) (innerHeight t)
       then canvas
       else (innerWidth t, innerHeight t)
  else (innerWidth t, innerHeight t).

(** The animation loop: each frame resizes the canvas, reads the signal and
    renders on the extent the canvas then has. *)
Fixpoint animate (canvas : number * number) (ticks : list Tick)
         (ps : list Particle) : Rand (list Particle) :=
  match ticks with
  | [] => ret ps
  | t :: rest =>
      let canvas' := handle_resize canvas t in
      f <- render (fst canvas') (snd canvas') (current t) ps ;;
      animate canvas' rest (particles f)
  end.

(** The two effects of the component in the order they run: the pool is
    built on the extent the canvas has when it mounts, the frames then
    render on the window's. *)
Definition mount (canvas : number * number) (ticks : list Tick)
  : Rand (list Particle) :=
  ps <- init_particles (fst canvas) (snd canvas) ;;
  animate canvas ticks ps.

(** A particle of radius at most a third of the smaller mount extent that
    lies no further than [1.6 * radius + 25] outside the rectangle between
    the origin and the point [(W / 2, H / 2)]. *)
Definition near_window (W H : number) (canvas : number * number)
           (p : Particle) : Prop :=
  0 <= radius p <= Rmin (fst canvas) (snd canvas) / 3 /\
  - (1.6 * radius p + 25) <= x p <= W / 2 + (1.6 * radius p + 25) /\
  - (1.6 * radius p + 25) <= y p <= H / 2 + (1.6 * radius p + 25).

(** A frame on a window no larger than [W] by [H] with both signals in
    [0, 1]. *)
Definition fits (W H : number) (t : Tick) : Prop :=
  0 <= innerWidth t <= W /\ 0 <= innerHeight t <= H /\
  0 <= chaos (current t) <= 1 /\ 0 <= scale (current t) <= 1.

End GalaxyCanvas.

(** ** components/GestureController *)

Module GestureController.

Import Js.

(** The detector's output contract (MediaPipe hand landmarker). *)
Record NormalizedLandmark := {
  x : number;
  y : number;
  z : number
}.

Record Category := {
  categoryName : string   (* "Left" or "Right" *)
}.

Record HandLandmarkerResult := {
  landmarks : option (list (list NormalizedLandmark));  (* [None]: absent *)
  handednesses : list (list Category)
}.

Record HTMLVideoElement := {
  videoWidth : number
}.

Record HandLandmarker := {
  detectForVideo : HTMLVideoElement -> number -> HandLandmarkerResult
}.

(** Euclidean distance between thumb tip and index tip. *)
Definition distance (thumb indexFinger : NormalizedLandmark) : number :=
  Math_sqrt (Math_pow (x thumb - x indexFinger) 2 +
             Math_pow (y thumb - y indexFinger) 2).

Definition normalizedValue (distance : number) : number :=
  Math_min (Math_max (distance * 5) 0) 1.

(** The callback of [result.landmarks.forEach], acting on the pair of
    locals [(chaos, scale)]. *)
Definition hand_callback (result : HandLandmarkerResult)
           (locals : number * number)
           (landmarks : list NormalizedLandmark) (index : nat)
  : outcome (number * number) :=
  let (chaos, scale) := locals in
  obind (at_index (handednesses result) index) (fun categories =>
  obind (at_index categories 0) (fun category =>
  let handedness := categoryName category in
  obind (at_index landmarks 4) (fun thumb =>
  obind (at_index landmarks 8) (fun indexFinger =>
  let distance := distance thumb indexFinger in
  let normalizedValue := normalizedValue distance in
  if String.eqb handedness "Left" then
    let chaos := 1 - normalizedValue in
    let chaos := normalizedValue in
    Returns (chaos, scale)
  else
    let scale := normalizedValue in
    Returns (chaos, scale))))).

Fixpoint forEach_hand (result : HandLandmarkerResult)
         (hands : list (list NormalizedLandmark)) (index : nat)
         (locals : number * number) : outcome (number * number) :=
  match hands with
  | [] => Returns locals
  | landmarks :: rest =>
      obind (hand_callback result locals landmarks index)
            (forEach_hand result rest (S index))
  end.

(** The body of [if (videoRef.current.videoWidth > 0) { ... }] up to the
    argument of [onParamsUpdate]. *)
Definition interpret (result : HandLandmarkerResult)
  : outcome PartialSimulationParams :=
  let chaos := 0 in
  let scale := 0.5 in
  let handsDetected := false in
  obind
    (match landmarks result with
     | Some ((_ :: _) as hands) =>
         let handsDetected := true in
         obind (forEach_hand result hands 0 (chaos, scale))
               (fun locals => Returns (locals, handsDetected))
     | _ => Returns ((chaos, scale), handsDetected)
     end)
    (fun '((chaos, scale), handsDetected) =>
       Returns {| chaos_opt := Some chaos;
                  scale_opt := Some scale;
                  active_opt := Some handsDetected |}).

(** What one call of [predictWebcam] does to its surroundings. *)
Record Effects := {
  onParamsUpdate : option PartialSimulationParams;  (* the call, if made *)
  requestedAnimationFrame : bool
}.

Definition predictWebcam (handLandmarkerRef : option HandLandmarker)
           (videoRef : option HTMLVideoElement) (startTimeMs : number)
  : outcome Effects :=
  match handLandmarkerRef, videoRef with
  | Some handLandmarker, Some video =>
      if Rlt_dec 0 (videoWidth video) then
        let result := detectForVideo handLandmarker video startTimeMs in
        obind (interpret result) (fun params =>
        Returns {| onParamsUpdate := Some params;
                   requestedAnimationFrame := true |})
      else
        Returns {| onParamsUpdate := None;
                   requestedAnimationFrame := true |}
  | _, _ =>
      Returns {| onParamsUpdate := None;
                 requestedAnimationFrame := false |}
  end.

End GestureController.

(** ** App *)

Module App.

Definition INITIAL_PARAMS : SimulationParams :=
  {| chaos := 0.1; scale := 0.5; active := false |}.

(** [{ ...paramsRef.current, ...newParams }] *)
Definition spread (current : SimulationParams)
           (newParams : PartialSimulationParams) : SimulationParams :=
  {| chaos := match chaos_opt newParams with
              | Some c => c | None => chaos current end;
     scale := match scale_opt newParams with
              | Some s => s | None => scale current end;
     active := match active_opt newParams with
               | Some a => a | None => active current end |}.

(** [handleParamsUpdate]: the new content of [paramsRef.current]. *)
Definition handleParamsUpdate (paramsRef : SimulationParams)
           (newParams : PartialSimulationParams) : SimulationParams :=
  spread paramsRef newParams.

(** One detection frame seen from [App]: [paramsRef.current] after a call
    of [predictWebcam] wired to [handleParamsUpdate]. *)
Definition gesture_frame (paramsRef : SimulationParams)
           (handLandmarkerRef : option GestureController.HandLandmarker)
           (videoRef : option GestureController.HTMLVideoElement)
           (startTimeMs : R) : Js.outcome SimulationParams :=
  Js.obind
    (GestureController.predictWebcam handLandmarkerRef videoRef startTimeMs)
    (fun effects =>
       match GestureController.onParamsUpdate effects with
       | Some newParams => Js.Returns (handleParamsUpdate paramsRef newParams)
       | None => Js.Returns paramsRef
       end).

(** A detector that reports the given result on every frame, and a video
    element that has data. *)
Definition detector_of (result : GestureController.HandLandmarkerResult)
  : GestureController.HandLandmarker :=
  {| GestureController.detectForVideo := fun _ _ => result |}.

Definition live_video : GestureController.HTMLVideoElement :=
  {| GestureController.videoWidth := 640 |}.

(** A hand of 21 landmarks with the given thumb tip (index 4) and index
    fingertip (index 8). *)
Definition origin : GestureController.NormalizedLandmark :=
  {| GestureController.x := 0; GestureController.y := 0;
     GestureController.z := 0 |}.

Definition point (px py : R) : GestureController.NormalizedLandmark :=
  {| GestureController.x := px; GestureController.y := py;
     GestureController.z := 0 |}.

Definition hand_with (thumb indexFinger : GestureController.NormalizedLandmark)
  : list GestureController.NormalizedLandmark :=
  repeat origin 4 ++ thumb :: repeat origin 3 ++
  indexFinger :: repeat origin 12.

(** The detector's report of one hand with the given label. *)
Definition one_hand (label : string)
           (thumb indexFinger : GestureController.NormalizedLandmark)
  : GestureController.HandLandmarkerResult :=
  {| GestureController.landmarks := Some [hand_with thumb indexFinger];
     GestureController.handednesses :=
       [[ {| GestureController.categoryName := label |} ]] |}.

Definition no_hands : GestureController.HandLandmarkerResult :=
  {| GestureController.landmarks := Some [];
     GestureController.handednesses := [] |}.

End App.

(** ** services/geminiService.ts *)

Module geminiService.

Import Js.
Open Scope string_scope.

Record GenerateContentParameters := {
  model : string;
  contents : string;
  thinkingBudget : Z
}.

Record GenerateContentResponse := {
  text : option string   (* [None] is [undefined] *)
}.

(** [ai.models.generateContent]: the external text-generation service;
    [Throws] is a rejected promise. *)
Definition Models :=
  GenerateContentParameters -> outcome GenerateContentResponse.

Definition dquote : string := String (Ascii.ascii_of_nat 34) EmptyString.
Definition newline : string := String (Ascii.ascii_of_nat 10) EmptyString.

(** Template interpolation of an integer-valued number. *)
Definition Number_toString (n : Z) : string :=
  NilZero.string_of_int (Z.to_int n).

(** JavaScript truthiness of an optional string. *)
Definition truthy (s : option string) : bool :=
  match s with
  | Some (String _ _) => true
  | _ => false
  end.

Definition contextInstruction (userQuery : option string) : string :=
  match userQuery with
  | Some (String _ _ as q) =>
      "The user (Starship Captain) asks: " ++ dquote ++ q ++ dquote ++
      ". Answer their specific question based on the telemetry."
  | _ =>
      "Describe the visual and physical state of this galaxy in 2 sentences."
  end.

Definition prompt (chaosPct scalePct : Z) (contextInstruction : string)
  : string :=
  newline ++
  "      You are a cosmic observer AI monitoring a galaxy simulation." ++ newline ++
  "      The current simulation parameters are:" ++ newline ++
  "      - Entropy/Chaos Level: " ++ Number_toString chaosPct ++
  "% (0% is ordered, 100% is total molecular scattering)" ++ newline ++
  "      - Gravitational Scale: " ++ Number_toString scalePct ++
  "% (0% is a dense singularity, 100% is a massive expanded nebula)" ++ newline ++
  newline ++
  "      " ++ contextInstruction ++ newline ++
  "      " ++ newline ++
  "      Use scientific yet poetic language suitable for a sci-fi interface. " ++ newline ++
  "      Do not mention " ++ dquote ++ "percentages" ++ dquote ++
  " explicitly, describe the effects." ++ newline ++
  "    ".

Definition connection_lost : string :=
  "Connection to Deep Space Network lost...".

Definition analysis_failed : string :=
  "ANALYSIS FAILED: Cosmic interference detected.".

(** What a call leaves behind: the settled promise and the lines written
    with [console.error]. *)
Record Call := {
  settled : outcome string;
  console_error : list (string * error)
}.

(** The [try] block. *)
Definition try_block (generateContent : Models) (chaos scale : number)
           (userQuery : option string) : outcome string :=
  let chaosPct := Math_round (chaos * 100) in
  let scalePct := Math_round (scale * 100) in
  let contextInstruction := contextInstruction userQuery in
  let prompt := prompt chaosPct scalePct contextInstruction in
  obind (generateContent {| model := "gemini-2.5-flash";
                            contents := prompt;
                            thinkingBudget := 0 |})
        (fun response =>
           Returns (if truthy (text response)
                    then match text response with
                         | Some t => t
                         | None => connection_lost
                         end
                    else connection_lost)).

Definition generateCosmicAnalysis (generateContent : Models)
           (chaos scale : number) (userQuery : option string) : Call :=
  match try_block generateContent chaos scale userQuery with
  | Returns s => {| settled := Returns s; console_error := [] |}
  | Throws error =>
      {| settled := Returns analysis_failed;
         console_error := [("Gemini Error:", error)] |}
  end.

(** The request that a call sends to the service. *)
Definition request_of (chaos scale : number) (userQuery : option string)
  : GenerateContentParameters :=
  {| model := "gemini-2.5-flash";
     contents := prompt (Math_round (chaos * 100)) (Math_round (scale * 100))
                        (contextInstruction userQuery);
     thinkingBudget := 0 |}.

(** [response.text || "Connection to Deep Space Network lost..."] *)
Definition text_or_lost (response : GenerateContentResponse) : string :=
  match text response with
  | Some (String c t) => String c t
  | _ => connection_lost
  end.

End geminiService.

(** ** App: state and handlers *)

Module AppHandlers.

Import Js.

Inductive Role := user | model.

Record ChatMessage := {
  role : Role;
  text : string;
  timestamp : number
}.

(** The ref and the state variables of [App]. *)
Record State := {
  paramsRef : SimulationParams;
  uiParams : SimulationParams;
  messages : list ChatMessage;
  isAnalyzing : bool;
  cameraReady : bool;
  isListening : bool
}.

Definition initial : State :=
  {| paramsRef := App.INITIAL_PARAMS;
     uiParams := App.INITIAL_PARAMS;
     messages := [];
     isAnalyzing := false;
     cameraReady := false;
     isListening := false |}.

(** [handleParamsUpdate]: the ref and the UI state take the same spread. *)
Definition handleParamsUpdate (st : State)
           (newParams : PartialSimulationParams) : State :=
  {| paramsRef := App.handleParamsUpdate (paramsRef st) newParams;
     uiParams := App.spread (uiParams st) newParams;
     messages := messages st;
     isAnalyzing := isAnalyzing st;
     cameraReady := cameraReady st;
     isListening := isListening st |}.

(** [setMessages(prev => [...prev, msg])] *)
Definition push_message (st : State) (msg : ChatMessage) : State :=
  {| paramsRef := paramsRef st;
     uiParams := uiParams st;
     messages := messages st ++ [msg];
     isAnalyzing := isAnalyzing st;
     cameraReady := cameraReady st;
     isListening := isListening st |}.

Definition setIsAnalyzing (st : State) (b : bool) : State :=
  {| paramsRef := paramsRef st;
     uiParams := uiParams st;
     messages := messages st;
     isAnalyzing := b;
     cameraReady := cameraReady st;
     isListening := isListening st |}.

(** [customPrompt || 'Analyze current simulation status.'] *)
Definition displayText (customPrompt : option string) : string :=
  match customPrompt with
  | Some (String _ _ as s) => s
  | _ => "Analyze current simulation status."%string
  end.

(** [handleAnalyze(customPrompt)], called from the latest render (its
    closure holds the current state).  [Date.now()] gives [t_user] and
    [t_model]; [during] lists the parameter updates that arrive while the
    call of the service is awaited.  A rejected promise would leave the
    function at the [await]. *)
Definition handleAnalyze (generateContent : geminiService.Models)
           (st : State) (customPrompt : option string)
           (t_user : number) (during : list PartialSimulationParams)
           (t_model : number) : State :=
  if isAnalyzing st then st
  else
    let st1 := setIsAnalyzing st true in
    let userMsg := {| role := user; text := displayText customPrompt;
                      timestamp := t_user |} in
    let st2 := push_message st1 userMsg in
    let call :=
      geminiService.generateCosmicAnalysis
        generateContent (chaos (paramsRef st2)) (scale (paramsRef st2))
        customPrompt in
    let st3 := fold_left handleParamsUpdate during st2 in
    match geminiService.settled call with
    | Returns analysis =>
        let aiMsg := {| role := model; text := analysis;
                        timestamp := t_model |} in
        setIsAnalyzing (push_message st3 aiMsg) false
    | Throws _ => st3
    end.

(** Requests made one after another, each finished before the next. *)
Fixpoint handleAnalyze_all (generateContent : geminiService.Models)
         (st : State) (requests : list (option string * number * number))
  : State :=
  match requests with
  | [] => st
  | (customPrompt, t_user, t_model) :: rest =>
      handleAnalyze_all generateContent
        (handleAnalyze generateContent st customPrompt t_user [] t_model)
        rest
  end.

Definition from_user (m : ChatMessage) : bool :=
  match role m with user => true | model => false end.

(** The roles of [n] exchanges: user, model, user, model, ... *)
Fixpoint exchanges (n : nat) : list Role :=
  match n with
  | O => []
  | S m => user :: model :: exchanges m
  end.

End AppHandlers.

(** ** components/GestureController: start-up and the frame loop *)

Module GestureLifecycle.

Import Js GestureController.

(** The component's state variables and refs, and what it has told its
    parent. *)
Record Controller := {
  loading : bool;
  error : option string;
  handLandmarkerRef : option HandLandmarker;
  srcObject : bool;            (* a camera stream is attached to the video *)
  onCameraReady : list bool;   (* the calls, oldest first *)
  predicting : bool            (* [predictWebcam] has been started *)
}.

Definition mounted : Controller :=
  {| loading := true; error := None; handLandmarkerRef := None;
     srcObject := false; onCameraReady := []; predicting := false |}.

Definition setError (c : Controller) (msg : string) : Controller :=
  {| loading := loading c; error := Some msg;
     handLandmarkerRef := handLandmarkerRef c; srcObject := srcObject c;
     onCameraReady := onCameraReady c; predicting := predicting c |}.

(** The overlay over the page: [(loading || error) && ...]. *)
Definition overlay (c : Controller) : bool :=
  loading c || match error c with Some _ => true | None => false end.

(** [videoRef.current.onloadeddata] *)
Definition onloadeddata (c : Controller) : Controller :=
  {| loading := false; error := error c;
     handLandmarkerRef := handLandmarkerRef c; srcObject := srcObject c;
     onCameraReady := onCameraReady c ++ [true]; predicting := true |}.

(** [startWebcam], given how [getUserMedia] settles, whether the video
    element exists and whether it then loads data. *)
Definition startWebcam (getUserMedia : outcome unit) (videoRef : bool)
           (loads : bool) (c : Controller) : Controller :=
  match getUserMedia with
  | Returns _ =>
      if videoRef then
        let c1 := {| loading := loading c; error := error c;
                     handLandmarkerRef := handLandmarkerRef c;
                     srcObject := true;
                     onCameraReady := onCameraReady c;
                     predicting := predicting c |} in
        if loads then onloadeddata c1 else c1
      else c
  | Throws _ =>
      setError c "Camera permission denied. Enable camera to control simulation."
  end.

(** [initMediaPipe], given how the two loading steps settle. *)
Definition initMediaPipe (forVisionTasks : outcome unit)
           (createFromOptions : outcome HandLandmarker)
           (getUserMedia : outcome unit) (videoRef : bool) (loads : bool)
           (c : Controller) : Controller :=
  match forVisionTasks with
  | Returns _ =>
      match createFromOptions with
      | Returns handLandmarker =>
          startWebcam getUserMedia videoRef loads
            {| loading := loading c; error := error c;
               handLandmarkerRef := Some handLandmarker;
               srcObject := srcObject c;
               onCameraReady := onCameraReady c;
               predicting := predicting c |}
      | Throws _ => setError c "Failed to load AI models. Please refresh."
      end
  | Throws _ => setError c "Failed to load AI models. Please refresh."
  end.

(** Whether a promise was fulfilled. *)
Definition fulfilled {A} (o : outcome A) : bool :=
  match o with Returns _ => true | Throws _ => false end.

(** What the detector and the video offer in one animation frame. *)
Record FrameInput := {
  landmarker : option HandLandmarker;
  video : option HTMLVideoElement;
  time : number
}.

(** How the frame loop stands at the end: the content of
    [paramsRef.current] and the exception that escaped, if one did. *)
Record LoopEnd := {
  paramsRef_current : SimulationParams;
  uncaught : option Js.error
}.

(** [predictWebcam] rescheduling itself with [requestAnimationFrame].  A
    frame that throws writes nothing and schedules nothing: the loop ends
    with [paramsRef.current] as the frames before it left it. *)
Fixpoint animation_loop (paramsRef : SimulationParams)
         (frames : list FrameInput) : LoopEnd :=
  match frames with
  | [] => {| paramsRef_current := paramsRef; uncaught := None |}
  | f :: rest =>
      match predictWebcam (landmarker f) (video f) (time f) with
      | Throws e => {| paramsRef_current := paramsRef; uncaught := Some e |}
      | Returns effects =>
          let paramsRef' :=
            match onParamsUpdate effects with
            | Some newParams => App.handleParamsUpdate paramsRef newParams
            | None => paramsRef
            end in
          if requestedAnimationFrame effects
          then animation_loop paramsRef' rest
          else {| paramsRef_current := paramsRef'; uncaught := None |}
      end
  end.

(** The frame runs to its end. *)
Definition completes (f : FrameInput) : Prop :=
  exists effects,
    predictWebcam (landmarker f) (video f) (time f) = Returns effects.

(** A frame in which detection runs. *)
Definition detects (f : FrameInput) : Prop :=
  exists handLandmarker v,
    landmarker f = Some handLandmarker /\ video f = Some v /\
    0 < videoWidth v.

End GestureLifecycle.

(** ** The orbit a calm particle settles on *)

Module TrailingOrbit.

Import Js GalaxyCanvas.

(** For an angular step [w] per frame: [|1 - 0.9 e^(-iw)|^2]. *)
Definition lag_denominator (w : number) : number := 1.81 - 1.8 * cos w.

(** The components, along and across the direction of the target, of the
    fixed point of [u -> 0.9 u + 0.1 (target)] when the target turns by [w]
    per frame. *)
Definition trail_a (w : number) : number :=
  0.1 * (1 - 0.9 * cos w) / lag_denominator w.

Definition trail_b (w : number) : number :=
  - (0.09 * sin w) / lag_denominator w.

(** The point that trails the target of a particle on the smaller circle. *)
Definition trailing_point (width height scale : number) (p : Particle)
  : number * number :=
  let r := targetRadius p scale in
  let w := angularSpeed p in
  (width / 2 + r * (trail_a w * cos (angle p) - trail_b w * sin (angle p)),
   height / 2 + r * (trail_a w * sin (angle p) + trail_b w * cos (angle p))).

End TrailingOrbit.

(** ** Binary64 numbers and their values *)

Module Binary64.

(** [2 ^ e] for an integer exponent. *)
Definition pow2 (e : Z) : R := powerRZ 2 e.
Arguments pow2 e : simpl never.

Definition sgn (s : bool) : R := if s then -1 else 1.

(** The real number that a binary64 datum stands for:
    [(-1)^s * m * 2^e] for a finite one, 0 for the zeros; the infinities
    and NaN, which stand for no number, are given 0. *)
Definition F2R (f : spec_float) : R :=
  match f with
  | S754_finite s m e => sgn s * (IZR (Zpos m) * pow2 e)
  | _ => 0
  end.

Definition value (x : float) : R := F2R (Prim2SF x).

(** Neither NaN nor an infinity. *)
Definition SFfinite (f : spec_float) : bool :=
  match f with
  | S754_zero _ | S754_finite _ _ _ => true
  | _ => false
  end.

(** The real numbers of the format: [m * 2^e] with a mantissa of at most
    53 bits, an exponent of at least -1074 and a magnitude below
    [2 ^ 1024]. *)
Definition rep (u : R) : Prop :=
  exists m e, u = IZR m * pow2 e /\ (Z.abs m < 2 ^ 53)%Z /\
              (-1074 <= e)%Z /\ Rabs u < pow2 1024.

Definition cmp_holds (c : comparison) (a b : R) : Prop :=
  match c with Lt => a < b | Eq => a = b | Gt => b < a end.

(** What a mantissa [m], an exponent [e] and a location [l] say about the
    real number [w] they stand for during rounding: [w] is [m * 2^e]
    exactly, or lies strictly between [m * 2^e] and [(m + 1) * 2^e], below,
    at or above the midpoint. *)
Definition inbetween (m e : Z) (l : location) (w : R) : Prop :=
  match l with
  | loc_Exact => w = IZR m * pow2 e
  | loc_Inexact c =>
      IZR m * pow2 e < w < IZR (m + 1) * pow2 e /\
      cmp_holds c w ((IZR m + / 2) * pow2 e)
  end.

(** [z] is what rounding the real number [v] to binary64 gives: [z] stays
    between any two numbers of the format that enclose [v], and when [z] is
    finite it is within half a unit in the last place of [v]. *)
Definition rounds_to (v : R) (z : spec_float) : Prop :=
  (forall l u, rep l -> rep u -> l <= v <= u ->
               SFfinite z = true /\ l <= F2R z <= u) /\
  (SFfinite z = true ->
   forall k, Rabs v < pow2 k ->
             Rabs (F2R z - v) <= pow2 (fexp prec emax k) / 2).

(** A float that is neither NaN nor infinite and whose value lies in
    [[l, u]]. *)
Definition within (x : float) (l u : R) : Prop :=
  is_finite x = true /\ l <= value x <= u.

End Binary64.

(** ** class Particle in binary64 arithmetic *)

(** Decimal literals denote the nearest binary64 number, as they do in
    JavaScript. *)
Set Warnings "-inexact-float".

Module GalaxyCanvas64.

Import Binary64.

Record Particle := {
  x : float;
  y : float;
  z : float;
  vx : float;
  vy : float;
  size : float;
  color : option string;
  angle : float;
  radius : float;
  angularSpeed : float
}.

Definition Math_PI : float := 0x1.921fb54442d18p+1%float.

(** [Math.min(a, b)] *)
Definition Math_min (a b : float) : float :=
  if (is_nan a || is_nan b)%bool then nan
  else if (a <? b)%float then a
  else if (b <? a)%float then b
  else if get_sign a then a else b.

(** [colors[Math.floor(v)]] *)
Definition colors_at (v : float) : option string :=
  if (v <? 0)%float then None
  else if (v <? 1)%float then nth_error GalaxyCanvas.colors 0
  else if (v <? 2)%float then nth_error GalaxyCanvas.colors 1
  else if (v <? 3)%float then nth_error GalaxyCanvas.colors 2
  else if (v <? 4)%float then nth_error GalaxyCanvas.colors 3
  else None.

(** [new Particle(width, height)], reading seven draws from the cursor on. *)
Definition new_Particle (width height : float) (draws : nat -> float)
           (i : nat) : Particle * nat :=
  let r_z := draws i in
  let r_angle := draws (1 + i)%nat in
  let r_radius := draws (2 + i)%nat in
  let r_speed := draws (3 + i)%nat in
  let r_sign := draws (4 + i)%nat in
  let r_size := draws (5 + i)%nat in
  let r_color := draws (6 + i)%nat in
  ({| x := width / 2;
      y := height / 2;
      z := r_z * 2;
      vx := 0;
      vy := 0;
      angle := r_angle * Math_PI * 2;
      radius := r_radius * (Math_min width height / 3);
      angularSpeed :=
        (0.02 + r_speed * 0.05) * (if (r_sign <? 0.5) then 1 else -1);
      size := r_size * 2 + 0.5;
      color := colors_at (r_color * 4) |}%float, (7 + i)%nat).

(** [p.update(width, height, chaos, scale)], reading two draws. *)
Definition update (Math_cos Math_sin : float -> float)
           (width height chaos scale : float) (p : Particle)
           (draws : nat -> float) (i : nat) : Particle * nat :=
  (let cx := width / 2 in
   let cy := height / 2 in
   let targetRadius := radius p * (0.1 + scale * 1.5) in
   let jitter := chaos * 5 in
   let angle1 := angle p + angularSpeed p * (1 + chaos * 2) in
   let targetX := cx + Math_cos angle1 * targetRadius in
   let targetY := cy + Math_sin angle1 * targetRadius in
   let x1 := x p + (targetX - x p) * 0.1 in
   let y1 := y p + (targetY - y p) * 0.1 in
   let x2 := x1 + (draws i - 0.5) * jitter in
   let y2 := y1 + (draws (S i) - 0.5) * jitter in
   ({| x := x2; y := y2; z := z p; vx := vx p; vy := vy p;
       size := size p; color := color p;
       angle := angle1; radius := radius p;
       angularSpeed := angularSpeed p |}, S (S i)))%float.

(** A canvas extent: a float between 0 and [2 ^ 32]. *)
Definition extent (w : float) : Prop := within w 0 4294967296.

(** A control signal or a draw: a float between 0 and 1. *)
Definition unit_float (c : float) : Prop := within c 0 1.

(** [Math.cos], [Math.sin]: on a finite argument, a float between -1 and 1. *)
Definition trigonometric (f : float -> float) : Prop :=
  forall a, is_finite a = true -> within (f a) (-1) 1.

Inductive reachable (Math_cos Math_sin : float -> float)
          (draws : nat -> float) : Particle -> Prop :=
| reachable_new width height i :
    extent width -> extent height ->
    reachable Math_cos Math_sin draws (fst (new_Particle width height draws i))
| reachable_update width height chaos scale p i :
    reachable Math_cos Math_sin draws p ->
    extent width -> extent height ->
    unit_float chaos -> unit_float scale ->
    reachable Math_cos Math_sin draws
              (fst (update Math_cos Math_sin width height chaos scale p draws i)).

(** The ranges that the fields of a particle keep. *)
Definition bounded_state (p : Particle) : Prop :=
  within (x p) (-68719476736) 68719476736 /\
  within (y p) (-68719476736) 68719476736 /\
  within (angle p) (- pow2 60) (pow2 60) /\
  within (radius p) 0 4294967296 /\
  within (angularSpeed p) (-2) 2.

End GalaxyCanvas64.

(** * Properties of the particle field *)

Module ParticleFacts.

Import Js GalaxyCanvas.

Lemma new_Particle_radius width height draws i :
  radius (fst (new_Particle width height draws i)) =
  draws (S (S i)) * (Rmin width height / 3).
Proof. reflexivity. Qed.

Lemma new_Particle_radius_nonneg width height draws i :
  0 <= width -> 0 <= height -> unit_draws draws ->
  0 <= radius (fst (new_Particle width height draws i)).
Proof.
  intros Hw Hh Hd. rewrite new_Particle_radius.
  destruct (Hd (S (S i))) as [Hlo _].
  apply Rmult_le_pos; [exact Hlo|].
  assert (0 <= Rmin width height) by (apply Rmin_glb; assumption).
  lra.
Qed.

Lemma update_radius width height chaos scale p draws i :
  radius (fst (update width height chaos scale p draws i)) = radius p.
Proof. reflexivity. Qed.

Lemma reachable_radius_nonneg p : reachable p -> 0 <= radius p.
Proof.
  induction 1 as [w h d i Hw Hh Hd | w h c s p d i _ IH].
  - now apply new_Particle_radius_nonneg.
  - now rewrite update_radius.
Qed.

Lemma update_position width height chaos scale p draws i :
  let p' := fst (update width height chaos scale p draws i) in
  x p' = x p + (width / 2 + cos (angle p') * (radius p * (0.1 + scale * 1.5))
                - x p) * 0.1
         + (draws i - 0.5) * (chaos * 5) /\
  y p' = y p + (height / 2 + sin (angle p') * (radius p * (0.1 + scale * 1.5))
                - y p) * 0.1
         + (draws (S i) - 0.5) * (chaos * 5).
Proof. split; reflexivity. Qed.

Lemma radial_unique (c s t t' : R) :
  s * s + c * c = 1 -> c * t = c * t' -> s * t = s * t' -> t = t'.
Proof.
  intros K Hc Hs.
  assert (H : (s * s + c * c) * t = (s * s + c * c) * t').
  { replace ((s * s + c * c) * t) with (s * (s * t) + c * (c * t)) by ring.
    replace ((s * s + c * c) * t') with (s * (s * t') + c * (c * t')) by ring.
    now rewrite Hc, Hs. }
  rewrite K in H. lra.
Qed.

(** C4. For a particle of the program, whose [radius] is fixed, the target
    radius that a call of [update] steers by (the one radius [t] for which
    the new position is the old one moved a tenth of the way to the point
    at [t] from the centre in the direction of the new angle, plus the
    jitter) is [radius * (0.1 + scale * 1.5)]; it is non-decreasing in
    [scale], [0.1 * radius] at [scale = 0] and [1.6 * radius] at
    [scale = 1]. *)
Theorem update_targetRadius_monotone width height chaos p draws i s1 s2 :
  reachable p -> s1 <= s2 ->
  (forall scale t,
      (let p' := fst (update width height chaos scale p draws i) in
       x p' = x p + (width / 2 + cos (angle p') * t - x p) * 0.1
              + (draws i - 0.5) * (chaos * 5) /\
       y p' = y p + (height / 2 + sin (angle p') * t - y p) * 0.1
              + (draws (S i) - 0.5) * (chaos * 5))
      <-> t = radius p * (0.1 + scale * 1.5)) /\
  radius p * (0.1 + s1 * 1.5) <= radius p * (0.1 + s2 * 1.5) /\
  radius p * (0.1 + 0 * 1.5) = 0.1 * radius p /\
  radius p * (0.1 + 1 * 1.5) = 1.6 * radius p.
Proof.
  intros Hp Hs. apply reachable_radius_nonneg in Hp.
  split; [|split; [apply Rmult_le_compat_l; lra | split; lra]].
  intros scale t. cbv zeta.
  destruct (update_position width height chaos scale p draws i) as [Ex Ey].
  cbv zeta in Ex, Ey.
  set (p' := fst (update width height chaos scale p draws i)) in *.
  split.
  - intros [Hx Hy].
    pose proof (sin2_cos2 (angle p')) as K. unfold Rsqr in K.
    apply (radial_unique (cos (angle p')) (sin (angle p'))); [exact K | lra | lra].
  - intros ->. split; [exact Ex | exact Ey].
Qed.

Lemma update_targetRadius_monotone_witness :
  let draws := fun _ : nat => / 2 in
  let p := fst (new_Particle 800 600 draws 0%nat) in
  (forall scale t,
      (let p' := fst (update 800 600 0.3 scale p draws 7%nat) in
       x p' = x p + (800 / 2 + cos (angle p') * t - x p) * 0.1
              + (draws 7%nat - 0.5) * (0.3 * 5) /\
       y p' = y p + (600 / 2 + sin (angle p') * t - y p) * 0.1
              + (draws 8%nat - 0.5) * (0.3 * 5))
      <-> t = radius p * (0.1 + scale * 1.5)) /\
  radius p * (0.1 + 0 * 1.5) <= radius p * (0.1 + 1 * 1.5) /\
  radius p * (0.1 + 0 * 1.5) = 0.1 * radius p /\
  radius p * (0.1 + 1 * 1.5) = 1.6 * radius p.
Proof.
  cbv zeta.
  apply (update_targetRadius_monotone 800 600 0.3
           (fst (new_Particle 800 600 (fun _ => / 2) 0%nat))
           (fun _ => / 2) 7%nat 0 1).
  - apply reachable_new; [lra | lra | intros j; lra].
  - lra.
Defined.

(** C5. A call of [update] advances the angle by [angularSpeed * (1 + chaos * 2)]:
    by [angularSpeed] at [chaos = 0] and by [3 * angularSpeed] at [chaos = 1]. *)
Theorem update_angle_advance width height chaos scale p draws i :
  angle (fst (update width height chaos scale p draws i)) - angle p
    = angularSpeed p * (1 + chaos * 2) /\
  angle (fst (update width height 0 scale p draws i)) - angle p
    = angularSpeed p /\
  angle (fst (update width height 1 scale p draws i)) - angle p
    = 3 * angularSpeed p.
Proof. cbn. repeat split; ring. Qed.

(** *** The random source and the frame loop *)

Lemma bind_fst {A B} (m : Rand A) (k : A -> Rand B) draws i :
  fst (bind m k draws i) = fst (k (fst (m draws i)) draws (snd (m draws i))).
Proof. unfold bind. destruct (m draws i). reflexivity. Qed.

Lemma forEach_particle_cons width height chaos scale p rest draws i :
  fst (fst (forEach_particle width height chaos scale (p :: rest) draws i))
  = fst (update width height chaos scale p draws i)
    :: fst (fst (forEach_particle width height chaos scale rest draws
                                  (S (S (S i))))).
Proof.
  cbn [forEach_particle]. rewrite !bind_fst. reflexivity.
Qed.

Lemma render_particles width height params ps draws i :
  particles (fst (render width height params ps draws i))
  = fst (fst (forEach_particle width height (chaos params) (scale params)
                               ps draws (S i))).
Proof. unfold render. rewrite !bind_fst. reflexivity. Qed.

Lemma forEach_particle_fixed_fields width height chaos scale ps :
  forall draws i,
    map fixed_fields
        (fst (fst (forEach_particle width height chaos scale ps draws i)))
    = map fixed_fields ps.
Proof.
  induction ps as [|q rest IH]; intros draws i; [reflexivity|].
  rewrite forEach_particle_cons. cbn [map]. now rewrite IH.
Qed.

(** C9. [update] leaves [radius], [angularSpeed], [size] and [color] (and
    [z], [vx], [vy]) as they were, whatever [chaos], [scale], [width] and
    [height] are: only [x], [y] and [angle] are written.  Hence a whole
    frame, which updates and draws every particle, leaves these fields of
    the pool as they were. *)
Theorem update_preserves_fields width height chaos scale p draws i :
  (let p' := fst (update width height chaos scale p draws i) in
   radius p' = radius p /\
   angularSpeed p' = angularSpeed p /\
   size p' = size p /\
   color p' = color p /\
   z p' = z p /\ vx p' = vx p /\ vy p' = vy p) /\
  (forall params ps,
      map fixed_fields
          (particles (fst (render width height params ps draws i)))
      = map fixed_fields ps).
Proof.
  split; [cbv zeta; repeat split|].
  intros params ps. rewrite render_particles.
  apply forEach_particle_fixed_fields.
Qed.

(** *** Construction of the pool *)

Lemma new_Particle_position width height draws i :
  position (fst (new_Particle width height draws i)) = center width height.
Proof. reflexivity. Qed.

Lemma Array_from_length n width height : forall draws i,
  List.length (fst (Array_from n width height draws i)) = n.
Proof.
  induction n as [|n IH]; intros draws i; [reflexivity|].
  cbn [Array_from]. rewrite bind_fst, bind_fst. cbn [ret fst List.length].
  now rewrite IH.
Qed.

Lemma Array_from_center n width height : forall draws i,
  Forall (fun p => position p = center width height)
         (fst (Array_from n width height draws i)).
Proof.
  induction n as [|n IH]; intros draws i; [constructor|].
  cbn [Array_from]. rewrite bind_fst, bind_fst. cbn [ret fst].
  constructor; [apply new_Particle_position | apply IH].
Qed.

(** C10. The constructor puts every particle at the centre of the canvas,
    [(width / 2, height / 2)], whatever radius it draws; the pool holds 800
    particles, all of them at that point when the simulation starts. *)
Theorem particles_start_at_center width height draws i :
  (let p := fst (new_Particle width height draws i) in
   x p = width / 2 /\ y p = height / 2 /\
   radius p = draws (S (S i)) * (Rmin width height / 3)) /\
  (let ps := fst (init_particles width height draws i) in
   List.length ps = 800%nat /\
   Forall (fun p => x p = width / 2 /\ y p = height / 2) ps).
Proof.
  split; [cbn; auto|]. cbv zeta. unfold init_particles. split.
  - apply Array_from_length.
  - eapply Forall_impl; [|apply Array_from_center].
    intros p Hp. unfold position, center in Hp. now inversion Hp.
Qed.

End ParticleFacts.

(** * The orbit: target points, the calm regime, excursion and jitter *)

Module OrbitFacts.

Import Js GalaxyCanvas ParticleFacts.

(** *** Geometry *)

Lemma dist_contract (a b c : number * number) (t : R) :
  0 <= t ->
  fst a - fst c = t * (fst b - fst c) ->
  snd a - snd c = t * (snd b - snd c) ->
  dist a c = t * dist b c.
Proof.
  intros Ht Hx Hy. unfold dist. rewrite Hx, Hy.
  replace ((t * (fst b - fst c)) ^ 2 + (t * (snd b - snd c)) ^ 2)
    with (t ^ 2 * ((fst b - fst c) ^ 2 + (snd b - snd c) ^ 2)) by ring.
  rewrite sqrt_mult_alt by apply pow2_ge_0.
  now rewrite sqrt_pow2.
Qed.

Lemma dist_orbit_target width height scale p :
  0 <= targetRadius p scale ->
  dist (orbit_target width height scale p) (center width height)
  = targetRadius p scale.
Proof.
  intros Hr. unfold dist, orbit_target, center. cbn [fst snd].
  set (r := targetRadius p scale) in *.
  set (a := angle p).
  replace ((width / 2 + cos a * r - width / 2) ^ 2 +
           (height / 2 + sin a * r - height / 2) ^ 2)
    with (r ^ 2 * (Rsqr (sin a) + Rsqr (cos a)))
    by (unfold Rsqr; ring).
  rewrite sin2_cos2, Rmult_1_r. now apply sqrt_pow2.
Qed.

(** *** One call of [update] without chaos *)

Lemma update_calm_position width height scale p draws i :
  let p' := fst (update width height 0 scale p draws i) in
  let T := orbit_target width height scale p' in
  x p' = x p + (fst T - x p) * 0.1 /\
  y p' = y p + (snd T - y p) * 0.1.
Proof. cbn. unfold jitter, targetRadius. cbn. split; ring. Qed.

Lemma update_calm_contract width height scale p draws i :
  let p' := fst (update width height 0 scale p draws i) in
  let T := orbit_target width height scale p' in
  dist (position p') T = 0.9 * dist (position p) T.
Proof.
  cbv zeta.
  destruct (update_calm_position width height scale p draws i) as [Hx Hy].
  cbv zeta in Hx, Hy.
  apply dist_contract; [lra| |]; unfold position; cbn [fst snd].
  - rewrite Hx. lra.
  - rewrite Hy. lra.
Qed.

(** *** The pool: every frame updates each particle once, in place *)

Lemma forEach_particle_nth width height chaos scale ps :
  forall draws i k p,
    nth_error ps k = Some p ->
    exists j,
      nth_error
        (fst (fst (forEach_particle width height chaos scale ps draws i))) k
      = Some (fst (update width height chaos scale p draws j)).
Proof.
  induction ps as [|q rest IH]; intros draws i k p Hk.
  - destruct k; discriminate.
  - rewrite forEach_particle_cons. destruct k as [|k]; cbn in Hk |- *.
    + injection Hk as ->. now exists i.
    + now apply IH.
Qed.

Lemma render_nth width height params ps draws i k p :
  nth_error ps k = Some p ->
  exists j,
    nth_error (particles (fst (render width height params ps draws i))) k
    = Some (fst (update width height (chaos params) (scale params)
                        p draws j)).
Proof.
  intros Hk. rewrite render_particles. now apply forEach_particle_nth.
Qed.

Lemma frames_nth n width height params : forall ps draws i k p0,
  nth_error ps k = Some p0 ->
  exists p,
    nth_error (fst (frames n width height params ps draws i)) k = Some p /\
    radius p = radius p0 /\ angularSpeed p = angularSpeed p0.
Proof.
  induction n as [|n IH]; intros ps draws i k p0 Hk.
  - exists p0. cbn. auto.
  - cbn [frames]. rewrite bind_fst.
    destruct (render_nth width height params ps draws i k p0 Hk) as [j Hj].
    destruct (IH _ draws (snd (render width height params ps draws i))
                 k _ Hj) as [p [Hp [Hr Hs]]].
    exists p. repeat split; [exact Hp | rewrite Hr | rewrite Hs]; reflexivity.
Qed.

(** C7, amended. Frames run one after another with [chaos = 0] and
    [scale = 1]: in every frame each particle of the pool is steered towards
    a point of the circle of radius [1.6 * radius] around the centre of the
    canvas (the circle is fixed, the radius being the particle's initial
    one); the frame adds no jitter ([jitter 0 = 0], the draws do not show in
    the position), and the particle's distance to that frame's target point
    is 0.9 times its distance to the same point before the frame. *)
Theorem calm_frames_approach_orbit width height a ps draws i n k p0 :
  nth_error ps k = Some p0 ->
  reachable p0 ->
  let params := {| chaos := 0; scale := 1; active := a |} in
  let before := frames n width height params ps draws i in
  let after := render width height params (fst before) draws (snd before) in
  exists p p',
    nth_error (fst before) k = Some p /\
    nth_error (particles (fst after)) k = Some p' /\
    jitter (chaos params) = 0 /\
    (let T := orbit_target width height 1 p' in
     x p' = x p + (fst T - x p) * 0.1 /\
     y p' = y p + (snd T - y p) * 0.1 /\
     dist (position p') T = 0.9 * dist (position p) T /\
     dist T (center width height) = 1.6 * radius p0).
Proof.
  intros Hk Hp0. cbv zeta.
  set (params := {| chaos := 0; scale := 1; active := a |}).
  destruct (frames_nth n width height params ps draws i k p0 Hk)
    as [p [Hp [Hr _]]].
  destruct (render_nth width height params _ draws
              (snd (frames n width height params ps draws i)) k p Hp)
    as [j Hj].
  cbn [chaos scale params] in Hj.
  exists p, (fst (update width height 0 1 p draws j)).
  split; [exact Hp|]. split; [exact Hj|].
  split; [unfold jitter; cbn; lra|].
  destruct (update_calm_position width height 1 p draws j) as [Hx Hy].
  split; [exact Hx|]. split; [exact Hy|].
  split; [apply update_calm_contract|].
  apply reachable_radius_nonneg in Hp0.
  rewrite dist_orbit_target.
  - unfold targetRadius. rewrite update_radius, Hr. lra.
  - unfold targetRadius. rewrite update_radius, Hr.
    apply Rmult_le_pos; lra.
Qed.

Lemma calm_frames_approach_orbit_witness :
  let draws := fun _ : nat => / 2 in
  let p0 := fst (new_Particle 800 600 draws 0%nat) in
  let params := {| chaos := 0; scale := 1; active := true |} in
  let before := frames 2 800 600 params [p0] draws 7%nat in
  let after := render 800 600 params (fst before) draws (snd before) in
  exists p p',
    nth_error (fst before) 0%nat = Some p /\
    nth_error (particles (fst after)) 0%nat = Some p' /\
    jitter (chaos params) = 0 /\
    (let T := orbit_target 800 600 1 p' in
     x p' = x p + (fst T - x p) * 0.1 /\
     y p' = y p + (snd T - y p) * 0.1 /\
     dist (position p') T = 0.9 * dist (position p) T /\
     dist T (center 800 600) = 1.6 * radius p0).
Proof.
  cbv zeta.
  apply (calm_frames_approach_orbit 800 600 true
           [fst (new_Particle 800 600 (fun _ => / 2) 0%nat)]
           (fun _ => / 2) 7%nat 2%nat 0%nat).
  - reflexivity.
  - apply reachable_new; [lra | lra | intros j; lra].
Defined.

(** *** A call of [update] seen from the centre *)

Lemma update_offsets width height chaos scale p draws i :
  let p' := fst (update width height chaos scale p draws i) in
  x p' - width / 2
  = 0.9 * (x p - width / 2) + 0.1 * (cos (angle p') * targetRadius p scale)
    + (draws i - 0.5) * jitter chaos /\
  y p' - height / 2
  = 0.9 * (y p - height / 2) + 0.1 * (sin (angle p') * targetRadius p scale)
    + (draws (S i) - 0.5) * jitter chaos.
Proof. cbn. split; lra. Qed.

(** *** The target point moves on *)

Lemma dist_sqr (a b : number * number) :
  dist a b * dist a b = (fst a - fst b) ^ 2 + (snd a - snd b) ^ 2.
Proof.
  unfold dist. apply sqrt_sqrt.
  apply Rplus_le_le_0_compat; apply pow2_ge_0.
Qed.

(** Two calm calls of [update] on a particle that starts at the centre:
    the squares of the distances to the target point after the first and
    after the second call. *)
Lemma two_calm_updates_from_center width height scale p0 draws i j :
  position p0 = center width height ->
  let p1 := fst (update width height 0 scale p0 draws i) in
  let p2 := fst (update width height 0 scale p1 draws j) in
  let d1 := dist (position p1) (orbit_target width height scale p1) in
  let d2 := dist (position p2) (orbit_target width height scale p2) in
  let r := targetRadius p0 scale in
  d1 * d1 = 0.81 * (r * r) /\
  d2 * d2 = 0.81 * (r * r) * (1.01 - 0.2 * cos (angle p1 - angle p2)).
Proof.
  intros Hc. cbv zeta. rewrite !dist_sqr.
  unfold position, center in Hc. injection Hc as Hx Hy.
  set (p1 := fst (update width height 0 scale p0 draws i)).
  set (p2 := fst (update width height 0 scale p1 draws j)).
  destruct (update_offsets width height 0 scale p0 draws i) as [Ex1 Ey1].
  destruct (update_offsets width height 0 scale p1 draws j) as [Ex2 Ey2].
  cbv zeta in Ex1, Ey1, Ex2, Ey2. fold p1 in Ex1, Ey1, Ex2, Ey2.
  fold p2 in Ex2, Ey2.
  assert (Hr1 : targetRadius p1 scale = targetRadius p0 scale) by reflexivity.
  assert (Hr2 : targetRadius p2 scale = targetRadius p0 scale) by reflexivity.
  unfold orbit_target, position. cbn [fst snd]. rewrite Hr1, Hr2.
  rewrite Hr1 in Ex2, Ey2.
  set (r := targetRadius p0 scale) in *.
  pose proof (sin2_cos2 (angle p1)) as H1.
  pose proof (sin2_cos2 (angle p2)) as H2.
  pose proof (cos_minus (angle p1) (angle p2)) as H12.
  unfold Rsqr in H1, H2.
  set (c1 := cos (angle p1)) in *. set (s1 := sin (angle p1)) in *.
  set (c2 := cos (angle p2)) in *. set (s2 := sin (angle p2)) in *.
  set (c12 := cos (angle p1 - angle p2)) in *.
  unfold jitter in Ex1, Ey1, Ex2, Ey2. rewrite Hx in Ex1. rewrite Hy in Ey1.
  assert (Dx1 : x p1 - (width / 2 + c1 * r) = - 0.9 * (c1 * r)) by lra.
  assert (Dy1 : y p1 - (height / 2 + s1 * r) = - 0.9 * (s1 * r)) by lra.
  assert (Dx2 : x p2 - (width / 2 + c2 * r) = 0.9 * r * (0.1 * c1 - c2)) by lra.
  assert (Dy2 : y p2 - (height / 2 + s2 * r) = 0.9 * r * (0.1 * s1 - s2)) by lra.
  rewrite Dx1, Dy1, Dx2, Dy2. split.
  - replace ((- 0.9 * (c1 * r)) ^ 2 + (- 0.9 * (s1 * r)) ^ 2)
      with (0.81 * (r * r) * (s1 * s1 + c1 * c1)) by lra.
    rewrite H1. lra.
  - replace ((0.9 * r * (0.1 * c1 - c2)) ^ 2 + (0.9 * r * (0.1 * s1 - s2)) ^ 2)
      with (0.81 * (r * r) *
            (0.01 * (s1 * s1 + c1 * c1) + (s2 * s2 + c2 * c2)
             - 0.2 * (c1 * c2 + s1 * s2))) by lra.
    rewrite H1, H2, <- H12. f_equal. lra.
Qed.

Lemma cos_lt_1_small (w : R) : 0 < w <= 1 -> cos w < 1.
Proof.
  intros [Hlo Hhi]. rewrite <- cos_0.
  pose proof PI2_1 as Hpi.
  apply cos_decreasing_1; lra.
Qed.

(** C7, as the specification states it, fails: the distance to the
    target point does not shrink by the factor 0.9 from one tick to the
    next.  A particle built at the centre of an 800 x 600 canvas (all
    draws 1/4: radius 50, angular speed 0.0325) is updated twice with
    [chaos = 0] and [scale = 1]; within the first call the distance to the
    target is multiplied by 0.9, but the distance to the target after the
    second call is not 0.9 times the distance after the first, because the
    target has moved on by the angular speed. *)
Lemma calm_distance_ratio_not_kept :
  let draws := fun _ : nat => / 4 in
  let p0 := fst (new_Particle 800 600 draws 0%nat) in
  let p1 := fst (update 800 600 0 1 p0 draws 7%nat) in
  let p2 := fst (update 800 600 0 1 p1 draws 9%nat) in
  let d0 := dist (position p0) (orbit_target 800 600 1 p1) in
  let d1 := dist (position p1) (orbit_target 800 600 1 p1) in
  let d2 := dist (position p2) (orbit_target 800 600 1 p2) in
  d1 = 0.9 * d0 /\ d2 <> 0.9 * d1.
Proof.
  cbv zeta.
  set (draws := fun _ : nat => / 4).
  set (p0 := fst (new_Particle 800 600 draws 0%nat)).
  split; [apply update_calm_contract|].
  destruct (two_calm_updates_from_center 800 600 1 p0 draws 7%nat 9%nat
              (new_Particle_position 800 600 draws 0%nat)) as [E1 E2].
  cbv zeta in E1, E2.
  set (p1 := fst (update 800 600 0 1 p0 draws 7%nat)) in *.
  set (p2 := fst (update 800 600 0 1 p1 draws 9%nat)) in *.
  assert (Hang : angle p2 - angle p1 = 0.0325).
  { cbn. destruct (Rlt_dec (draws 4%nat) 0.5) as [_ | Hn].
    - unfold draws. lra.
    - unfold draws in Hn. lra. }
  assert (Hr : targetRadius p0 1 = 80).
  { unfold targetRadius. cbn. unfold draws, Math_min, Rmin.
    destruct (Rle_dec 800 600); lra. }
  replace (angle p1 - angle p2) with (- (angle p2 - angle p1)) in E2 by ring.
  rewrite cos_neg, Hang, Hr in E2. rewrite Hr in E1.
  assert (Hcos : cos 0.0325 < 1) by (apply cos_lt_1_small; lra).
  set (d1 := dist (position p1) (orbit_target 800 600 1 p1)) in *.
  set (d2 := dist (position p2) (orbit_target 800 600 1 p2)) in *.
  intros H. rewrite H in E2. nra.
Qed.

(** *** Bounded excursion *)

Lemma Rabs_le_between (a b : R) : Rabs a <= b -> - b <= a <= b.
Proof. unfold Rabs. destruct (Rcase_abs a); lra. Qed.

Lemma swing_bound (t r : R) : -1 <= t <= 1 -> 0 <= r -> - r <= t * r <= r.
Proof. intros Ht Hr. split; nra. Qed.

Lemma jitter_bound (d chaos : R) :
  0 <= d < 1 -> 0 <= chaos <= 1 ->
  - 2.5 <= (d - 0.5) * jitter chaos <= 2.5.
Proof. intros Hd Hc. unfold jitter. split; nra. Qed.

Lemma targetRadius_bound p scale :
  0 <= radius p -> 0 <= scale <= 1 ->
  0 <= targetRadius p scale <= 1.6 * radius p.
Proof. intros Hr Hs. unfold targetRadius. split; nra. Qed.

Lemma forEach_particle_Forall (P : Particle -> Prop)
      width height chaos scale draws :
  (forall p i,
      P p -> P (fst (update width height chaos scale p draws i))) ->
  forall ps i,
    Forall P ps ->
    Forall P (fst (fst (forEach_particle width height chaos scale ps draws i))).
Proof.
  intros Hstep ps. induction ps as [|q rest IH]; intros i Hall.
  - constructor.
  - rewrite forEach_particle_cons. inversion Hall; subst.
    constructor; [now apply Hstep | now apply IH].
Qed.

Lemma frames_Forall (P : Particle -> Prop) n width height params draws :
  (forall p i,
      P p ->
      P (fst (update width height (chaos params) (scale params) p draws i))) ->
  forall ps i,
    Forall P ps -> Forall P (fst (frames n width height params ps draws i)).
Proof.
  intros Hstep. induction n as [|n IH]; intros ps i Hall.
  - exact Hall.
  - cbn [frames]. rewrite bind_fst. apply IH.
    rewrite render_particles. now apply forEach_particle_Forall.
Qed.

Lemma handle_resize_window canvas t :
  handle_resize canvas t = (innerWidth t, innerHeight t).
Proof.
  unfold handle_resize. destruct canvas as [w h]. cbn [fst snd].
  destruct (Req_dec_T w (innerWidth t)) as [->|]; [|reflexivity].
  destruct (Req_dec_T h (innerHeight t)) as [->|]; reflexivity.
Qed.

Lemma near_window_new W H canvas draws i :
  0 <= fst canvas <= W -> 0 <= snd canvas <= H -> unit_draws draws ->
  near_window W H canvas (fst (new_Particle (fst canvas) (snd canvas) draws i)).
Proof.
  intros Hw Hh Hd. unfold near_window.
  rewrite new_Particle_radius.
  change (x (fst (new_Particle (fst canvas) (snd canvas) draws i)))
    with (fst canvas / 2).
  change (y (fst (new_Particle (fst canvas) (snd canvas) draws i)))
    with (snd canvas / 2).
  destruct (Hd (S (S i))) as [Hlo Hhi].
  assert (0 <= Rmin (fst canvas) (snd canvas)) by (apply Rmin_glb; lra).
  assert (0 <= draws (S (S i)) * (Rmin (fst canvas) (snd canvas) / 3)) by nra.
  split; [split; nra|]. split; lra.
Qed.

Lemma near_window_update W H canvas t p draws i :
  fits W H t -> unit_draws draws ->
  near_window W H canvas p ->
  near_window W H canvas
    (fst (update (innerWidth t) (innerHeight t)
                 (chaos (current t)) (scale (current t)) p draws i)).
Proof.
  intros (Hw & Hh & Hc & Hs) Hd ([Hr0 Hr1] & Hx & Hy). unfold near_window.
  destruct (update_offsets (innerWidth t) (innerHeight t)
              (chaos (current t)) (scale (current t)) p draws i) as [Ex Ey].
  cbv zeta in Ex, Ey. rewrite update_radius.
  set (p' := fst (update (innerWidth t) (innerHeight t)
                         (chaos (current t)) (scale (current t)) p draws i))
    in *.
  destruct (targetRadius_bound p (scale (current t)) Hr0 Hs) as [Ht0 Ht1].
  pose proof (swing_bound _ _ (COS_bound (angle p')) Ht0) as Hcos.
  pose proof (swing_bound _ _ (SIN_bound (angle p')) Ht0) as Hsin.
  pose proof (jitter_bound _ _ (Hd i) Hc) as Hjx.
  pose proof (jitter_bound _ _ (Hd (S i)) Hc) as Hjy.
  split; [split; assumption|]. split; lra.
Qed.

Lemma animate_Forall (P : Particle -> Prop) (Q : Tick -> Prop) draws :
  (forall t p i,
      Q t -> P p ->
      P (fst (update (innerWidth t) (innerHeight t)
                     (chaos (current t)) (scale (current t)) p draws i))) ->
  forall ticks, Forall Q ticks ->
  forall canvas ps i,
    Forall P ps -> Forall P (fst (animate canvas ticks ps draws i)).
Proof.
  intros Hstep ticks Hticks.
  induction Hticks as [|t ticks Ht _ IH]; intros canvas ps i Hall.
  - exact Hall.
  - cbn [animate]. rewrite bind_fst. apply IH.
    rewrite render_particles, handle_resize_window. cbn [fst snd].
    apply forEach_particle_Forall; [|exact Hall].
    intros p j Hp. now apply Hstep.
Qed.

Lemma Array_from_near_window W H canvas n draws :
  0 <= fst canvas <= W -> 0 <= snd canvas <= H -> unit_draws draws ->
  forall i, Forall (near_window W H canvas)
                   (fst (Array_from n (fst canvas) (snd canvas) draws i)).
Proof.
  intros Hw Hh Hd. induction n as [|n IH]; intros i; [constructor|].
  cbn [Array_from]. rewrite bind_fst, bind_fst. cbn [ret fst].
  constructor; [now apply near_window_new | apply IH].
Qed.

(** The pool is built on the extent the canvas has when it mounts and then
    moved by frames that each render on the extent the window has at that
    frame.  When the mount extent and every window extent are at most [W]
    by [H] and [chaos] and [scale] lie in [0, 1] in every frame, every
    particle keeps a radius of at most a third of the smaller mount extent
    and stays, in each coordinate, no further than [1.6 * radius + 25]
    outside the range from 0 to the centre of the largest window. *)
Theorem pool_stays_bounded W H canvas ticks draws i :
  0 <= fst canvas <= W -> 0 <= snd canvas <= H ->
  Forall (fits W H) ticks ->
  unit_draws draws ->
  Forall (fun p =>
            0 <= radius p <= Rmin (fst canvas) (snd canvas) / 3 /\
            - (1.6 * radius p + 25) <= x p <= W / 2 + (1.6 * radius p + 25) /\
            - (1.6 * radius p + 25) <= y p <= H / 2 + (1.6 * radius p + 25))
         (fst (mount canvas ticks draws i)).
Proof.
  intros Hw Hh Hticks Hd. unfold mount. rewrite bind_fst.
  apply (animate_Forall (near_window W H canvas) (fits W H) draws).
  - intros t p j Ht Hp. now apply near_window_update.
  - exact Hticks.
  - unfold init_particles. now apply Array_from_near_window.
Qed.

Lemma pool_stays_bounded_witness :
  let calm := {| chaos := 0; scale := 0.5; active := false |} in
  let wild := {| chaos := 1; scale := 1; active := true |} in
  let ticks :=
    [ {| innerWidth := 800; innerHeight := 600; current := calm |};
      {| innerWidth := 800; innerHeight := 600; current := wild |};
      {| innerWidth := 1024; innerHeight := 768; current := wild |} ] in
  Forall (fun p =>
            0 <= radius p <= Rmin 300 150 / 3 /\
            - (1.6 * radius p + 25) <= x p <= 1024 / 2 + (1.6 * radius p + 25) /\
            - (1.6 * radius p + 25) <= y p <= 768 / 2 + (1.6 * radius p + 25))
         (fst (mount (300, 150) ticks (fun _ => / 2) 0%nat)).
Proof.
  cbv zeta.
  apply (pool_stays_bounded 1024 768 (300, 150)
           [ {| innerWidth := 800; innerHeight := 600;
                current := {| chaos := 0; scale := 0.5; active := false |} |};
             {| innerWidth := 800; innerHeight := 600;
                current := {| chaos := 1; scale := 1; active := true |} |};
             {| innerWidth := 1024; innerHeight := 768;
                current := {| chaos := 1; scale := 1; active := true |} |} ]
           (fun _ => / 2) 0%nat).
  - cbn. lra.
  - cbn. lra.
  - unfold fits; repeat (apply Forall_cons || apply Forall_nil); cbn; lra.
  - intros j. lra.
Defined.

(** *** Jitter *)

(** The jitter magnitude is linear in [chaos], 0 at [chaos = 0] and 5 at
    [chaos = 1]; a call of [update] moves the particle a tenth of the way
    to its target point and then adds, to each coordinate, an offset within
    half the jitter magnitude. *)
Theorem update_jitter_range width height chaos scale p draws i :
  unit_draws draws -> 0 <= chaos ->
  jitter 0 = 0 /\ jitter 1 = 5 /\ jitter chaos = chaos * jitter 1 /\
  let p' := fst (update width height chaos scale p draws i) in
  let T := orbit_target width height scale p' in
  exists ox oy,
    x p' = x p + (fst T - x p) * 0.1 + ox /\
    y p' = y p + (snd T - y p) * 0.1 + oy /\
    - (jitter chaos / 2) <= ox <= jitter chaos / 2 /\
    - (jitter chaos / 2) <= oy <= jitter chaos / 2.
Proof.
  intros Hd Hc. unfold jitter at 1 2 3 4.
  split; [lra|]. split; [lra|]. split; [lra|]. cbv zeta.
  exists ((draws i - 0.5) * jitter chaos),
         ((draws (S i) - 0.5) * jitter chaos).
  split; [reflexivity|]. split; [reflexivity|].
  pose proof (Hd i) as Hi. pose proof (Hd (S i)) as HSi.
  unfold jitter. split; split; nra.
Qed.

Lemma update_jitter_range_witness :
  let draws := fun _ : nat => / 4 in
  let p0 := fst (new_Particle 800 600 draws 0%nat) in
  jitter 0 = 0 /\ jitter 1 = 5 /\ jitter 0.4 = 0.4 * jitter 1 /\
  let p' := fst (update 800 600 0.4 1 p0 draws 7%nat) in
  let T := orbit_target 800 600 1 p' in
  exists ox oy,
    x p' = x p0 + (fst T - x p0) * 0.1 + ox /\
    y p' = y p0 + (snd T - y p0) * 0.1 + oy /\
    - (jitter 0.4 / 2) <= ox <= jitter 0.4 / 2 /\
    - (jitter 0.4 / 2) <= oy <= jitter 0.4 / 2.
Proof.
  cbv zeta.
  apply (update_jitter_range 800 600 0.4 1
           (fst (new_Particle 800 600 (fun _ => / 4) 0%nat))
           (fun _ => / 4) 7%nat).
  - intros j. lra.
  - lra.
Defined.

End OrbitFacts.

(** * Properties of the gesture interpreter *)

Module GestureFacts.

Import Js GestureController App.

Lemma distance_coincide thumb indexFinger :
  x thumb = x indexFinger -> y thumb = y indexFinger ->
  distance thumb indexFinger = 0.
Proof.
  intros Hx Hy. unfold distance, Math_sqrt, Math_pow. rewrite Hx, Hy.
  replace ((x indexFinger - x indexFinger) ^ 2 +
           (y indexFinger - y indexFinger) ^ 2) with 0 by ring.
  apply sqrt_0.
Qed.

Lemma distance_horizontal a b : a <= b ->
  distance (point a 0) (point b 0) = b - a.
Proof.
  intros Hab. unfold distance, Math_sqrt, Math_pow, point. cbn [x y].
  replace ((a - b) ^ 2 + (0 - 0) ^ 2) with ((b - a) ^ 2) by ring.
  apply sqrt_pow2. lra.
Qed.

Lemma normalizedValue_range d :
  0 <= normalizedValue d <= 1.
Proof.
  unfold normalizedValue, Math_min, Math_max, Rmin, Rmax.
  destruct (Rle_dec (d * 5) 0); destruct (Rle_dec _ 1); lra.
Qed.

Lemma normalizedValue_inside d :
  0 <= d <= 0.2 -> normalizedValue d = d * 5.
Proof.
  intros Hd. unfold normalizedValue, Math_min, Math_max, Rmin, Rmax.
  destruct (Rle_dec (d * 5) 0); destruct (Rle_dec _ 1); lra.
Qed.

Lemma normalizedValue_open d :
  0.2 <= d -> normalizedValue d = 1.
Proof.
  intros Hd. unfold normalizedValue, Math_min, Math_max, Rmin, Rmax.
  destruct (Rle_dec (d * 5) 0); destruct (Rle_dec _ 1); lra.
Qed.

Lemma hand_callback_step result locals hand index
      category others thumb indexFinger :
  nth_error (handednesses result) index = Some (category :: others) ->
  nth_error hand 4 = Some thumb ->
  nth_error hand 8 = Some indexFinger ->
  hand_callback result locals hand index
  = let v := normalizedValue (distance thumb indexFinger) in
    Returns (if String.eqb (categoryName category) "Left"
             then (v, snd locals) else (fst locals, v)).
Proof.
  intros Hh Ht Hi. destruct locals as [c0 s0].
  unfold hand_callback, at_index. rewrite Hh. cbn [obind].
  change (nth_error (category :: others) 0) with (Some category).
  cbn [obind]. rewrite Ht, Hi. cbn [obind fst snd].
  destruct (String.eqb (categoryName category) "Left"); reflexivity.
Qed.

(** C6. For every hand observation that the frame's loop processes, the
    value written to [chaos] (label "Left") or to [scale] (any other label)
    is [min(max(d * 5, 0), 1)], where [d] is the Euclidean distance between
    the thumb tip (landmark 4) and the index fingertip (landmark 8) in
    normalized coordinates: it is 0 when the two tips coincide and 1 as
    soon as [d] is at least 0.2. *)
Theorem openness_of_pinch result locals hand index category others
        thumb indexFinger :
  nth_error (handednesses result) index = Some (category :: others) ->
  nth_error hand 4 = Some thumb ->
  nth_error hand 8 = Some indexFinger ->
  let d := sqrt ((x thumb - x indexFinger) ^ 2 +
                 (y thumb - y indexFinger) ^ 2) in
  let openness := Rmin (Rmax (d * 5) 0) 1 in
  hand_callback result locals hand index
  = Returns (if String.eqb (categoryName category) "Left"
             then (openness, snd locals) else (fst locals, openness)) /\
  (x thumb = x indexFinger -> y thumb = y indexFinger -> openness = 0) /\
  (0.2 <= d -> openness = 1).
Proof.
  intros Hh Ht Hi. cbv zeta.
  split; [exact (hand_callback_step result locals hand index category others
                   thumb indexFinger Hh Ht Hi)|].
  change (sqrt ((x thumb - x indexFinger) ^ 2 + (y thumb - y indexFinger) ^ 2))
    with (distance thumb indexFinger).
  change (Rmin (Rmax (distance thumb indexFinger * 5) 0) 1)
    with (normalizedValue (distance thumb indexFinger)).
  split.
  - intros Hx Hy. rewrite (distance_coincide _ _ Hx Hy).
    rewrite normalizedValue_inside; lra.
  - apply normalizedValue_open.
Qed.

Lemma openness_of_pinch_witness :
  let pinched := hand_with (point 0.3 0.4) (point 0.3 0.4) in
  let open := hand_with (point 0 0) (point 0.25 0) in
  let result :=
    {| landmarks := Some [pinched; open];
       handednesses := [[ {| categoryName := "Left" |} ];
                        [ {| categoryName := "Right" |} ]] |} in
  hand_callback result (0.7, 0.7) pinched 0 = Returns (0, 0.7) /\
  hand_callback result (0.7, 0.7) open 1 = Returns (0.7, 1).
Proof.
  cbv zeta.
  pose proof (openness_of_pinch
                {| landmarks := Some [hand_with (point 0.3 0.4) (point 0.3 0.4);
                                      hand_with (point 0 0) (point 0.25 0)];
                   handednesses := [[ {| categoryName := "Left" |} ];
                                    [ {| categoryName := "Right" |} ]] |}
                (0.7, 0.7) (hand_with (point 0.3 0.4) (point 0.3 0.4)) 0
                {| categoryName := "Left" |} []
                (point 0.3 0.4) (point 0.3 0.4)
                eq_refl eq_refl eq_refl) as (Hrun1 & Hzero & _).
  pose proof (openness_of_pinch
                {| landmarks := Some [hand_with (point 0.3 0.4) (point 0.3 0.4);
                                      hand_with (point 0 0) (point 0.25 0)];
                   handednesses := [[ {| categoryName := "Left" |} ];
                                    [ {| categoryName := "Right" |} ]] |}
                (0.7, 0.7) (hand_with (point 0 0) (point 0.25 0)) 1
                {| categoryName := "Right" |} []
                (point 0 0) (point 0.25 0)
                eq_refl eq_refl eq_refl) as (Hrun2 & _ & Hone).
  cbv zeta in Hrun1, Hzero, Hrun2, Hone.
  rewrite Hrun1, Hrun2. cbn [categoryName String.eqb Ascii.eqb Bool.eqb fst snd].
  rewrite (Hzero eq_refl eq_refl).
  rewrite Hone.
  - split; reflexivity.
  - change (sqrt ((x (point 0 0) - x (point 0.25 0)) ^ 2 +
                  (y (point 0 0) - y (point 0.25 0)) ^ 2))
      with (distance (point 0 0) (point 0.25 0)).
    rewrite distance_horizontal; lra.
Defined.

(** *** What a detection frame writes *)

Lemma interpret_none result :
  landmarks result = None \/ landmarks result = Some [] ->
  interpret result
  = Returns {| chaos_opt := Some 0; scale_opt := Some 0.5;
               active_opt := Some false |}.
Proof. unfold interpret. intros [-> | ->]; reflexivity. Qed.

Lemma interpret_single result hand category others thumb indexFinger :
  landmarks result = Some [hand] ->
  nth_error (handednesses result) 0 = Some (category :: others) ->
  nth_error hand 4 = Some thumb ->
  nth_error hand 8 = Some indexFinger ->
  interpret result
  = let v := normalizedValue (distance thumb indexFinger) in
    Returns
      (if String.eqb (categoryName category) "Left"
       then {| chaos_opt := Some v; scale_opt := Some 0.5;
               active_opt := Some true |}
       else {| chaos_opt := Some 0; scale_opt := Some v;
               active_opt := Some true |}).
Proof.
  intros Hl Hh Ht Hi. unfold interpret. rewrite Hl.
  cbn [forEach_hand]. unfold hand_callback, at_index.
  rewrite Hh. cbn [obind].
  change (nth_error (category :: others) 0) with (Some category).
  cbn [obind]. rewrite Ht, Hi. cbn [obind].
  destruct (String.eqb (categoryName category) "Left"); reflexivity.
Qed.

Lemma gesture_frame_detects paramsRef handLandmarker video startTimeMs :
  0 < videoWidth video ->
  gesture_frame paramsRef (Some handLandmarker) (Some video) startTimeMs
  = obind (interpret (detectForVideo handLandmarker video startTimeMs))
          (fun newParams =>
             Returns (handleParamsUpdate paramsRef newParams)).
Proof.
  intros Hw. unfold gesture_frame, predictWebcam.
  destruct (Rlt_dec 0 (videoWidth video)) as [_ | Hn]; [|contradiction].
  destruct (interpret _); reflexivity.
Qed.

Lemma gesture_frame_none paramsRef handLandmarker video startTimeMs :
  0 < videoWidth video ->
  (let result := detectForVideo handLandmarker video startTimeMs in
   landmarks result = None \/ landmarks result = Some []) ->
  gesture_frame paramsRef (Some handLandmarker) (Some video) startTimeMs
  = Returns {| chaos := 0; scale := 0.5; active := false |}.
Proof.
  intros Hw Hz. rewrite gesture_frame_detects by exact Hw.
  now rewrite interpret_none.
Qed.

Lemma gesture_frame_single paramsRef handLandmarker video startTimeMs
      hand category others thumb indexFinger :
  0 < videoWidth video ->
  (let result := detectForVideo handLandmarker video startTimeMs in
   landmarks result = Some [hand] /\
   nth_error (handednesses result) 0 = Some (category :: others)) ->
  nth_error hand 4 = Some thumb ->
  nth_error hand 8 = Some indexFinger ->
  gesture_frame paramsRef (Some handLandmarker) (Some video) startTimeMs
  = let v := normalizedValue (distance thumb indexFinger) in
    Returns
      (if String.eqb (categoryName category) "Left"
       then {| chaos := v; scale := 0.5; active := true |}
       else {| chaos := 0; scale := v; active := true |}).
Proof.
  intros Hw [Hl Hh] Ht Hi. rewrite gesture_frame_detects by exact Hw.
  rewrite (interpret_single _ _ _ _ _ _ Hl Hh Ht Hi). cbv zeta.
  destruct (String.eqb (categoryName category) "Left"); reflexivity.
Qed.

Lemma live_video_has_data : 0 < videoWidth live_video.
Proof. cbn. lra. Qed.

(** The frames of the scenarios below. *)
Lemma frame_left_hand paramsRef (d : R) startTimeMs :
  0 <= d <= 0.2 ->
  gesture_frame paramsRef
    (Some (detector_of (one_hand "Left" (point 0 0) (point d 0))))
    (Some live_video) startTimeMs
  = Returns {| chaos := d * 5; scale := 0.5; active := true |}.
Proof.
  intros Hd.
  rewrite (gesture_frame_single paramsRef _ _ _
             (hand_with (point 0 0) (point d 0))
             {| categoryName := "Left" |} [] (point 0 0) (point d 0)
             live_video_has_data);
    [| split; reflexivity | reflexivity | reflexivity].
  cbn [categoryName String.eqb Ascii.eqb Bool.eqb].
  rewrite distance_horizontal by lra.
  rewrite normalizedValue_inside by lra.
  cbv zeta. f_equal. f_equal. lra.
Qed.

Lemma frame_right_hand paramsRef (d : R) startTimeMs :
  0 <= d <= 0.2 ->
  gesture_frame paramsRef
    (Some (detector_of (one_hand "Right" (point 0 0) (point d 0))))
    (Some live_video) startTimeMs
  = Returns {| chaos := 0; scale := d * 5; active := true |}.
Proof.
  intros Hd.
  rewrite (gesture_frame_single paramsRef _ _ _
             (hand_with (point 0 0) (point d 0))
             {| categoryName := "Right" |} [] (point 0 0) (point d 0)
             live_video_has_data);
    [| split; reflexivity | reflexivity | reflexivity].
  cbn [categoryName String.eqb Ascii.eqb Bool.eqb].
  rewrite distance_horizontal by lra.
  rewrite normalizedValue_inside by lra.
  cbv zeta. f_equal. f_equal. lra.
Qed.

Lemma frame_no_hands paramsRef startTimeMs :
  gesture_frame paramsRef (Some (detector_of no_hands)) (Some live_video)
                startTimeMs
  = Returns {| chaos := 0; scale := 0.5; active := false |}.
Proof.
  apply gesture_frame_none; [apply live_video_has_data | now right].
Qed.

(** *** Frames without a hand *)

(** C1, as the specification states it, fails: after a frame in which a
    left hand set [chaos] to 0.5, a frame without observations writes
    [chaos = 0], not the previous 0.5. *)
Lemma zero_hands_frame_forgets_chaos :
  exists prev out,
    gesture_frame INITIAL_PARAMS
      (Some (detector_of (one_hand "Left" (point 0 0) (point 0.1 0))))
      (Some live_video) 0 = Returns prev /\
    gesture_frame prev (Some (detector_of no_hands)) (Some live_video) 16
      = Returns out /\
    chaos prev = 0.5 /\ chaos out = 0 /\
    ~ (active out = false /\
       chaos out = chaos prev /\ scale out = scale prev).
Proof.
  eexists. eexists.
  split; [apply frame_left_hand; lra|].
  split; [apply frame_no_hands|].
  cbn [chaos scale active].
  split; [lra|]. split; [lra|].
  intros [_ [H _]]. lra.
Qed.

(** C1, amended. In every frame in which detection runs and reports no
    hand, [predictWebcam] passes [chaos = 0], [scale = 0.5] and
    [active = false] to [onParamsUpdate], so that the control signal after
    the frame holds these defaults whatever the previous frame left. *)
Theorem zero_hands_frame_defaults
        paramsRef handLandmarker video startTimeMs :
  0 < videoWidth video ->
  (let result := detectForVideo handLandmarker video startTimeMs in
   landmarks result = None \/ landmarks result = Some []) ->
  predictWebcam (Some handLandmarker) (Some video) startTimeMs
  = Returns {| onParamsUpdate :=
                 Some {| chaos_opt := Some 0; scale_opt := Some 0.5;
                         active_opt := Some false |};
               requestedAnimationFrame := true |} /\
  gesture_frame paramsRef (Some handLandmarker) (Some video) startTimeMs
  = Returns {| chaos := 0; scale := 0.5; active := false |}.
Proof.
  intros Hw Hz. split; [|now apply gesture_frame_none].
  unfold predictWebcam.
  destruct (Rlt_dec 0 (videoWidth video)) as [_ | Hn]; [|contradiction].
  now rewrite interpret_none.
Qed.

Lemma zero_hands_frame_defaults_witness :
  predictWebcam (Some (detector_of no_hands)) (Some live_video) 16
  = Returns {| onParamsUpdate :=
                 Some {| chaos_opt := Some 0; scale_opt := Some 0.5;
                         active_opt := Some false |};
               requestedAnimationFrame := true |} /\
  gesture_frame {| chaos := 0.9; scale := 0.2; active := true |}
                (Some (detector_of no_hands)) (Some live_video) 16
  = Returns {| chaos := 0; scale := 0.5; active := false |}.
Proof.
  apply (zero_hands_frame_defaults
           {| chaos := 0.9; scale := 0.2; active := true |}
           (detector_of no_hands) live_video 16).
  - cbn. lra.
  - right. reflexivity.
Defined.

(** *** Frames with one hand *)

(** C2, as the specification states it, fails: after a frame in which a
    right hand set [scale] to 1, a frame with a single left hand writes
    [scale = 0.5], not the previous 1. *)
Lemma single_left_hand_forgets_scale :
  exists prev out,
    gesture_frame INITIAL_PARAMS
      (Some (detector_of (one_hand "Right" (point 0 0) (point 0.2 0))))
      (Some live_video) 0 = Returns prev /\
    gesture_frame prev
      (Some (detector_of (one_hand "Left" (point 0 0) (point 0.1 0))))
      (Some live_video) 16 = Returns out /\
    scale prev = 1 /\ scale out = 0.5 /\
    ~ (chaos out = Rmin (Rmax (0.1 * 5) 0) 1 /\ scale out = scale prev).
Proof.
  eexists. eexists.
  split; [apply frame_right_hand; lra|].
  split; [apply frame_left_hand; lra|].
  cbn [chaos scale active].
  split; [lra|]. split; [lra|].
  intros [_ H]. lra.
Qed.

(** C2, amended. In a frame with exactly one hand whose thumb tip and
    index fingertip are [d] apart: a hand labelled "Left" gives
    [chaos = min(max(d * 5, 0), 1)] and the default [scale = 0.5]; a hand
    with any other label ("Right") gives [scale = min(max(d * 5, 0), 1)]
    and the default [chaos = 0]; [active] is true.  The previous frame's
    values do not enter. *)
Theorem single_hand_frame_defaults
        paramsRef handLandmarker video startTimeMs
        hand category others thumb indexFinger :
  0 < videoWidth video ->
  (let result := detectForVideo handLandmarker video startTimeMs in
   landmarks result = Some [hand] /\
   nth_error (handednesses result) 0 = Some (category :: others)) ->
  nth_error hand 4 = Some thumb ->
  nth_error hand 8 = Some indexFinger ->
  let d := distance thumb indexFinger in
  gesture_frame paramsRef (Some handLandmarker) (Some video) startTimeMs
  = Returns
      (if String.eqb (categoryName category) "Left"
       then {| chaos := Rmin (Rmax (d * 5) 0) 1; scale := 0.5;
               active := true |}
       else {| chaos := 0; scale := Rmin (Rmax (d * 5) 0) 1;
               active := true |}).
Proof.
  intros Hw Hr Ht Hi.
  exact (gesture_frame_single paramsRef handLandmarker video startTimeMs
           hand category others thumb indexFinger Hw Hr Ht Hi).
Qed.

Lemma single_hand_frame_defaults_witness :
  let d := distance (point 0 0) (point 0.1 0) in
  gesture_frame {| chaos := 0.9; scale := 0.2; active := true |}
    (Some (detector_of (one_hand "Left" (point 0 0) (point 0.1 0))))
    (Some live_video) 16
  = Returns {| chaos := Rmin (Rmax (d * 5) 0) 1; scale := 0.5;
               active := true |}.
Proof.
  cbv zeta.
  apply (single_hand_frame_defaults
           {| chaos := 0.9; scale := 0.2; active := true |}
           (detector_of (one_hand "Left" (point 0 0) (point 0.1 0)))
           live_video 16
           (hand_with (point 0 0) (point 0.1 0))
           {| categoryName := "Left" |} []
           (point 0 0) (point 0.1 0)).
  - cbn. lra.
  - split; reflexivity.
  - reflexivity.
  - reflexivity.
Defined.

(** *** Further properties of a detection frame *)

Lemma hand_callback_range result locals hand index locals' :
  0 <= fst locals <= 1 -> 0 <= snd locals <= 1 ->
  hand_callback result locals hand index = Returns locals' ->
  0 <= fst locals' <= 1 /\ 0 <= snd locals' <= 1.
Proof.
  intros Hc Hs. destruct locals as [c0 s0]. cbn [fst snd] in Hc, Hs.
  unfold hand_callback, at_index.
  destruct (nth_error (handednesses result) index) as [categories|];
    [|discriminate].
  cbn [obind]. destruct (nth_error categories 0) as [category|];
    [|discriminate].
  cbn [obind]. destruct (nth_error hand 4) as [thumb|]; [|discriminate].
  cbn [obind]. destruct (nth_error hand 8) as [indexFinger|]; [|discriminate].
  cbn [obind].
  pose proof (normalizedValue_range (distance thumb indexFinger)) as Hv.
  destruct (String.eqb (categoryName category) "Left");
    intros [= <-]; cbn [fst snd]; auto.
Qed.

Lemma forEach_hand_range result hands : forall index locals locals',
  0 <= fst locals <= 1 -> 0 <= snd locals <= 1 ->
  forEach_hand result hands index locals = Returns locals' ->
  0 <= fst locals' <= 1 /\ 0 <= snd locals' <= 1.
Proof.
  induction hands as [|hand rest IH]; intros index locals locals' Hc Hs.
  - intros [= <-]. auto.
  - cbn [forEach_hand].
    destruct (hand_callback result locals hand index) as [mid|] eqn:Hmid;
      [|discriminate].
    cbn [obind]. intros Hrest.
    destruct (hand_callback_range _ _ _ _ _ Hc Hs Hmid) as [Hc' Hs'].
    exact (IH _ _ _ Hc' Hs' Hrest).
Qed.

Lemma interpret_range result newParams :
  interpret result = Returns newParams ->
  exists c s a,
    newParams = {| chaos_opt := Some c; scale_opt := Some s;
                   active_opt := Some a |} /\
    0 <= c <= 1 /\ 0 <= s <= 1 /\
    (a = true <->
     exists hand rest, landmarks result = Some (hand :: rest)).
Proof.
  unfold interpret.
  destruct (landmarks result) as [[|hand rest]|].
  - intros [= <-]. exists 0, 0.5, false.
    split; [reflexivity|]. split; [lra|]. split; [lra|].
    split; [discriminate|]. intros (h & r & Hhr). discriminate.
  - destruct (forEach_hand result (hand :: rest) 0 (0, 0.5))
      as [[c s]|] eqn:Hrun; [|discriminate].
    cbn [obind]. intros [= <-].
    assert (H0 : 0 <= fst (0, 0.5) <= 1) by (cbn [fst]; lra).
    assert (H1 : 0 <= snd (0, 0.5) <= 1) by (cbn [snd]; lra).
    destruct (forEach_hand_range _ _ _ _ _ H0 H1 Hrun) as [Hc Hs].
    cbn [fst snd] in Hc, Hs.
    exists c, s, true.
    split; [reflexivity|]. split; [exact Hc|]. split; [exact Hs|].
    split; [|reflexivity]. intros _. now exists hand, rest.
  - intros [= <-]. exists 0, 0.5, false.
    split; [reflexivity|]. split; [lra|]. split; [lra|].
    split; [discriminate|]. intros (h & r & Hhr). discriminate.
Qed.

(** The control signal invariant: whatever the detector reports, a call of
    [predictWebcam] that passes a signal to [onParamsUpdate] passes all
    three keys, with [chaos] and [scale] within [0, 1], and [active] tells
    whether the detector reported at least one hand in that frame. *)
Theorem predictWebcam_emits_unit_range
        handLandmarkerRef videoRef startTimeMs effects newParams :
  predictWebcam handLandmarkerRef videoRef startTimeMs = Returns effects ->
  onParamsUpdate effects = Some newParams ->
  exists c s a handLandmarker video,
    handLandmarkerRef = Some handLandmarker /\ videoRef = Some video /\
    newParams = {| chaos_opt := Some c; scale_opt := Some s;
                   active_opt := Some a |} /\
    0 <= c <= 1 /\ 0 <= s <= 1 /\
    (a = true <->
     exists hand rest,
       landmarks (detectForVideo handLandmarker video startTimeMs)
       = Some (hand :: rest)).
Proof.
  unfold predictWebcam.
  destruct handLandmarkerRef as [handLandmarker|];
    [|intros [= <-]; discriminate].
  destruct videoRef as [video|]; [|intros [= <-]; discriminate].
  destruct (Rlt_dec 0 (videoWidth video)) as [_|_];
    [|intros [= <-]; discriminate].
  destruct (interpret (detectForVideo handLandmarker video startTimeMs))
    as [np|] eqn:Hint; [|discriminate].
  cbn [obind]. intros [= <-]. cbn [onParamsUpdate]. intros [= <-].
  destruct (interpret_range _ _ Hint) as (c & s & a & Hnp & Hc & Hs & Ha).
  exists c, s, a, handLandmarker, video. auto 8.
Qed.

Lemma predictWebcam_emits_unit_range_witness :
  let wide := one_hand "Left" (point 0 0) (point 0.5 0) in
  exists c s a handLandmarker video,
    Some (detector_of wide) = Some handLandmarker /\
    Some live_video = Some video /\
    {| chaos_opt := Some 1; scale_opt := Some 0.5; active_opt := Some true |}
    = {| chaos_opt := Some c; scale_opt := Some s; active_opt := Some a |} /\
    0 <= c <= 1 /\ 0 <= s <= 1 /\
    (a = true <->
     exists hand rest,
       landmarks (detectForVideo handLandmarker video 16)
       = Some (hand :: rest)).
Proof.
  cbv zeta.
  apply (predictWebcam_emits_unit_range
           (Some (detector_of (one_hand "Left" (point 0 0) (point 0.5 0))))
           (Some live_video) 16
           {| onParamsUpdate :=
                Some {| chaos_opt := Some 1; scale_opt := Some 0.5;
                        active_opt := Some true |};
              requestedAnimationFrame := true |}).
  - unfold predictWebcam.
    destruct (Rlt_dec 0 (videoWidth live_video)) as [_|Hn].
    + rewrite (interpret_single
                 (detectForVideo
                    (detector_of (one_hand "Left" (point 0 0) (point 0.5 0)))
                    live_video 16)
                 (hand_with (point 0 0) (point 0.5 0))
                 {| categoryName := "Left" |} [] (point 0 0) (point 0.5 0)
                 eq_refl eq_refl eq_refl eq_refl).
      cbv zeta. cbn [categoryName String.eqb Ascii.eqb Bool.eqb].
      rewrite distance_horizontal by lra.
      rewrite normalizedValue_open by lra. reflexivity.
    + exfalso. apply Hn. cbn. lra.
  - reflexivity.
Defined.

(** A frame with two hands: each hand writes the parameter its label
    selects, in the order of the detector's list, starting from the defaults
    [chaos = 0] and [scale = 0.5].  A "Left" and a "Right" hand set [chaos]
    and [scale] whatever their order; of two hands with the same label the
    later one wins and the other parameter keeps its default. *)
Theorem two_hands_frame result hand1 hand2
        category1 others1 category2 others2
        thumb1 indexFinger1 thumb2 indexFinger2 :
  landmarks result = Some [hand1; hand2] ->
  nth_error (handednesses result) 0 = Some (category1 :: others1) ->
  nth_error (handednesses result) 1 = Some (category2 :: others2) ->
  nth_error hand1 4 = Some thumb1 -> nth_error hand1 8 = Some indexFinger1 ->
  nth_error hand2 4 = Some thumb2 -> nth_error hand2 8 = Some indexFinger2 ->
  let v1 := normalizedValue (distance thumb1 indexFinger1) in
  let v2 := normalizedValue (distance thumb2 indexFinger2) in
  let left1 := String.eqb (categoryName category1) "Left" in
  let left2 := String.eqb (categoryName category2) "Left" in
  interpret result
  = Returns
      {| chaos_opt := Some (if left2 then v2 else if left1 then v1 else 0);
         scale_opt := Some (if left2 then (if left1 then 0.5 else v1) else v2);
         active_opt := Some true |}.
Proof.
  intros Hl H1 H2 Ht1 Hi1 Ht2 Hi2. cbv zeta.
  unfold interpret. rewrite Hl. cbn [forEach_hand].
  rewrite (hand_callback_step _ _ _ _ _ _ _ _ H1 Ht1 Hi1). cbv zeta.
  cbn [obind].
  rewrite (hand_callback_step _ _ _ _ _ _ _ _ H2 Ht2 Hi2). cbv zeta.
  cbn [obind].
  destruct (String.eqb (categoryName category1) "Left");
    destruct (String.eqb (categoryName category2) "Left"); reflexivity.
Qed.

Lemma two_hands_frame_witness :
  let thumb := point 0 0 in
  let wide := point 0.2 0 in
  let narrow := point 0.1 0 in
  interpret {| landmarks := Some [hand_with thumb wide; hand_with thumb narrow];
               handednesses := [[ {| categoryName := "Right" |} ];
                                [ {| categoryName := "Left" |} ]] |}
  = Returns
      {| chaos_opt := Some (normalizedValue (distance thumb narrow));
         scale_opt := Some (normalizedValue (distance thumb wide));
         active_opt := Some true |}.
Proof.
  cbv zeta.
  apply (two_hands_frame
           {| landmarks := Some [hand_with (point 0 0) (point 0.2 0);
                                 hand_with (point 0 0) (point 0.1 0)];
              handednesses := [[ {| categoryName := "Right" |} ];
                               [ {| categoryName := "Left" |} ]] |}
           (hand_with (point 0 0) (point 0.2 0))
           (hand_with (point 0 0) (point 0.1 0))
           {| categoryName := "Right" |} []
           {| categoryName := "Left" |} []
           (point 0 0) (point 0.2 0) (point 0 0) (point 0.1 0));
    reflexivity.
Defined.

(** Frames in which detection does not run emit nothing, so that the
    control signal keeps the previous frame's values: without a landmarker
    or a video element the loop also stops; without video data it goes on. *)
Theorem idle_frame_keeps_signal paramsRef handLandmarkerRef videoRef
        startTimeMs :
  (handLandmarkerRef = None \/ videoRef = None \/
   exists video, videoRef = Some video /\ videoWidth video <= 0) ->
  gesture_frame paramsRef handLandmarkerRef videoRef startTimeMs
  = Returns paramsRef /\
  exists again,
    predictWebcam handLandmarkerRef videoRef startTimeMs
    = Returns {| onParamsUpdate := None; requestedAnimationFrame := again |}.
Proof.
  unfold gesture_frame, predictWebcam.
  intros [-> | [-> | (video & -> & Hw)]].
  - split; [reflexivity | now exists false].
  - destruct handLandmarkerRef; (split; [reflexivity | now exists false]).
  - destruct handLandmarkerRef as [handLandmarker|].
    + destruct (Rlt_dec 0 (videoWidth video)) as [Hpos|_]; [lra|].
      split; [reflexivity | now exists true].
    + split; [reflexivity | now exists false].
Qed.

Lemma idle_frame_keeps_signal_witness :
  gesture_frame {| chaos := 0.7; scale := 0.3; active := true |}
                (Some (detector_of no_hands))
                (Some {| videoWidth := 0 |}) 16
  = Returns {| chaos := 0.7; scale := 0.3; active := true |} /\
  exists again,
    predictWebcam (Some (detector_of no_hands)) (Some {| videoWidth := 0 |}) 16
    = Returns {| onParamsUpdate := None; requestedAnimationFrame := again |}.
Proof.
  apply (idle_frame_keeps_signal
           {| chaos := 0.7; scale := 0.3; active := true |}
           (Some (detector_of no_hands)) (Some {| videoWidth := 0 |}) 16).
  right. right. exists {| videoWidth := 0 |}. split; [reflexivity|].
  cbn. lra.
Defined.

Lemma hand_callback_malformed result locals hand index :
  nth_error hand 4 = None \/ nth_error hand 8 = None ->
  exists e, hand_callback result locals hand index = Throws e.
Proof.
  intros Hbad. destruct locals as [c0 s0]. unfold hand_callback, at_index.
  destruct (nth_error (handednesses result) index) as [categories|];
    cbn [obind]; [|eauto].
  destruct (nth_error categories 0) as [category|]; cbn [obind]; [|eauto].
  destruct (nth_error hand 4) as [thumb|]; cbn [obind]; [|eauto].
  destruct Hbad as [Hbad | Hbad]; [discriminate|].
  rewrite Hbad. cbn [obind]. eauto.
Qed.

Lemma forEach_hand_malformed result bad hands :
  In bad hands ->
  nth_error bad 4 = None \/ nth_error bad 8 = None ->
  forall index locals,
    exists e, forEach_hand result hands index locals = Throws e.
Proof.
  intros Hin Hbad. induction hands as [|hand rest IH]; [contradiction|].
  intros index locals. cbn [forEach_hand].
  destruct Hin as [-> | Hin].
  - destruct (hand_callback_malformed result locals bad index Hbad)
      as [e He].
    rewrite He. cbn [obind]. eauto.
  - destruct (hand_callback result locals hand index) as [locals'|e];
      cbn [obind]; [|eauto].
    apply (IH Hin).
Qed.

(** A frame in which any of the reported hands, at whatever place in the
    detector's list, lacks the thumb tip (index 4) or the index fingertip
    (index 8) makes [predictWebcam] throw: nothing is emitted and no further
    frame is requested. *)
Theorem malformed_hand_throws handLandmarker video startTimeMs hands bad :
  0 < videoWidth video ->
  landmarks (detectForVideo handLandmarker video startTimeMs) = Some hands ->
  In bad hands ->
  nth_error bad 4 = None \/ nth_error bad 8 = None ->
  exists e,
    predictWebcam (Some handLandmarker) (Some video) startTimeMs = Throws e.
Proof.
  intros Hw Hl Hin Hbad. unfold predictWebcam.
  destruct (Rlt_dec 0 (videoWidth video)) as [_|Hn]; [|contradiction].
  unfold interpret. rewrite Hl.
  destruct hands as [|hand rest]; [contradiction|].
  destruct (forEach_hand_malformed
              (detectForVideo handLandmarker video startTimeMs)
              bad (hand :: rest) Hin Hbad 0%nat (0, 0.5)) as [e He].
  rewrite He. cbn [obind]. eauto.
Qed.

Lemma malformed_hand_throws_witness :
  exists e,
    predictWebcam
      (Some (detector_of
               {| landmarks := Some [hand_with (point 0 0) (point 0.1 0);
                                     [origin; origin; origin]];
                  handednesses := [[ {| categoryName := "Left" |} ];
                                   [ {| categoryName := "Right" |} ]] |}))
      (Some live_video) 16 = Throws e.
Proof.
  apply (malformed_hand_throws
           (detector_of
              {| landmarks := Some [hand_with (point 0 0) (point 0.1 0);
                                    [origin; origin; origin]];
                 handednesses := [[ {| categoryName := "Left" |} ];
                                  [ {| categoryName := "Right" |} ]] |})
           live_video 16
           [hand_with (point 0 0) (point 0.1 0); [origin; origin; origin]]
           [origin; origin; origin]).
  - cbn. lra.
  - reflexivity.
  - right. left. reflexivity.
  - left. reflexivity.
Defined.

End GestureFacts.

(** * Properties of the analysis client *)

Module ServiceFacts.

Import Js geminiService.

Lemma try_block_request generateContent chaos scale userQuery :
  try_block generateContent chaos scale userQuery
  = obind (generateContent (request_of chaos scale userQuery))
          (fun response =>
             Returns (if truthy (text response)
                      then match text response with
                           | Some t => t
                           | None => connection_lost
                           end
                      else connection_lost)).
Proof. reflexivity. Qed.

(** C8. [generateCosmicAnalysis] settles with a string for every [chaos],
    [scale] and optional query and every behaviour of the model call; when
    the model call fails, the string is the fixed fallback
    "ANALYSIS FAILED: Cosmic interference detected." *)
Theorem generateCosmicAnalysis_never_throws
        (generateContent : Models) chaos scale userQuery :
  (exists s : string,
      settled (generateCosmicAnalysis generateContent chaos scale userQuery)
      = Returns s) /\
  (forall e,
      generateContent (request_of chaos scale userQuery) = Throws e ->
      settled (generateCosmicAnalysis generateContent chaos scale userQuery)
      = Returns "ANALYSIS FAILED: Cosmic interference detected."%string).
Proof.
  unfold generateCosmicAnalysis. rewrite try_block_request. split.
  - destruct (generateContent _) as [response | e]; cbn; eauto.
  - intros e ->. reflexivity.
Qed.

Lemma generateCosmicAnalysis_never_throws_witness :
  settled (generateCosmicAnalysis
             (fun _ => Throws (ServiceError "503 Service Unavailable"))
             0.5 0.5 (Some "Status report?"%string))
  = Returns "ANALYSIS FAILED: Cosmic interference detected."%string.
Proof.
  apply (proj2 (generateCosmicAnalysis_never_throws
                  (fun _ => Throws (ServiceError "503 Service Unavailable"))
                  0.5 0.5 (Some "Status report?"%string))
               (ServiceError "503 Service Unavailable")).
  reflexivity.
Defined.

End ServiceFacts.

(** * Properties of construction and rendering *)

Module RenderFacts.

Import Js GalaxyCanvas ParticleFacts.

Lemma Int_part_range (r : R) (n : Z) :
  0 <= r < IZR n -> (0 <= Int_part r < n)%Z.
Proof.
  intros [Hlo Hhi]. destruct (base_Int_part r) as [Hle Hgt]. split.
  - apply Z.lt_succ_r. apply lt_IZR. rewrite succ_IZR. lra.
  - apply lt_IZR. lra.
Qed.

Lemma colors_at_defined (k : Z) :
  (0 <= k < 4)%Z -> exists c, colors_at k = Some c /\ In c colors.
Proof.
  intros Hk.
  assert (k = 0 \/ k = 1 \/ k = 2 \/ k = 3)%Z as [-> | [-> | [-> | ->]]]
    by lia;
    cbn; eexists; split; try reflexivity; cbn; tauto.
Qed.

Lemma signed_speed_range (a : R) (b : bool) :
  0.02 <= a < 0.07 ->
  0.02 <= Rabs (a * (if b then 1 else -1)) < 0.07.
Proof.
  intros Ha. destruct b.
  - rewrite Rmult_1_r, Rabs_right; lra.
  - replace (a * -1) with (- a) by lra. rewrite Rabs_Ropp, Rabs_right; lra.
Qed.

(** What the constructor guarantees for a canvas of non-negative extent:
    every random field lies in its band, the particle turns (its angular
    speed is between 0.02 and 0.07 in magnitude, never 0), and its colour is
    one of the four of the palette, never [undefined]. *)
Theorem new_Particle_ranges width height draws i :
  0 <= width -> 0 <= height -> unit_draws draws ->
  let p := fst (new_Particle width height draws i) in
  0 <= z p < 2 /\ vx p = 0 /\ vy p = 0 /\
  0 <= angle p < 2 * PI /\
  0 <= radius p <= Rmin width height / 3 /\
  0.02 <= Rabs (angularSpeed p) < 0.07 /\
  0.5 <= size p < 2.5 /\
  exists c, color p = Some c /\ In c colors.
Proof.
  intros Hw Hh Hd. cbv zeta. cbn.
  pose proof (Hd i) as H0. pose proof (Hd (S i)) as H1.
  pose proof (Hd (S (S i))) as H2. pose proof (Hd (S (S (S i)))) as H3.
  pose proof (Hd (S (S (S (S (S i)))))) as H5.
  pose proof (Hd (S (S (S (S (S (S i))))))) as H6.
  pose proof PI_RGT_0 as Hpi.
  assert (0 <= Rmin width height) as Hm by (apply Rmin_glb; assumption).
  split; [lra|]. split; [reflexivity|]. split; [reflexivity|].
  split; [split; nra|]. split; [unfold Math_min; split; nra|].
  split.
  - destruct (Rlt_dec (draws (S (S (S (S i))))) 0.5).
    + apply (signed_speed_range _ true). lra.
    + apply (signed_speed_range _ false). lra.
  - split; [lra|]. apply colors_at_defined. unfold Math_floor.
    apply Int_part_range. lra.
Qed.

Lemma new_Particle_ranges_witness :
  let p := fst (new_Particle 800 600 (fun _ => / 4) 0%nat) in
  0 <= z p < 2 /\ vx p = 0 /\ vy p = 0 /\
  0 <= angle p < 2 * PI /\
  0 <= radius p <= Rmin 800 600 / 3 /\
  0.02 <= Rabs (angularSpeed p) < 0.07 /\
  0.5 <= size p < 2.5 /\
  exists c, color p = Some c /\ In c colors.
Proof.
  cbv zeta.
  apply (new_Particle_ranges 800 600 (fun _ => / 4) 0%nat);
    [lra | lra | intros j; lra].
Defined.

(** *** Drawing *)

Lemma forEach_particle_arcs_cons width height chaos scale p rest draws i :
  snd (fst (forEach_particle width height chaos scale (p :: rest) draws i))
  = fst (draw chaos (fst (update width height chaos scale p draws i))
              draws (S (S i)))
    :: snd (fst (forEach_particle width height chaos scale rest draws
                                  (S (S (S i))))).
Proof.
  cbn [forEach_particle]. rewrite !bind_fst. reflexivity.
Qed.

Lemma forEach_particle_cursor width height chaos scale ps : forall draws i,
  snd (forEach_particle width height chaos scale ps draws i)
  = (i + 3 * List.length ps)%nat.
Proof.
  induction ps as [|p rest IH]; intros draws i.
  - cbn. lia.
  - cbn [forEach_particle]. unfold bind at 1. cbn [update bind ret Math_random].
    unfold bind at 1. cbn [draw bind ret Math_random].
    unfold bind at 1.
    specialize (IH draws (S (S (S i)))).
    destruct (forEach_particle width height chaos scale rest draws
                               (S (S (S i)))) as [r j].
    cbn [ret snd] in *. rewrite IH. cbn [List.length]. lia.
Qed.

(** What an arc shows of a particle. *)
Lemma forEach_particle_paints width height chaos scale ps : forall draws i,
  let r := fst (forEach_particle width height chaos scale ps draws i) in
  List.length (fst r) = List.length ps /\
  map (fun a => (arc_x a, arc_y a, arc_radius a, fill_color a)) (snd r)
  = map (fun p => (x p, y p, size p, color p)) (fst r).
Proof.
  induction ps as [|p rest IH]; intros draws i; cbv zeta.
  - split; reflexivity.
  - rewrite forEach_particle_cons, forEach_particle_arcs_cons.
    destruct (IH draws (S (S (S i)))) as [Hlen Hmap]. cbv zeta in Hlen, Hmap.
    cbn [List.length map]. rewrite Hlen, Hmap. split; reflexivity.
Qed.

Lemma frames_length n width height params : forall ps draws i,
  List.length (fst (frames n width height params ps draws i))
  = List.length ps.
Proof.
  induction n as [|n IH]; intros ps draws i; [reflexivity|].
  cbn [frames]. rewrite bind_fst, IH, render_particles.
  apply (forEach_particle_paints width height (chaos params) (scale params)
                                 ps draws (S i)).
Qed.

Lemma rand_bind_snd {A B} (m : Rand A) (k : A -> Rand B) draws i :
  snd (bind m k draws i) = snd (k (fst (m draws i)) draws (snd (m draws i))).
Proof. unfold bind. destruct (m draws i). reflexivity. Qed.

Lemma render_arcs width height params ps draws i :
  arcs (fst (render width height params ps draws i))
  = snd (fst (forEach_particle width height (chaos params) (scale params)
                               ps draws (S i))).
Proof. unfold render. rewrite !bind_fst. reflexivity. Qed.

Lemma render_cursor width height params ps draws i :
  snd (render width height params ps draws i)
  = snd (forEach_particle width height (chaos params) (scale params)
                          ps draws (S i)).
Proof. unfold render. rewrite !rand_bind_snd. reflexivity. Qed.

Lemma render_centerSize width height params ps draws i :
  centerSize (fst (render width height params ps draws i))
  = 20 * scale params + draws i * 5 * chaos params.
Proof. unfold render. rewrite !bind_fst. reflexivity. Qed.

(** A frame paints every particle of the pool exactly once, in pool order,
    at the position the frame's update has just given it and with the
    particle's own size and colour; it draws one random number for the
    centre and three per particle; the pool keeps its size through any
    number of frames. *)
Theorem render_paints_every_particle width height params ps draws i n :
  let run := render width height params ps draws i in
  let f := fst run in
  List.length (particles f) = List.length ps /\
  map (fun a => (arc_x a, arc_y a, arc_radius a, fill_color a)) (arcs f)
  = map (fun p => (x p, y p, size p, color p)) (particles f) /\
  snd run = (i + 1 + 3 * List.length ps)%nat /\
  List.length (fst (frames n width height params ps draws i))
  = List.length ps.
Proof.
  cbv zeta.
  pose proof (forEach_particle_paints width height (chaos params)
                (scale params) ps draws (S i)) as [Hlen Hmap].
  rewrite render_particles, render_arcs, render_cursor,
    forEach_particle_cursor.
  split; [exact Hlen|]. split; [exact Hmap|]. split; [lia|].
  apply frames_length.
Qed.

(** With [chaos] and [scale] in [0, 1] every value handed to the canvas is
    in range: the opacity of a particle lies between 0.3 and 1 times
    [1 - chaos / 2] (so between 0.15 and 1), and the radius of the central
    star lies between [20 * scale] and [20 * scale + 5 * chaos], below 25. *)
Theorem render_values_in_range width height params ps p draws i :
  unit_draws draws ->
  0 <= chaos params <= 1 -> 0 <= scale params <= 1 ->
  let a := fst (draw (chaos params) p draws i) in
  let f := fst (render width height params ps draws i) in
  0.3 * (1 - chaos params / 2) <= fill_alpha a < 1 - chaos params / 2 /\
  0.15 <= fill_alpha a < 1 /\
  20 * scale params <= centerSize f <= 20 * scale params + 5 * chaos params /\
  0 <= centerSize f < 25.
Proof.
  intros Hd Hc Hs. cbv zeta. rewrite render_centerSize.
  cbn [draw bind ret Math_random fst fill_alpha].
  pose proof (Hd i) as Hi.
  split; [split; nra|]. split; [split; nra|]. split; split; nra.
Qed.

Lemma render_values_in_range_witness :
  let params := {| chaos := 1; scale := 1; active := true |} in
  let draws := fun _ : nat => / 2 in
  let p := fst (new_Particle 800 600 draws 0%nat) in
  let a := fst (draw (chaos params) p draws 7%nat) in
  let f := fst (render 800 600 params [p] draws 7%nat) in
  0.3 * (1 - chaos params / 2) <= fill_alpha a < 1 - chaos params / 2 /\
  0.15 <= fill_alpha a < 1 /\
  20 * scale params <= centerSize f <= 20 * scale params + 5 * chaos params /\
  0 <= centerSize f < 25.
Proof.
  cbv zeta.
  apply (render_values_in_range 800 600
           {| chaos := 1; scale := 1; active := true |}
           [fst (new_Particle 800 600 (fun _ => / 2) 0%nat)]
           (fst (new_Particle 800 600 (fun _ => / 2) 0%nat))
           (fun _ => / 2) 7%nat).
  - intros j. lra.
  - cbn. lra.
  - cbn. lra.
Defined.

End RenderFacts.

(** * Properties of the controller's life cycle *)

Module LoopFacts.

Import Js GestureController GestureLifecycle.

Lemma interpret_total result newParams :
  interpret result = Returns newParams ->
  exists c s a,
    newParams = {| chaos_opt := Some c; scale_opt := Some s;
                   active_opt := Some a |}.
Proof.
  unfold interpret.
  destruct (landmarks result) as [[|hand rest]|].
  - intros [= <-]. eauto.
  - destruct (forEach_hand result (hand :: rest) 0 (0, 0.5)) as [[c s]|];
      [|discriminate].
    cbn [obind]. intros [= <-]. eauto.
  - intros [= <-]. eauto.
Qed.

Lemma spread_total current1 current2 c s a :
  App.handleParamsUpdate current1
    {| chaos_opt := Some c; scale_opt := Some s; active_opt := Some a |}
  = App.handleParamsUpdate current2
    {| chaos_opt := Some c; scale_opt := Some s; active_opt := Some a |}.
Proof. reflexivity. Qed.

(** With both refs set, a frame that returns asks for the next frame. *)
Lemma predictWebcam_goes_on handLandmarker v startTimeMs effects :
  predictWebcam (Some handLandmarker) (Some v) startTimeMs = Returns effects ->
  requestedAnimationFrame effects = true /\
  (0 < videoWidth v ->
   exists c s a,
     onParamsUpdate effects
     = Some {| chaos_opt := Some c; scale_opt := Some s;
               active_opt := Some a |}) /\
  (~ 0 < videoWidth v -> onParamsUpdate effects = None).
Proof.
  unfold predictWebcam.
  destruct (Rlt_dec 0 (videoWidth v)) as [Hpos | Hneg].
  - destruct (interpret (detectForVideo handLandmarker v startTimeMs))
      as [newParams|] eqn:Hint; [|discriminate].
    cbn [obind]. intros [= <-]. cbn.
    destruct (interpret_total _ _ Hint) as (c & s & a & ->).
    split; [reflexivity|]. split; [eauto | contradiction].
  - intros [= <-]. cbn. split; [reflexivity|]. split; [contradiction | auto].
Qed.

Lemma animation_loop_after_detection f rest paramsRef1 paramsRef2 :
  detects f -> completes f ->
  animation_loop paramsRef1 (f :: rest) = animation_loop paramsRef2 (f :: rest).
Proof.
  intros (handLandmarker & v & Hl & Hv & Hw) [effects Hrun].
  cbn [animation_loop]. rewrite Hrun. rewrite Hl, Hv in Hrun.
  destruct (predictWebcam_goes_on _ _ _ _ Hrun) as (Hgo & Hfull & _).
  destruct (Hfull Hw) as (c & s & a & Hnp). rewrite Hgo, Hnp.
  now rewrite (spread_total paramsRef1 paramsRef2).
Qed.

(** The frame loop keeps no memory across a frame that runs detection to
    its end: with both refs set and no frame throwing up to that frame, two
    loops that differ only in the signal they start from stand alike from
    then on.  A frame that throws, on the other hand, ends the loop and
    leaves the signal as it was before that frame. *)
Theorem animation_loop_forgets before f rest paramsRef1 paramsRef2 :
  Forall (fun g => landmarker g <> None /\ video g <> None /\ completes g)
         before ->
  detects f -> completes f ->
  animation_loop paramsRef1 (before ++ f :: rest)
  = animation_loop paramsRef2 (before ++ f :: rest) /\
  (forall g e later,
      predictWebcam (landmarker g) (video g) (time g) = Throws e ->
      animation_loop paramsRef1 (g :: later)
      = {| paramsRef_current := paramsRef1; uncaught := Some e |}).
Proof.
  intros Hrefs Hf Hc. split.
  - revert paramsRef1 paramsRef2.
    induction Hrefs as [|g before (Hgl & Hgv & [effects Hrun]) _ IH];
      intros paramsRef1 paramsRef2.
    + now apply animation_loop_after_detection.
    + cbn [app animation_loop]. rewrite Hrun.
      destruct (landmarker g) as [handLandmarker|]; [|contradiction].
      destruct (video g) as [v|]; [|contradiction].
      destruct (predictWebcam_goes_on _ _ _ _ Hrun) as (Hgo & _ & _).
      rewrite Hgo. apply IH.
  - intros g e later Hthrow. cbn [animation_loop]. now rewrite Hthrow.
Qed.

Lemma frame_completes_no_hands v t :
  completes {| landmarker := Some (App.detector_of App.no_hands);
               video := Some v; time := t |}.
Proof.
  unfold completes, predictWebcam. cbn [landmarker video time].
  destruct (Rlt_dec 0 (videoWidth v)); cbn; eauto.
Qed.

Lemma animation_loop_forgets_witness :
  let idle := {| landmarker := Some (App.detector_of App.no_hands);
                 video := Some {| videoWidth := 0 |}; time := 0 |} in
  let seen := {| landmarker := Some (App.detector_of App.no_hands);
                 video := Some App.live_video; time := 16 |} in
  animation_loop {| chaos := 0.9; scale := 0.1; active := true |}
                 ([idle] ++ seen :: [idle])
  = animation_loop App.INITIAL_PARAMS ([idle] ++ seen :: [idle]).
Proof.
  cbv zeta.
  apply (animation_loop_forgets
           [ {| landmarker := Some (App.detector_of App.no_hands);
                video := Some {| videoWidth := 0 |}; time := 0 |} ]
           {| landmarker := Some (App.detector_of App.no_hands);
              video := Some App.live_video; time := 16 |}
           [ {| landmarker := Some (App.detector_of App.no_hands);
                video := Some {| videoWidth := 0 |}; time := 0 |} ]).
  - constructor; [|constructor].
    split; [discriminate|]. split; [discriminate|].
    apply frame_completes_no_hands.
  - exists (App.detector_of App.no_hands), App.live_video.
    split; [reflexivity|]. split; [reflexivity|]. cbn. lra.
  - apply frame_completes_no_hands.
Defined.

(** *** Start-up *)

(** How the component comes up after mounting.  The overlay goes away, the
    parent is told that the camera is ready and the frame loop starts only
    when the model files and the landmarker have loaded, the camera stream
    was granted, the video element exists and it has loaded data; then the
    landmarker ref is set and a stream is attached.  A failure to load the
    models gives the model error and leaves the camera unattached; a
    refused camera gives the camera error; a missing video element or a
    video that never loads gives no error and leaves the loading overlay
    up. *)
Theorem startup_outcomes forVisionTasks createFromOptions getUserMedia
        videoRef loads :
  let c := initMediaPipe forVisionTasks createFromOptions getUserMedia
                         videoRef loads mounted in
  let models := fulfilled forVisionTasks && fulfilled createFromOptions in
  let ready := models && fulfilled getUserMedia && videoRef && loads in
  overlay c = negb ready /\
  predicting c = ready /\
  onCameraReady c = (if ready then [true] else []) /\
  loading c = negb ready /\
  error c
  = (if negb models then Some "Failed to load AI models. Please refresh."
     else if negb (fulfilled getUserMedia)
          then Some "Camera permission denied. Enable camera to control simulation."
          else None)%string /\
  srcObject c = models && fulfilled getUserMedia && videoRef /\
  (predicting c = true ->
   exists handLandmarker,
     createFromOptions = Returns handLandmarker /\
     handLandmarkerRef c = Some handLandmarker).
Proof.
  cbv zeta.
  destruct forVisionTasks as [u|e1]; destruct createFromOptions as [hl|e2];
    destruct getUserMedia as [w|e3]; destruct videoRef; destruct loads;
    cbn; repeat split; try discriminate; intros _; eauto.
Qed.

End LoopFacts.

(** * Properties of the application's handlers *)

Module AppFacts.

Import Js AppHandlers.

(** *** Parameter updates *)

Lemma handleParamsUpdate_sync st newParams :
  uiParams st = paramsRef st ->
  uiParams (handleParamsUpdate st newParams)
  = paramsRef (handleParamsUpdate st newParams).
Proof. intros H. cbn. unfold App.handleParamsUpdate. now rewrite H. Qed.

Lemma updates_keep_rest updates : forall st,
  let st' := fold_left handleParamsUpdate updates st in
  messages st' = messages st /\ isAnalyzing st' = isAnalyzing st /\
  cameraReady st' = cameraReady st /\ isListening st' = isListening st /\
  paramsRef st' = fold_left App.handleParamsUpdate updates (paramsRef st) /\
  (uiParams st = paramsRef st -> uiParams st' = paramsRef st').
Proof.
  induction updates as [|u rest IH]; intros st; cbv zeta.
  - cbn. auto 7.
  - cbn [fold_left].
    destruct (IH (handleParamsUpdate st u)) as (Hm & Ha & Hc & Hl & Hp & Hs).
    cbv zeta in Hm, Ha, Hc, Hl, Hp, Hs.
    split; [rewrite Hm; reflexivity|]. split; [rewrite Ha; reflexivity|].
    split; [rewrite Hc; reflexivity|]. split; [rewrite Hl; reflexivity|].
    split; [rewrite Hp; reflexivity|].
    intros Hsync. apply Hs. now apply handleParamsUpdate_sync.
Qed.

(** The gauges show what the canvas uses: after any sequence of parameter
    updates, starting from the initial state, the UI state equals the
    content of the ref; an update touches neither the chat nor the flags;
    applying the same update twice is applying it once, and an update that
    carries all three keys replaces the signal whatever it was. *)
Theorem params_updates_in_sync updates st newParams c s a :
  let after := fold_left handleParamsUpdate updates initial in
  uiParams after = paramsRef after /\
  messages after = [] /\ isAnalyzing after = false /\
  handleParamsUpdate (handleParamsUpdate st newParams) newParams
  = handleParamsUpdate st newParams /\
  paramsRef (handleParamsUpdate st
               {| chaos_opt := Some c; scale_opt := Some s;
                  active_opt := Some a |})
  = {| chaos := c; scale := s; active := a |}.
Proof.
  cbv zeta.
  destruct (updates_keep_rest updates initial) as (Hm & Ha & _ & _ & _ & Hs).
  cbv zeta in Hm, Ha, Hs.
  split; [now apply Hs|]. split; [exact Hm|]. split; [exact Ha|].
  split; [|reflexivity].
  destruct st as [pr ui ms ia cr il].
  destruct newParams as [[c0|] [s0|] [a0|]]; reflexivity.
Qed.

End AppFacts.

(** * Further properties of the analysis client *)

Module AnalysisFacts.

Import Js geminiService.

Lemma settled_cases generateContent chaos scale userQuery :
  let call := generateCosmicAnalysis generateContent chaos scale userQuery in
  match generateContent (request_of chaos scale userQuery) with
  | Returns response =>
      settled call = Returns (text_or_lost response) /\
      console_error call = []
  | Throws e =>
      settled call = Returns analysis_failed /\
      console_error call = [("Gemini Error:"%string, e)]
  end.
Proof.
  cbv zeta. unfold generateCosmicAnalysis, try_block.
  change {| model := "gemini-2.5-flash";
            contents := prompt (Math_round (chaos * 100))
                               (Math_round (scale * 100))
                               (contextInstruction userQuery);
            thinkingBudget := 0 |}
    with (request_of chaos scale userQuery).
  destruct (generateContent (request_of chaos scale userQuery))
    as [response | e]; cbn [obind settled console_error].
  - split; [|reflexivity]. unfold text_or_lost, truthy.
    destruct (text response) as [[|c t]|]; reflexivity.
  - split; reflexivity.
Qed.

Lemma text_or_lost_nonempty response : text_or_lost response <> ""%string.
Proof.
  unfold text_or_lost, connection_lost.
  destruct (text response) as [[|c t]|]; discriminate.
Qed.

Lemma settled_nonempty generateContent chaos scale userQuery :
  exists s,
    settled (generateCosmicAnalysis generateContent chaos scale userQuery)
    = Returns s /\ s <> ""%string.
Proof.
  pose proof (settled_cases generateContent chaos scale userQuery) as H.
  cbv zeta in H.
  destruct (generateContent (request_of chaos scale userQuery))
    as [response | e]; destruct H as [H _]; rewrite H; eexists; split;
    try reflexivity.
  - apply text_or_lost_nonempty.
  - discriminate.
Qed.

(** The caller always gets a non-empty text.  When the service answers, the
    text is the answer itself if it is not empty and "Connection to Deep
    Space Network lost..." if the answer has no text or an empty one, and
    nothing is logged; when the service fails, the text is the fallback and
    the error is logged once with [console.error]. *)
Theorem analysis_text_never_empty generateContent chaos scale userQuery :
  let call := generateCosmicAnalysis generateContent chaos scale userQuery in
  let request := request_of chaos scale userQuery in
  exists s,
    settled call = Returns s /\ s <> ""%string /\
    (forall response,
        generateContent request = Returns response ->
        console_error call = [] /\
        ((exists t, text response = Some t /\ t <> ""%string /\ s = t) \/
         ((text response = None \/ text response = Some ""%string) /\
          s = "Connection to Deep Space Network lost..."%string))) /\
    (forall e,
        generateContent request = Throws e ->
        s = "ANALYSIS FAILED: Cosmic interference detected."%string /\
        console_error call = [("Gemini Error:"%string, e)]).
Proof.
  cbv zeta.
  pose proof (settled_cases generateContent chaos scale userQuery) as H.
  cbv zeta in H.
  destruct (generateContent (request_of chaos scale userQuery))
    as [response | e]; destruct H as [Hs Hc].
  - exists (text_or_lost response).
    split; [exact Hs|]. split; [apply text_or_lost_nonempty|].
    split; [|discriminate].
    intros r [= <-]. split; [exact Hc|]. unfold text_or_lost.
    destruct (text response) as [[|c t]|].
    + right. split; [now right | reflexivity].
    + left. exists (String c t). split; [reflexivity|].
      split; [discriminate | reflexivity].
    + right. split; [now left | reflexivity].
  - exists analysis_failed.
    split; [exact Hs|]. split; [discriminate|].
    split; [discriminate|].
    intros e' [= <-]. split; [reflexivity | exact Hc].
Qed.

(** *** Percentages *)






End AnalysisFacts.

(** * Properties of the chat *)

Module ChatFacts.

Import Js AppHandlers.

Lemma handleAnalyze_idle generateContent st customPrompt t_user during t_model :
  isAnalyzing st = false ->
  exists analysis,
    geminiService.settled
      (geminiService.generateCosmicAnalysis
         generateContent (chaos (paramsRef st)) (scale (paramsRef st))
         customPrompt) = Returns analysis /\
    analysis <> ""%string /\
    handleAnalyze generateContent st customPrompt t_user during t_model
    = setIsAnalyzing
        (push_message
           (fold_left handleParamsUpdate during
              (push_message (setIsAnalyzing st true)
                 {| role := user; text := displayText customPrompt;
                    timestamp := t_user |}))
           {| role := model; text := analysis; timestamp := t_model |})
        false.
Proof.
  intros Hidle. unfold handleAnalyze. rewrite Hidle. cbv zeta.
  cbn [push_message setIsAnalyzing paramsRef].
  destruct (AnalysisFacts.settled_nonempty generateContent
              (chaos (paramsRef st)) (scale (paramsRef st)) customPrompt)
    as (analysis & Hs & Hne).
  exists analysis. rewrite Hs. auto.
Qed.

(** A request for analysis.  While one is in progress a further call does
    nothing.  Otherwise the call always runs to its end: the chat grows by
    exactly two messages, the request as the user's message (the default
    text when the prompt is missing or empty) followed by the model's
    message, whose text is never empty and is what the service settled to
    for the [chaos] and [scale] of the moment of the request; the busy flag
    is cleared again; parameter updates that arrive meanwhile are applied
    and the gauges stay in step with the ref. *)
Theorem handleAnalyze_appends_exchange
        generateContent st customPrompt t_user during t_model :
  let st' :=
    handleAnalyze generateContent st customPrompt t_user during t_model in
  (isAnalyzing st = true -> st' = st) /\
  (isAnalyzing st = false ->
   exists analysis,
     geminiService.settled
       (geminiService.generateCosmicAnalysis
          generateContent (chaos (paramsRef st)) (scale (paramsRef st))
          customPrompt) = Returns analysis /\
     analysis <> ""%string /\
     messages st'
     = messages st ++
       [ {| role := user; text := displayText customPrompt;
            timestamp := t_user |};
         {| role := model; text := analysis; timestamp := t_model |} ] /\
     isAnalyzing st' = false /\
     paramsRef st'
     = fold_left App.handleParamsUpdate during (paramsRef st) /\
     (uiParams st = paramsRef st -> uiParams st' = paramsRef st')) /\
  (displayText customPrompt = "Analyze current simulation status."%string <->
   customPrompt = None \/ customPrompt = Some ""%string \/
   customPrompt = Some "Analyze current simulation status."%string).
Proof.
  cbv zeta. split; [|split].
  - intros Hbusy. unfold handleAnalyze. now rewrite Hbusy.
  - intros Hidle.
    destruct (handleAnalyze_idle generateContent st customPrompt
                t_user during t_model Hidle) as (analysis & Hs & Hne & ->).
    exists analysis. split; [exact Hs|]. split; [exact Hne|].
    set (st2 := push_message (setIsAnalyzing st true)
                  {| role := user; text := displayText customPrompt;
                     timestamp := t_user |}).
    destruct (AppFacts.updates_keep_rest during st2)
      as (Hm & _ & _ & _ & Hp & Hsync).
    cbv zeta in Hm, Hp, Hsync.
    cbn [setIsAnalyzing push_message messages isAnalyzing paramsRef uiParams].
    split; [rewrite Hm; unfold st2; cbn [push_message setIsAnalyzing messages];
            rewrite <- app_assoc; reflexivity|].
    split; [reflexivity|].
    split; [rewrite Hp; reflexivity|].
    intros Hui. apply Hsync. unfold st2. exact Hui.
  - unfold displayText. destruct customPrompt as [[|c t]|].
    + split; auto.
    + split.
      * intros ->. auto.
      * intros [H | [H | H]]; try discriminate. congruence.
    + split; auto.
Qed.

Lemma handleAnalyze_appends_exchange_witness :
  let failing : geminiService.Models :=
    fun _ => Throws (ServiceError "503 Service Unavailable") in
  let st' := handleAnalyze failing initial None 100 [] 250 in
  exists analysis,
    geminiService.settled
      (geminiService.generateCosmicAnalysis
         failing (chaos (paramsRef initial)) (scale (paramsRef initial))
         None) = Returns analysis /\
    analysis <> ""%string /\
    messages st'
    = messages initial ++
      [ {| role := user; text := displayText None; timestamp := 100 |};
        {| role := model; text := analysis; timestamp := 250 |} ] /\
    isAnalyzing st' = false /\
    paramsRef st'
    = fold_left App.handleParamsUpdate [] (paramsRef initial) /\
    (uiParams initial = paramsRef initial -> uiParams st' = paramsRef st').
Proof.
  cbv zeta.
  apply (proj1 (proj2 (handleAnalyze_appends_exchange
                         (fun _ => Throws (ServiceError "503 Service Unavailable"))
                         initial None 100 [] 250))).
  reflexivity.
Defined.

(** *** The chat log *)

Lemma handleAnalyze_all_log generateContent requests : forall st,
  isAnalyzing st = false ->
  let st' := handleAnalyze_all generateContent st requests in
  isAnalyzing st' = false /\
  map role (messages st')
  = map role (messages st) ++ exchanges (List.length requests) /\
  map text (filter from_user (messages st'))
  = map text (filter from_user (messages st))
    ++ map (fun r => displayText (fst (fst r))) requests /\
  paramsRef st' = paramsRef st.
Proof.
  induction requests as [|[[customPrompt t_user] t_model] rest IH];
    intros st Hidle; cbv zeta.
  - cbn. rewrite !app_nil_r. auto.
  - cbn [handleAnalyze_all].
    destruct (handleAnalyze_idle generateContent st customPrompt
                t_user [] t_model Hidle) as (analysis & _ & _ & Hrun).
    rewrite Hrun. cbn [fold_left].
    match goal with
    | |- context [handleAnalyze_all generateContent ?s rest] =>
        set (st1 := s)
    end.
    assert (Hidle1 : isAnalyzing st1 = false) by reflexivity.
    destruct (IH st1 Hidle1) as (Hi & Hr & Ht & Hp). cbv zeta in Hi, Hr, Ht, Hp.
    split; [exact Hi|]. split; [|split].
    + rewrite Hr. unfold st1.
      cbn [setIsAnalyzing push_message messages].
      rewrite !map_app. cbn [map role List.length exchanges].
      rewrite <- !app_assoc. reflexivity.
    + rewrite Ht. unfold st1.
      cbn [setIsAnalyzing push_message messages].
      rewrite !filter_app, !map_app.
      cbn [filter from_user role map text fst app].
      rewrite app_nil_r, <- !app_assoc. reflexivity.
    + rewrite Hp. reflexivity.
Qed.

(** Requests made one after another from the initial state: the chat log
    alternates between the user and the model, two messages per request;
    the user's messages carry the texts of the requests in the order in
    which they were made, none lost; the busy flag is clear at the end and
    the control signal is untouched. *)
Theorem chat_log_alternates generateContent requests :
  let st := handleAnalyze_all generateContent initial requests in
  map role (messages st) = exchanges (List.length requests) /\
  List.length (messages st) = (2 * List.length requests)%nat /\
  map text (filter from_user (messages st))
  = map (fun r => displayText (fst (fst r))) requests /\
  isAnalyzing st = false /\
  paramsRef st = App.INITIAL_PARAMS.
Proof.
  cbv zeta.
  destruct (handleAnalyze_all_log generateContent requests initial eq_refl)
    as (Hi & Hr & Ht & Hp).
  cbv zeta in Hi, Hr, Ht, Hp. cbn [initial messages map filter app] in Hr, Ht.
  split; [exact Hr|]. split; [|split; [exact Ht | split; [exact Hi | exact Hp]]].
  rewrite <- (length_map role), Hr.
  clear. induction (List.length requests) as [|n IH]; [reflexivity|].
  cbn [exchanges List.length]. rewrite IH. lia.
Qed.

End ChatFacts.

(** * Whole runs of frames *)

Module CalmFacts.

Import Js GalaxyCanvas ParticleFacts.

Lemma update_calm_ignores_draws width height scale p draws1 i1 draws2 i2 :
  fst (update width height 0 scale p draws1 i1)
  = fst (update width height 0 scale p draws2 i2).
Proof.
  cbn. unfold jitter. f_equal; lra.
Qed.

Lemma forEach_particle_calm width height scale ps :
  forall draws1 i1 draws2 i2,
    fst (fst (forEach_particle width height 0 scale ps draws1 i1))
    = fst (fst (forEach_particle width height 0 scale ps draws2 i2)).
Proof.
  induction ps as [|p rest IH]; intros draws1 i1 draws2 i2; [reflexivity|].
  rewrite !forEach_particle_cons.
  rewrite (update_calm_ignores_draws width height scale p draws1 i1 draws2 i2).
  f_equal. apply IH.
Qed.

(** With [chaos = 0] the motion of the pool does not depend on chance: two
    runs of any number of frames from the same pool end in the same pool,
    whatever [Math.random] returns in either run.  (The opacity of the arcs
    and nothing else still varies.) *)
Theorem calm_frames_reproducible n width height s a ps
        draws1 i1 draws2 i2 :
  let params := {| chaos := 0; scale := s; active := a |} in
  fst (frames n width height params ps draws1 i1)
  = fst (frames n width height params ps draws2 i2) /\
  map (fun c => (arc_x c, arc_y c, arc_radius c, fill_color c))
      (arcs (fst (render width height params ps draws1 i1)))
  = map (fun c => (arc_x c, arc_y c, arc_radius c, fill_color c))
        (arcs (fst (render width height params ps draws2 i2))).
Proof.
  cbv zeta. split.
  - revert ps draws1 i1 draws2 i2.
    induction n as [|n IH]; intros ps draws1 i1 draws2 i2; [reflexivity|].
    cbn [frames]. rewrite !bind_fst, !render_particles.
    cbn [chaos scale].
    rewrite (forEach_particle_calm width height s ps
               draws1 (S i1) draws2 (S i2)).
    apply IH.
  - destruct (RenderFacts.forEach_particle_paints width height 0 s ps
                draws1 (S i1)) as [_ H1].
    destruct (RenderFacts.forEach_particle_paints width height 0 s ps
                draws2 (S i2)) as [_ H2].
    cbv zeta in H1, H2. rewrite !RenderFacts.render_arcs.
    cbn [chaos scale].
    rewrite H1, H2.
    now rewrite (forEach_particle_calm width height s ps
                   draws1 (S i1) draws2 (S i2)).
Qed.

(** *** The angle over a run *)

Lemma frames_angle n width height params : forall ps draws i k p0,
  nth_error ps k = Some p0 ->
  exists p,
    nth_error (fst (frames n width height params ps draws i)) k = Some p /\
    angularSpeed p = angularSpeed p0 /\
    angle p
    = angle p0 + INR n * (angularSpeed p0 * (1 + chaos params * 2)).
Proof.
  induction n as [|n IH]; intros ps draws i k p0 Hk.
  - exists p0. cbn [frames ret fst INR]. split; [exact Hk|].
    split; [reflexivity | lra].
  - cbn [frames]. rewrite bind_fst.
    destruct (OrbitFacts.render_nth width height params ps draws i k p0 Hk)
      as [j Hj].
    destruct (IH _ draws (snd (render width height params ps draws i))
                 k _ Hj) as (p & Hp & Hs & Ha).
    exists p. split; [exact Hp|]. split; [rewrite Hs; reflexivity|].
    rewrite Ha, S_INR. cbn [update bind ret Math_random fst angle angularSpeed].
    lra.
Qed.

(** Over a run of [n] frames with the same parameters every particle keeps
    its place in the pool and its angular speed, and its angle has advanced
    by exactly [n] times [angularSpeed * (1 + chaos * 2)]: it turns in one
    direction at constant speed, whatever the draws. *)
Theorem angle_advances_linearly n width height params ps draws i k p0 :
  nth_error ps k = Some p0 ->
  exists p,
    nth_error (fst (frames n width height params ps draws i)) k = Some p /\
    angularSpeed p = angularSpeed p0 /\
    angle p - angle p0
    = INR n * (angularSpeed p0 * (1 + chaos params * 2)).
Proof.
  intros Hk.
  destruct (frames_angle n width height params ps draws i k p0 Hk)
    as (p & Hp & Hs & Ha).
  exists p. split; [exact Hp|]. split; [exact Hs|]. rewrite Ha. lra.
Qed.

Lemma angle_advances_linearly_witness :
  let draws := fun _ : nat => / 4 in
  let p0 := fst (new_Particle 800 600 draws 0%nat) in
  let params := {| chaos := 1; scale := 0.5; active := true |} in
  exists p,
    nth_error (fst (frames 3 800 600 params [p0] draws 7%nat)) 0%nat = Some p /\
    angularSpeed p = angularSpeed p0 /\
    angle p - angle p0
    = INR 3 * (angularSpeed p0 * (1 + chaos params * 2)).
Proof.
  cbv zeta.
  apply (angle_advances_linearly 3 800 600
           {| chaos := 1; scale := 0.5; active := true |}
           [fst (new_Particle 800 600 (fun _ => / 4) 0%nat)]
           (fun _ => / 4) 7%nat 0%nat).
  reflexivity.
Defined.

End CalmFacts.

(** * Convergence in the calm regime *)

Module TrailFacts.

Import Js GalaxyCanvas ParticleFacts TrailingOrbit.

Lemma lag_denominator_pos w : 0.01 <= lag_denominator w.
Proof. unfold lag_denominator. pose proof (COS_bound w). lra. Qed.

Lemma trail_coefficients w :
  trail_a w - 0.1 = 0.9 * (trail_a w * cos w + trail_b w * sin w) /\
  - trail_b w = 0.9 * (trail_a w * sin w - trail_b w * cos w) /\
  trail_a w * trail_a w + trail_b w * trail_b w = 0.01 / lag_denominator w.
Proof.
  pose proof (lag_denominator_pos w) as HD.
  pose proof (sin2_cos2 w) as K. unfold Rsqr in K.
  unfold trail_a, trail_b.
  unfold lag_denominator in *.
  set (C := cos w) in *. set (S := sin w) in *.
  assert (Dnz : 1.81 - 1.8 * C <> 0) by lra.
  repeat split; field_simplify_eq; try exact Dnz; nra.
Qed.

Lemma trail_step (a b c s C S : R) :
  S * S + C * C = 1 ->
  a - 0.1 = 0.9 * (a * C + b * S) ->
  - b = 0.9 * (a * S - b * C) ->
  a * (c * C - s * S) - b * (s * C + c * S)
  = 0.9 * (a * c - b * s) + 0.1 * (c * C - s * S) /\
  a * (s * C + c * S) + b * (c * C - s * S)
  = 0.9 * (a * s + b * c) + 0.1 * (s * C + c * S).
Proof.
  intros K E1 E2.
  assert (H1 : (a - 0.1) * (c * C - s * S)
               = 0.9 * (a * C + b * S) * (c * C - s * S))
    by (rewrite E1; reflexivity).
  assert (H2 : (- b) * (s * C + c * S)
               = 0.9 * (a * S - b * C) * (s * C + c * S))
    by (rewrite E2; reflexivity).
  assert (H3 : (a * c - b * s) * (S * S + C * C) = a * c - b * s)
    by (rewrite K; lra).
  assert (H4 : (a - 0.1) * (s * C + c * S)
               = 0.9 * (a * C + b * S) * (s * C + c * S))
    by (rewrite E1; reflexivity).
  assert (H5 : (- b) * (c * C - s * S)
               = 0.9 * (a * S - b * C) * (c * C - s * S))
    by (rewrite E2; reflexivity).
  assert (H6 : (a * s + b * c) * (S * S + C * C) = a * s + b * c)
    by (rewrite K; lra).
  split; lra.
Qed.

Lemma trailing_point_step width height scale p draws i :
  let p' := fst (update width height 0 scale p draws i) in
  fst (position p') - fst (trailing_point width height scale p')
  = 0.9 * (fst (position p) - fst (trailing_point width height scale p)) /\
  snd (position p') - snd (trailing_point width height scale p')
  = 0.9 * (snd (position p) - snd (trailing_point width height scale p)).
Proof.
  cbv zeta.
  destruct (OrbitFacts.update_offsets width height 0 scale p draws i)
    as [Ex Ey].
  cbv zeta in Ex, Ey. unfold jitter in Ex, Ey.
  set (p' := fst (update width height 0 scale p draws i)) in *.
  assert (Ha : angle p' = angle p + angularSpeed p) by (cbn; lra).
  assert (Hw : angularSpeed p' = angularSpeed p) by reflexivity.
  assert (Hr : targetRadius p' scale = targetRadius p scale) by reflexivity.
  unfold trailing_point, position. cbn [fst snd].
  rewrite Hw, Hr, Ha. rewrite Ha in Ex, Ey.
  rewrite cos_plus, sin_plus in *.
  destruct (trail_coefficients (angularSpeed p)) as (E1 & E2 & _).
  pose proof (sin2_cos2 (angularSpeed p)) as K. unfold Rsqr in K.
  set (r := targetRadius p scale) in *.
  set (a := trail_a (angularSpeed p)) in *.
  set (b := trail_b (angularSpeed p)) in *.
  set (c := cos (angle p)) in *. set (s := sin (angle p)) in *.
  set (C := cos (angularSpeed p)) in *. set (S := sin (angularSpeed p)) in *.
  destruct (trail_step a b c s C S K E1 E2) as [T1 T2].
  apply (f_equal (Rmult r)) in T1. apply (f_equal (Rmult r)) in T2.
  split; lra.
Qed.

Lemma dist_scale (a c b d : number * number) (t : R) :
  0 <= t ->
  fst a - fst c = t * (fst b - fst d) ->
  snd a - snd c = t * (snd b - snd d) ->
  dist a c = t * dist b d.
Proof.
  intros Ht Hx Hy. unfold dist. rewrite Hx, Hy.
  replace ((t * (fst b - fst d)) ^ 2 + (t * (snd b - snd d)) ^ 2)
    with (t ^ 2 * ((fst b - fst d) ^ 2 + (snd b - snd d) ^ 2)) by ring.
  rewrite sqrt_mult_alt by apply pow2_ge_0.
  now rewrite sqrt_pow2.
Qed.

Lemma trailing_point_contract width height scale p draws i :
  let p' := fst (update width height 0 scale p draws i) in
  dist (position p') (trailing_point width height scale p')
  = 0.9 * dist (position p) (trailing_point width height scale p).
Proof.
  cbv zeta.
  destruct (trailing_point_step width height scale p draws i) as [Hx Hy].
  apply dist_scale; [lra | exact Hx | exact Hy].
Qed.

Lemma trailing_circle width height scale p :
  let d := dist (trailing_point width height scale p) (center width height) in
  d * d
  = targetRadius p scale * targetRadius p scale
    * (0.01 / lag_denominator (angularSpeed p)) /\
  d * d <= targetRadius p scale * targetRadius p scale.
Proof.
  cbv zeta. rewrite OrbitFacts.dist_sqr.
  unfold trailing_point, center. cbn [fst snd].
  destruct (trail_coefficients (angularSpeed p)) as (_ & _ & E3).
  pose proof (sin2_cos2 (angle p)) as K. unfold Rsqr in K.
  pose proof (lag_denominator_pos (angularSpeed p)) as HD.
  set (r := targetRadius p scale) in *.
  set (a := trail_a (angularSpeed p)) in *.
  set (b := trail_b (angularSpeed p)) in *.
  set (c := cos (angle p)) in *. set (s := sin (angle p)) in *.
  set (D := lag_denominator (angularSpeed p)) in *.
  assert (Hsq : (width / 2 + r * (a * c - b * s) - width / 2) ^ 2 +
                (height / 2 + r * (a * s + b * c) - height / 2) ^ 2
                = r * r * ((a * a + b * b) * (s * s + c * c))) by lra.
  rewrite Hsq, K, Rmult_1_r, E3. split; [reflexivity|].
  assert (Hq : 0.01 / D <= 1).
  { apply Rmult_le_reg_r with D; [lra|]. unfold Rdiv.
    rewrite Rmult_assoc, Rinv_l by lra. lra. }
  assert (0 <= r * r) by nra.
  nra.
Qed.

Lemma frames_trailing n width height s a : forall ps draws i k p0,
  nth_error ps k = Some p0 ->
  exists p,
    nth_error (fst (frames n width height
                           {| chaos := 0; scale := s; active := a |}
                           ps draws i)) k = Some p /\
    radius p = radius p0 /\ angularSpeed p = angularSpeed p0 /\
    dist (position p) (trailing_point width height s p)
    = 0.9 ^ n * dist (position p0) (trailing_point width height s p0).
Proof.
  induction n as [|n IH]; intros ps draws i k p0 Hk.
  - exists p0. cbn [frames ret fst pow]. split; [exact Hk|].
    split; [reflexivity|]. split; [reflexivity | lra].
  - cbn [frames]. rewrite bind_fst.
    destruct (OrbitFacts.render_nth width height
                {| chaos := 0; scale := s; active := a |} ps draws i k p0 Hk)
      as [j Hj].
    cbn [chaos scale] in Hj.
    destruct (IH _ draws
                 (snd (render width height
                              {| chaos := 0; scale := s; active := a |}
                              ps draws i))
                 k _ Hj) as (p & Hp & Hr & Hs & Hd).
    exists p. split; [exact Hp|].
    split; [rewrite Hr; reflexivity|]. split; [rewrite Hs; reflexivity|].
    rewrite Hd, trailing_point_contract. cbn [pow]. lra.
Qed.

(** What a calm particle converges to.  With [chaos = 0] every frame
    multiplies by 0.9 the distance between the particle and the point that
    trails its target on the circle of radius
    [targetRadius * 0.1 / sqrt (1.81 - 1.8 * cos angularSpeed)] around the
    centre: after [n] frames that distance is [0.9 ^ n] times what it was.
    The circle is never larger than the one the target moves on. *)
Theorem calm_frames_converge n width height s a ps draws i k p0 :
  nth_error ps k = Some p0 ->
  let params := {| chaos := 0; scale := s; active := a |} in
  exists p,
    nth_error (fst (frames n width height params ps draws i)) k = Some p /\
    dist (position p) (trailing_point width height s p)
    = 0.9 ^ n * dist (position p0) (trailing_point width height s p0) /\
    (let d := dist (trailing_point width height s p) (center width height) in
     d * d
     = targetRadius p0 s * targetRadius p0 s
       * (0.01 / lag_denominator (angularSpeed p0)) /\
     d * d <= targetRadius p0 s * targetRadius p0 s).
Proof.
  intros Hk. cbv zeta.
  destruct (frames_trailing n width height s a ps draws i k p0 Hk)
    as (p & Hp & Hr & Hs & Hd).
  exists p. split; [exact Hp|]. split; [exact Hd|].
  destruct (trailing_circle width height s p) as [Hc Hle].
  cbv zeta in Hc, Hle.
  assert (Ht : targetRadius p s = targetRadius p0 s)
    by (unfold targetRadius; now rewrite Hr).
  rewrite Ht, Hs in Hc. rewrite Ht in Hle. split; [exact Hc | exact Hle].
Qed.

Lemma calm_frames_converge_witness :
  let draws := fun _ : nat => / 4 in
  let p0 := fst (new_Particle 800 600 draws 0%nat) in
  let params := {| chaos := 0; scale := 1; active := true |} in
  exists p,
    nth_error (fst (frames 5 800 600 params [p0] draws 7%nat)) 0%nat
    = Some p /\
    dist (position p) (trailing_point 800 600 1 p)
    = 0.9 ^ 5 * dist (position p0) (trailing_point 800 600 1 p0) /\
    (let d := dist (trailing_point 800 600 1 p) (center 800 600) in
     d * d
     = targetRadius p0 1 * targetRadius p0 1
       * (0.01 / lag_denominator (angularSpeed p0)) /\
     d * d <= targetRadius p0 1 * targetRadius p0 1).
Proof.
  cbv zeta.
  apply (calm_frames_converge 5 800 600 1 true
           [fst (new_Particle 800 600 (fun _ => / 4) 0%nat)]
           (fun _ => / 4) 7%nat 0%nat).
  reflexivity.
Defined.

End TrailFacts.

(** * Rounding in binary64 *)

Module Binary64Facts.
Import Binary64.

Lemma pow2_pos e : 0 < pow2 e.
Proof. apply powerRZ_lt. lra. Qed.

Lemma pow2_add a b : pow2 (a + b) = pow2 a * pow2 b.
Proof. apply powerRZ_add. lra. Qed.

Lemma pow2_IZR n : (0 <= n)%Z -> pow2 n = IZR (2 ^ n).
Proof.
  intros Hn. unfold pow2.
  rewrite <- (Z2Nat.id n Hn) at 1. rewrite <- pow_powerRZ.
  rewrite pow_IZR. now rewrite Z2Nat.id.
Qed.

Lemma pow2_S e : pow2 (e + 1) = 2 * pow2 e.
Proof. rewrite pow2_add. unfold pow2 at 2. simpl. lra. Qed.

Lemma pow2_shift e n : (0 <= n)%Z -> pow2 (e + n) = IZR (2 ^ n) * pow2 e.
Proof. intros Hn. rewrite pow2_add, (pow2_IZR n Hn). lra. Qed.

Lemma pow2_diff a b : (b <= a)%Z -> pow2 a = IZR (2 ^ (a - b)) * pow2 b.
Proof.
  intros Hle. rewrite <- pow2_shift by lia. f_equal. lia.
Qed.

Lemma pow2_le a b : (a <= b)%Z -> pow2 a <= pow2 b.
Proof.
  intros Hab. replace b with (a + (b - a))%Z by lia.
  rewrite pow2_shift by lia.
  assert (1 <= IZR (2 ^ (b - a))).
  { apply IZR_le. assert (0 < 2 ^ (b - a))%Z by (apply Z.pow_pos_nonneg; lia). lia. }
  pose proof (pow2_pos a). nra.
Qed.

Lemma pow2_lt a b : (a < b)%Z -> pow2 a < pow2 b.
Proof.
  intros Hab. apply Rlt_le_trans with (pow2 (a + 1)).
  - rewrite pow2_S. pose proof (pow2_pos a). lra.
  - apply pow2_le. lia.
Qed.

Lemma pow2_lt_inv a b : pow2 a < pow2 b -> (a < b)%Z.
Proof.
  intros H. destruct (Z_lt_le_dec a b) as [|Hle]; [assumption|].
  apply pow2_le in Hle. lra.
Qed.

(** ** Shifting the mantissa right *)

Lemma iter_pos_nat {A} (f : A -> A) p : forall x,
  SpecFloat.iter_pos f p x = Nat.iter (Pos.to_nat p) f x.
Proof.
  induction p as [p IH|p IH|]; intros x; cbn [SpecFloat.iter_pos].
  - rewrite !IH. rewrite Pos2Nat.inj_xI.
    replace (S (2 * Pos.to_nat p)) with (Pos.to_nat p + (Pos.to_nat p + 1))%nat by lia.
    rewrite Nat.iter_add. f_equal. rewrite Nat.iter_add. reflexivity.
  - rewrite !IH. rewrite Pos2Nat.inj_xO.
    replace (2 * Pos.to_nat p)%nat with (Pos.to_nat p + Pos.to_nat p)%nat by lia.
    now rewrite Nat.iter_add.
  - reflexivity.
Qed.

Lemma loc_of_shr_record_of_loc m l :
  loc_of_shr_record (shr_record_of_loc m l) = l.
Proof. destruct l as [|[]]; reflexivity. Qed.

Lemma shr_m_of_loc m l : shr_m (shr_record_of_loc m l) = m.
Proof. destruct l as [|[]]; reflexivity. Qed.

(** One shift keeps the mantissa, the exponent and the location in step
    with the number they stand for. *)
Lemma shr_1_inbetween mrs e w :
  (0 <= shr_m mrs)%Z ->
  inbetween (shr_m mrs) e (loc_of_shr_record mrs) w ->
  inbetween (shr_m (shr_1 mrs)) (e + 1) (loc_of_shr_record (shr_1 mrs)) w /\
  shr_m (shr_1 mrs) = (shr_m mrs / 2)%Z.
Proof.
  destruct mrs as [m r s]. cbn [shr_m]. intros Hm H.
  pose proof (pow2_pos e) as Hp. pose proof (pow2_S e) as HS.
  destruct m as [|p|p]; [| |lia].
  - (* 0 *)
    split; [|reflexivity].
    destruct r, s; cbn in *; rewrite ?HS; unfold cmp_holds in *;
      repeat split; try lra.
  - destruct p as [p|p|].
    + (* 2p+1 *)
      split; [|cbn [shr_1 shr_m]; apply Z.div_unique with 1%Z; lia].
      assert (E : IZR (Z.pos p~1) = 2 * IZR (Z.pos p) + 1)
        by (rewrite Pos2Z.inj_xI, plus_IZR, mult_IZR; reflexivity).
      assert (E1 : IZR (Z.pos p~1 + 1) = 2 * IZR (Z.pos p) + 2)
        by (rewrite plus_IZR, E; lra).
      assert (E2 : IZR (Z.pos p + 1) = IZR (Z.pos p) + 1) by apply plus_IZR.
      destruct r, s; cbn [shr_1 loc_of_shr_record shr_m inbetween cmp_holds orb] in *;
        rewrite ?E, ?E1, ?E2, ?HS in *; repeat split; try nra.
    + split; [|cbn [shr_1 shr_m]; apply Z.div_unique with 0%Z; lia].
      assert (E : IZR (Z.pos p~0) = 2 * IZR (Z.pos p))
        by (rewrite Pos2Z.inj_xO, mult_IZR; reflexivity).
      assert (E1 : IZR (Z.pos p~0 + 1) = 2 * IZR (Z.pos p) + 1)
        by (rewrite plus_IZR, E; lra).
      assert (E2 : IZR (Z.pos p + 1) = IZR (Z.pos p) + 1) by apply plus_IZR.
      destruct r, s; cbn [shr_1 loc_of_shr_record shr_m inbetween cmp_holds orb] in *;
        rewrite ?E, ?E1, ?E2, ?HS in *; repeat split; try nra.
    + split; [|reflexivity].
      destruct r, s; cbn [shr_1 loc_of_shr_record shr_m inbetween cmp_holds orb] in *;
        cbn in *; rewrite ?HS in *; repeat split; try nra.
Qed.

Lemma shr_iter_inbetween n : forall mrs e w,
  (0 <= shr_m mrs)%Z ->
  inbetween (shr_m mrs) e (loc_of_shr_record mrs) w ->
  inbetween (shr_m (Nat.iter n shr_1 mrs)) (e + Z.of_nat n)
            (loc_of_shr_record (Nat.iter n shr_1 mrs)) w /\
  shr_m (Nat.iter n shr_1 mrs) = (shr_m mrs / 2 ^ Z.of_nat n)%Z.
Proof.
  induction n as [|n IH]; intros mrs e w Hm Hin.
  - cbn [Nat.iter]. replace (e + Z.of_nat 0)%Z with e by lia.
    split; [assumption|]. now rewrite Z.pow_0_r, Z.div_1_r.
  - rewrite Nat.iter_succ.
    destruct (IH mrs e w Hm Hin) as [Hin' Hm'].
    assert (0 <= shr_m (Nat.iter n shr_1 mrs))%Z.
    { rewrite Hm'. apply Z.div_pos; [assumption|]. apply Z.pow_pos_nonneg; lia. }
    destruct (shr_1_inbetween _ _ _ H Hin') as [Hin'' Hm''].
    split.
    + replace (e + Z.of_nat (S n))%Z with (e + Z.of_nat n + 1)%Z by lia. assumption.
    + rewrite Hm'', Hm'. rewrite Z.div_div; [|apply Z.pow_nonzero; lia|lia].
      f_equal. rewrite Nat2Z.inj_succ, Z.pow_succ_r; lia.
Qed.

Lemma shr_inbetween mrs e n w :
  (0 <= shr_m mrs)%Z ->
  inbetween (shr_m mrs) e (loc_of_shr_record mrs) w ->
  (0 <= n)%Z ->
  let res := shr mrs e n in
  snd res = (e + n)%Z /\
  inbetween (shr_m (fst res)) (e + n) (loc_of_shr_record (fst res)) w /\
  shr_m (fst res) = (shr_m mrs / 2 ^ n)%Z.
Proof.
  intros Hm Hin Hn. destruct n as [|p|p]; [| |lia]; cbn [shr fst snd].
  - replace (e + 0)%Z with e by lia. rewrite Z.pow_0_r, Z.div_1_r. auto.
  - rewrite iter_pos_nat.
    destruct (shr_iter_inbetween (Pos.to_nat p) mrs e w Hm Hin) as [H1 H2].
    rewrite positive_nat_Z in *. auto.
Qed.


(** ** The number of binary digits *)

Lemma digits2_size m : digits2_pos m = Pos.size m.
Proof. induction m as [m IH|m IH|]; cbn; now rewrite ?IH. Qed.

Lemma digits2_log2 m : Z.pos (digits2_pos m) = (Z.log2 (Z.pos m) + 1)%Z.
Proof.
  rewrite digits2_size. destruct m as [m|m|]; cbn [Pos.size Z.log2]; lia.
Qed.

Lemma Zdigits2_spec m :
  (0 < m)%Z -> (2 ^ (Zdigits2 m - 1) <= m < 2 ^ Zdigits2 m)%Z.
Proof.
  intros Hm. destruct m as [|p|p]; try lia. cbn [Zdigits2].
  rewrite digits2_log2.
  replace (Z.log2 (Z.pos p) + 1 - 1)%Z with (Z.log2 (Z.pos p)) by lia.
  apply Z.log2_spec. lia.
Qed.

Lemma Zdigits2_pos m : (0 < m)%Z -> (0 < Zdigits2 m)%Z.
Proof. intros Hm. destruct m; cbn; lia. Qed.

Lemma Zdigits2_le m k : (0 < m)%Z -> (m < 2 ^ k)%Z -> (Zdigits2 m <= k)%Z.
Proof.
  intros Hm Hk. destruct (Zdigits2_spec m Hm) as [Hlo _].
  destruct (Z_le_gt_dec (Zdigits2 m) k) as [|Hgt]; [assumption|].
  assert (2 ^ k <= 2 ^ (Zdigits2 m - 1))%Z.
  { apply Z.pow_le_mono_r; [lia|]. lia. }
  lia.
Qed.

Lemma Zdigits2_ge m k : (0 <= k)%Z -> (2 ^ k <= m)%Z -> (k < Zdigits2 m)%Z.
Proof.
  intros Hk Hm.
  assert (0 < m)%Z by (assert (0 < 2 ^ k)%Z by (apply Z.pow_pos_nonneg; lia); lia).
  destruct (Zdigits2_spec m H) as [_ Hhi].
  destruct (Z_lt_le_dec k (Zdigits2 m)) as [|Hle]; [assumption|].
  assert (2 ^ Zdigits2 m <= 2 ^ k)%Z.
  { apply Z.pow_le_mono_r; lia. }
  lia.
Qed.

Lemma fexp_eq k : fexp prec emax k = Z.max (k - 53) (-1074).
Proof. reflexivity. Qed.

Lemma pow_split a b : (0 <= a)%Z -> (0 <= b)%Z -> (2 ^ (a + b) = 2 ^ a * 2 ^ b)%Z.
Proof. intros. apply Z.pow_add_r; assumption. Qed.

(** ** Truncation to the format and rounding to nearest-even *)

Lemma shr_fexp_trunc mx ex lx w :
  (0 <= mx)%Z -> inbetween mx ex lx w ->
  (ex <= fexp prec emax (Zdigits2 mx + ex))%Z ->
  let res := shr_fexp prec emax mx ex lx in
  let m' := shr_m (fst res) in
  let e' := snd res in
  let l' := loc_of_shr_record (fst res) in
  e' = fexp prec emax (Zdigits2 mx + ex) /\
  inbetween m' e' l' w /\
  (0 <= m' < 2 ^ 53)%Z /\ (-1074 <= e')%Z /\
  ((-1074 < e')%Z -> (2 ^ 52 <= m')%Z).
Proof.
  intros Hm Hin HP. cbv zeta. unfold shr_fexp.
  set (E := fexp prec emax (Zdigits2 mx + ex)) in *.
  assert (Hn : (0 <= E - ex)%Z) by lia.
  pose proof (shr_inbetween (shr_record_of_loc mx lx) ex (E - ex) w) as H.
  rewrite shr_m_of_loc, loc_of_shr_record_of_loc in H.
  specialize (H Hm Hin Hn). cbv zeta in H. destruct H as (H1 & H2 & H3).
  replace (ex + (E - ex))%Z with E in * by lia.
  split; [exact H1|]. rewrite H1. split; [exact H2|].
  rewrite H3. unfold E in *. rewrite fexp_eq in *.
  assert (Hpow : (0 < 2 ^ (Z.max (Zdigits2 mx + ex - 53) (-1074) - ex))%Z)
    by (apply Z.pow_pos_nonneg; lia).
  destruct (Z.eq_dec mx 0) as [->|Hnz].
  - cbn [Zdigits2] in *. rewrite Z.div_0_l by lia.
    split; [lia|]. split; [lia|]. intros. lia.
  - assert (Hpos : (0 < mx)%Z) by lia.
    destruct (Zdigits2_spec mx Hpos) as [Hlo Hhi].
    pose proof (Zdigits2_pos mx Hpos) as Hd.
    set (d := Zdigits2 mx) in *.
    set (n := (Z.max (d + ex - 53) (-1074) - ex)%Z) in *.
    split; [|split; [lia|]].
    + split; [apply Z.div_pos; lia|].
      apply Z.div_lt_upper_bound; [lia|].
      rewrite <- pow_split by lia.
      apply Z.lt_le_trans with (2 ^ d)%Z; [assumption|].
      apply Z.pow_le_mono_r; lia.
    + intros He. assert (n = d - 53)%Z by lia.
      apply Z.div_le_lower_bound; [lia|].
      rewrite <- pow_split by lia.
      replace (n + 52)%Z with (d - 1)%Z by lia. assumption.
Qed.

Lemma round_nearest_even_spec m e l w :
  inbetween m e l w ->
  let r := round_nearest_even m l in
  (r = m \/ (r = (m + 1)%Z /\ IZR m * pow2 e < w)) /\
  Rabs (IZR r * pow2 e - w) <= pow2 e / 2 /\
  IZR m * pow2 e <= w <= IZR (m + 1) * pow2 e.
Proof.
  intros Hin. cbv zeta. pose proof (pow2_pos e) as Hp.
  assert (E1 : IZR (m + 1) = IZR m + 1) by apply plus_IZR.
  destruct l as [|[]]; cbn [inbetween cmp_holds round_nearest_even] in *.
  - subst w. split; [now left|]. rewrite ?E1.
    split; [|lra]. replace (IZR m * pow2 e - IZR m * pow2 e) with 0 by ring.
    rewrite Rabs_R0. lra.
  - destruct Hin as [[Hlo Hhi] Hc]. rewrite ?E1 in *.
    destruct (Z.even m).
    + split; [now left|]. split; [|lra]. apply Rabs_le. lra.
    + split; [right; split; [reflexivity|lra]|]. rewrite ?E1.
      split; [|lra]. apply Rabs_le. lra.
  - destruct Hin as [[Hlo Hhi] Hc]. rewrite ?E1 in *.
    split; [now left|]. split; [|lra]. apply Rabs_le. lra.
  - destruct Hin as [[Hlo Hhi] Hc]. rewrite ?E1 in *.
    split; [right; split; [reflexivity|lra]|]. rewrite ?E1.
    split; [|lra]. apply Rabs_le. lra.
Qed.


Lemma shr_nonpos mrs e n : (n <= 0)%Z -> shr mrs e n = (mrs, e).
Proof. intros Hn. destruct n; [reflexivity|lia|reflexivity]. Qed.

(** What [binary_round_aux] returns, in terms of the truncated mantissa
    [m'], its exponent [e'] and the rounded mantissa [r]. *)
Lemma binary_round_aux_char s mx ex lx w :
  (0 <= mx)%Z -> inbetween mx ex lx w ->
  (ex <= fexp prec emax (Zdigits2 mx + ex))%Z ->
  exists m' e' l',
    e' = fexp prec emax (Zdigits2 mx + ex) /\
    inbetween m' e' l' w /\ (0 <= m' < 2 ^ 53)%Z /\ (-1074 <= e')%Z /\
    ((-1074 < e')%Z -> (2 ^ 52 <= m')%Z) /\
    let r := round_nearest_even m' l' in
    match binary_round_aux prec emax s mx ex lx with
    | S754_zero s' => s' = s /\ r = 0%Z
    | S754_finite s' m e => s' = s /\ IZR (Z.pos m) * pow2 e = IZR r * pow2 e'
    | S754_infinity s' => s' = s /\ pow2 1024 <= IZR r * pow2 e'
    | S754_nan => False
    end.
Proof.
  intros Hm Hin HP.
  destruct (shr_fexp_trunc mx ex lx w Hm Hin HP) as (H1 & H2 & H3 & H4 & H5).
  unfold binary_round_aux.
  destruct (shr_fexp prec emax mx ex lx) as [mrs' e'] eqn:E.
  cbn [fst snd] in *.
  exists (shr_m mrs'), e', (loc_of_shr_record mrs').
  do 5 (split; [assumption|]). cbv zeta.
  destruct (round_nearest_even_spec _ _ _ _ H2) as (Hr & _ & _).
  cbv zeta in Hr.
  set (r := round_nearest_even (shr_m mrs') (loc_of_shr_record mrs')) in *.
  assert (Hr' : (0 <= r <= 2 ^ 53)%Z) by (destruct Hr as [->|[-> _]]; lia).
  assert (Hlow : (-1074 < e')%Z -> (2 ^ 52 <= r)%Z)
    by (intros He; specialize (H5 He); destruct Hr as [->|[-> _]]; lia).
  clear Hr. unfold shr_fexp. rewrite fexp_eq.
  pose proof (pow2_pos e') as Hpe.
  destruct (Z.eq_dec r 0) as [Hr0|Hr0].
  - rewrite Hr0. cbn [Zdigits2]. rewrite shr_nonpos by lia.
    rewrite shr_m_of_loc. auto.
  - destruct (Z.eq_dec r (2 ^ 53)) as [Hr53|Hr53].
    + rewrite Hr53.
      replace (Zdigits2 (2 ^ 53)) with 54%Z by reflexivity.
      replace (Z.max (54 + e' - 53) (-1074) - e')%Z with 1%Z by lia.
      cbn [shr_record_of_loc shr SpecFloat.iter_pos].
      change (shr_m (shr_1 {| shr_m := 2 ^ 53; shr_r := false; shr_s := false |}))
        with (Z.pos (2 ^ 52)).
      change (Z.sub emax prec) with 971%Z.
      assert (Hv : IZR (Z.pos (2 ^ 52)) * pow2 (e' + 1) = IZR (2 ^ 53) * pow2 e').
      { rewrite pow2_S. change (Z.pos (2 ^ 52)) with (2 ^ 52)%Z.
        replace (IZR (2 ^ 53)) with (2 * IZR (2 ^ 52)); [ring|].
        rewrite <- mult_IZR. f_equal. }
      destruct (Z.leb_spec (e' + 1) 971) as [Hle|Hgt].
      * split; [reflexivity|exact Hv].
      * split; [reflexivity|].
        apply Rle_trans with (IZR (2 ^ 53) * pow2 971).
        -- rewrite <- pow2_shift by lia. apply pow2_le. lia.
        -- apply Rmult_le_compat_l; [apply IZR_le; lia | apply pow2_le; lia].
    + assert (Hpos : (0 < r)%Z) by lia.
      assert (Hd : (Zdigits2 r <= 53)%Z) by (apply Zdigits2_le; lia).
      rewrite shr_nonpos by lia. rewrite shr_m_of_loc.
      destruct r as [|p|p]; try lia.
      change (Z.sub emax prec) with 971%Z.
      destruct (Z.leb_spec e' 971) as [Hle|Hgt].
      * split; reflexivity.
      * split; [reflexivity|].
        assert (2 ^ 52 <= Z.pos p)%Z by (apply Hlow; lia).
        apply Rle_trans with (IZR (2 ^ 52) * pow2 972).
        -- rewrite <- pow2_shift by lia. apply pow2_le. lia.
        -- apply Rmult_le_compat; [apply IZR_le; lia | pose proof (pow2_pos 972); lra
                                   | apply IZR_le; assumption | apply pow2_le; lia].
Qed.


Lemma inbetween_bounds m e l w :
  inbetween m e l w -> IZR m * pow2 e <= w < IZR (m + 1) * pow2 e.
Proof.
  pose proof (pow2_pos e). rewrite plus_IZR.
  destruct l; cbn [inbetween]; [intros ->; lra|].
  rewrite plus_IZR. intros [[? ?] _]. lra.
Qed.

Lemma rep_opp u : rep u -> rep (- u).
Proof.
  intros (m & e & -> & Hm & He & Hu). exists (- m)%Z, e.
  split; [rewrite opp_IZR; ring|]. split; [lia|]. split; [assumption|].
  now rewrite Rabs_Ropp.
Qed.

Lemma rep_lt_max u : rep u -> u < pow2 1024.
Proof.
  intros (m & e & _ & _ & _ & Hu).
  apply Rle_lt_trans with (Rabs u); [apply Rle_abs | assumption].
Qed.

(** No number of the format lies strictly between two neighbours. *)
Lemma rep_no_gap u m e :
  rep u -> (-1074 <= e)%Z -> (0 <= m < 2 ^ 53)%Z ->
  ((-1074 < e)%Z -> (2 ^ 52 <= m)%Z) ->
  ~ (IZR m * pow2 e < u < IZR (m + 1) * pow2 e).
Proof.
  intros (mu & eu & -> & Hmu & Heu & _) He Hm Hnorm [Hlo Hhi].
  pose proof (pow2_pos e) as Hp.
  destruct (Z_le_gt_dec e eu) as [Hle|Hgt].
  - replace eu with (e + (eu - e))%Z in Hlo, Hhi by lia.
    rewrite pow2_shift in Hlo, Hhi by lia.
    rewrite <- Rmult_assoc, <- mult_IZR in Hlo, Hhi.
    apply Rmult_lt_reg_r in Hlo; [|assumption].
    apply Rmult_lt_reg_r in Hhi; [|assumption].
    apply lt_IZR in Hlo, Hhi. lia.
  - assert (2 ^ 52 <= m)%Z by (apply Hnorm; lia).
    assert (IZR mu < IZR (2 ^ 53)) by (apply IZR_lt; lia).
    assert (IZR (2 ^ 52) <= IZR m) by (apply IZR_le; assumption).
    pose proof (pow2_pos eu) as Hpu.
    assert (pow2 eu <= pow2 (e - 1)) by (apply pow2_le; lia).
    assert (pow2 e = 2 * pow2 (e - 1))
      by (rewrite <- pow2_S; f_equal; lia).
    assert (E53 : IZR (2 ^ 53) = 2 * IZR (2 ^ 52))
      by (rewrite <- mult_IZR; f_equal).
    assert (0 < IZR (2 ^ 52)) by (apply IZR_lt; lia).
    pose proof (pow2_pos (e - 1)).
    assert (IZR mu * pow2 eu < IZR (2 ^ 53) * pow2 eu)
      by (apply Rmult_lt_compat_r; assumption).
    assert (IZR (2 ^ 53) * pow2 eu <= IZR (2 ^ 53) * pow2 (e - 1))
      by (apply Rmult_le_compat_l; lra).
    assert (IZR (2 ^ 52) * pow2 e <= IZR m * pow2 e)
      by (apply Rmult_le_compat_r; lra).
    rewrite E53 in *. nra.
Qed.

Lemma fexp_mono a b : (a <= b)%Z -> (fexp prec emax a <= fexp prec emax b)%Z.
Proof. intros. rewrite !fexp_eq. lia. Qed.

Lemma IZR_lt_pow2 m k : (0 < m)%Z -> IZR m < pow2 k -> (m < 2 ^ k)%Z.
Proof.
  intros Hm H. destruct (Z_lt_le_dec k 0) as [Hk|Hk].
  - exfalso. assert (pow2 k <= pow2 0) by (apply pow2_le; lia).
    unfold pow2 at 2 in H0. cbn in H0.
    assert (1 <= IZR m) by (apply IZR_le; lia). lra.
  - rewrite (pow2_IZR k Hk) in H. now apply lt_IZR.
Qed.

Lemma Rabs_sgn s : Rabs (sgn s) = 1.
Proof. destruct s; unfold sgn, Rabs; destruct (Rcase_abs _); lra. Qed.

(** [binary_round_aux] rounds the number that its arguments stand for. *)
Lemma binary_round_aux_rounds s mx ex lx w :
  (0 <= mx)%Z -> inbetween mx ex lx w ->
  (ex <= fexp prec emax (Zdigits2 mx + ex))%Z ->
  rounds_to (sgn s * w) (binary_round_aux prec emax s mx ex lx).
Proof.
  intros Hm Hin HP.
  destruct (binary_round_aux_char s mx ex lx w Hm Hin HP)
    as (m' & e' & l' & He' & Hin' & Hm' & Hemin & Hnorm & Hz).
  cbv zeta in Hz.
  destruct (round_nearest_even_spec _ _ _ _ Hin') as (Hr & Herr & _).
  cbv zeta in Hr, Herr.
  pose proof (inbetween_bounds _ _ _ _ Hin') as [Hwlo Hwhi].
  pose proof (inbetween_bounds _ _ _ _ Hin) as [Hw0 _].
  set (r := round_nearest_even m' l') in *.
  set (z := binary_round_aux prec emax s mx ex lx) in *. clearbody z.
  pose proof (pow2_pos e') as Hpe. pose proof (pow2_pos ex) as Hpx.
  assert (Hm0 : 0 <= IZR m') by (apply IZR_le; lia).
  assert (Hmx0 : 0 <= IZR mx) by (apply IZR_le; lia).
  assert (Hw : 0 <= w) by nra.
  (* upward and downward bounds on the rounded magnitude *)
  assert (Hup : forall u, rep u -> w <= u -> IZR r * pow2 e' <= u).
  { intros u Hu Hwu. destruct Hr as [->|[-> Hlt]]; [lra|].
    destruct (Rle_lt_dec (IZR (m' + 1) * pow2 e') u) as [|Hc]; [assumption|].
    exfalso. apply (rep_no_gap u m' e' Hu Hemin Hm' Hnorm). lra. }
  assert (Hdown : forall l, rep l -> l <= w -> l <= IZR r * pow2 e').
  { intros l Hl Hlw.
    assert (IZR m' * pow2 e' <= IZR r * pow2 e').
    { destruct Hr as [->|[-> _]]; [lra|]. rewrite plus_IZR. lra. }
    destruct (Rle_lt_dec l (IZR m' * pow2 e')) as [|Hc]; [lra|].
    exfalso. apply (rep_no_gap l m' e' Hl Hemin Hm' Hnorm). lra. }
  assert (Hval : SFfinite z = true -> F2R z = sgn s * (IZR r * pow2 e')).
  { destruct z as [s'|s'|  |s' m e]; cbn; try discriminate; intros _.
    - destruct Hz as [-> ->]. ring.
    - destruct Hz as [-> ->]. reflexivity. }
  assert (Hfin : IZR r * pow2 e' < pow2 1024 -> SFfinite z = true).
  { destruct z as [s'|s'|  |s' m e]; cbn; intros Hlt; try reflexivity;
      [destruct Hz; lra | contradiction]. }
  split.
  - intros l u Hl Hu [Hlv Hvu]. destruct s; cbn [sgn] in *.
    + assert (Hb : IZR r * pow2 e' <= - l) by (apply Hup; [now apply rep_opp|lra]).
      pose proof (rep_lt_max _ (rep_opp _ Hl)).
      assert (Hf : SFfinite z = true) by (apply Hfin; lra).
      split; [assumption|]. rewrite (Hval Hf).
      assert (- u <= IZR r * pow2 e') by (apply Hdown; [now apply rep_opp|lra]).
      lra.
    + assert (Hb : IZR r * pow2 e' <= u) by (apply Hup; [assumption|lra]).
      pose proof (rep_lt_max _ Hu).
      assert (Hf : SFfinite z = true) by (apply Hfin; lra).
      split; [assumption|]. rewrite (Hval Hf).
      assert (l <= IZR r * pow2 e') by (apply Hdown; [assumption|lra]).
      lra.
  - intros Hf k Hk. rewrite (Hval Hf).
    replace (sgn s * (IZR r * pow2 e') - sgn s * w)
      with (sgn s * (IZR r * pow2 e' - w)) by ring.
    rewrite Rabs_mult, Rabs_sgn, Rmult_1_l.
    apply Rle_trans with (pow2 e' / 2); [assumption|].
    assert (pow2 e' <= pow2 (fexp prec emax k)); [|lra].
    apply pow2_le. rewrite He'.
    rewrite Rabs_mult, Rabs_sgn, Rmult_1_l, (Rabs_pos_eq w Hw) in Hk.
    destruct (Z.eq_dec mx 0) as [->|Hnz].
    + cbn [Zdigits2] in *. rewrite !fexp_eq in *. lia.
    + apply fexp_mono.
      assert (Hlt : IZR mx * pow2 ex < pow2 k) by lra.
      replace k with (ex + (k - ex))%Z in Hlt by lia.
      rewrite pow2_add in Hlt.
      assert (IZR mx < pow2 (k - ex)) by nra.
      apply IZR_lt_pow2 in H; [|lia].
      pose proof (Zdigits2_le mx (k - ex)). lia.
Qed.


(** ** The arithmetic operations *)

Lemma iter_xO m d : Z.pos (Pos.iter xO m d) = (Z.pos m * 2 ^ Z.pos d)%Z.
Proof.
  induction d as [|d IH] using Pos.peano_ind.
  - cbn [Pos.iter]. lia.
  - rewrite Pos.iter_succ, Pos2Z.inj_xO, IH, Pos2Z.inj_succ, Z.pow_succ_r; lia.
Qed.

Lemma shl_align_spec mx ex ex' :
  let res := shl_align mx ex ex' in
  snd res = Z.min ex ex' /\
  Z.pos (fst res) = (Z.pos mx * 2 ^ (ex - Z.min ex ex'))%Z.
Proof.
  cbv zeta. unfold shl_align.
  destruct (ex' - ex)%Z as [|d|d] eqn:E; cbn [fst snd].
  - replace (Z.min ex ex') with ex by lia. rewrite Z.sub_diag. lia.
  - replace (Z.min ex ex') with ex by lia. rewrite Z.sub_diag. lia.
  - replace (Z.min ex ex') with ex' by lia. split; [reflexivity|].
    rewrite iter_xO. f_equal. f_equal. lia.
Qed.

Lemma Zdigits2_shift m n :
  (0 < m)%Z -> (0 <= n)%Z -> Zdigits2 (m * 2 ^ n) = (Zdigits2 m + n)%Z.
Proof.
  intros Hm Hn.
  assert (0 < 2 ^ n)%Z by (apply Z.pow_pos_nonneg; lia).
  assert (0 < m * 2 ^ n)%Z by lia.
  destruct m as [|p|p]; try lia.
  destruct (Z.pos p * 2 ^ n)%Z as [|q|q] eqn:E; try lia.
  cbn [Zdigits2]. rewrite !digits2_log2, <- E.
  rewrite Z.log2_mul_pow2; lia.
Qed.

Lemma rounds_to_ext v v' z : v = v' -> rounds_to v z -> rounds_to v' z.
Proof. now intros ->. Qed.

Lemma rep_0 : rep 0.
Proof.
  exists 0%Z, 0%Z. split; [ring|]. split; [reflexivity|]. split; [lia|].
  rewrite Rabs_R0. apply pow2_pos.
Qed.

Lemma rounds_to_exact z : SFfinite z = true -> rounds_to (F2R z) z.
Proof.
  intros Hz. split.
  - intros l u _ _ H. split; assumption.
  - intros _ k _. replace (F2R z - F2R z) with 0 by ring. rewrite Rabs_R0.
    pose proof (pow2_pos (fexp prec emax k)). lra.
Qed.

Lemma rounds_to_zero s : rounds_to 0 (S754_zero s).
Proof. apply (rounds_to_exact (S754_zero s)). reflexivity. Qed.

Lemma binary_round_rounds s mx ex :
  rounds_to (sgn s * (IZR (Z.pos mx) * pow2 ex)) (binary_round prec emax s mx ex).
Proof.
  unfold binary_round.
  pose proof (shl_align_spec mx ex (fexp prec emax (Z.pos (digits2_pos mx) + ex)))
    as [He Hm]. cbv zeta in *.
  destruct (shl_align mx ex (fexp prec emax (Z.pos (digits2_pos mx) + ex)))
    as [mz ez]. cbn [fst snd] in *.
  set (E := fexp prec emax (Z.pos (digits2_pos mx) + ex)) in *.
  assert (Hv : IZR (Z.pos mz) * pow2 ez = IZR (Z.pos mx) * pow2 ex).
  { rewrite Hm, mult_IZR, He.
    rewrite (pow2_diff ex (Z.min ex E)) by lia. ring. }
  rewrite <- Hv. apply binary_round_aux_rounds.
  - lia.
  - reflexivity.
  - rewrite Hm, Zdigits2_shift by lia. cbn [Zdigits2]. rewrite He.
    replace (Z.pos (digits2_pos mx) + (ex - Z.min ex E) + Z.min ex E)%Z
      with (Z.pos (digits2_pos mx) + ex)%Z by lia.
    fold E. lia.
Qed.

Lemma binary_normalize_rounds m e sz :
  rounds_to (IZR m * pow2 e) (binary_normalize prec emax m e sz).
Proof.
  destruct m as [|p|p]; cbn [binary_normalize].
  - rewrite Rmult_0_l. apply rounds_to_zero.
  - eapply rounds_to_ext; [|apply binary_round_rounds]. cbn [sgn]. ring.
  - eapply rounds_to_ext; [|apply binary_round_rounds]. cbn [sgn].
    change (Z.neg p) with (- Z.pos p)%Z. rewrite opp_IZR. ring.
Qed.

Lemma IZR_cond_Zopp s m : IZR (cond_Zopp s m) = sgn s * IZR m.
Proof. destruct s; cbn [cond_Zopp sgn]; [rewrite opp_IZR|]; ring. Qed.

Lemma aligned_value mx ex ez :
  (ez <= ex)%Z ->
  IZR (Z.pos (fst (shl_align mx ex ez))) * pow2 ez = IZR (Z.pos mx) * pow2 ex.
Proof.
  intros Hle. destruct (shl_align_spec mx ex ez) as [_ Hm].
  rewrite Hm, mult_IZR. replace (Z.min ex ez) with ez by lia.
  rewrite (pow2_diff ex ez) by lia. ring.
Qed.

(** The sum, difference, product and quotient of two finite numbers are
    the rounded exact results. *)
Lemma SFadd_rounds x y :
  SFfinite x = true -> SFfinite y = true ->
  rounds_to (F2R x + F2R y) (SFadd prec emax x y).
Proof.
  intros Hx Hy.
  destruct x as [sx|sx| |sx mx ex]; try discriminate;
    destruct y as [sy|sy| |sy my ey]; try discriminate; cbn [SFadd].
  - eapply rounds_to_ext; [|destruct sx, sy; apply rounds_to_zero].
    cbn [F2R]. ring.
  - eapply rounds_to_ext; [|apply rounds_to_exact; reflexivity]. cbn [F2R]. ring.
  - eapply rounds_to_ext; [|apply rounds_to_exact; reflexivity]. cbn [F2R]. ring.
  - eapply rounds_to_ext; [|apply binary_normalize_rounds].
    rewrite plus_IZR, !IZR_cond_Zopp. cbn [F2R].
    fold (sgn sx) (sgn sy).
    rewrite Rmult_plus_distr_r, !Rmult_assoc.
    rewrite !aligned_value by lia. reflexivity.
Qed.


Lemma SFsub_rounds x y :
  SFfinite x = true -> SFfinite y = true ->
  rounds_to (F2R x - F2R y) (SFsub prec emax x y).
Proof.
  intros Hx Hy.
  destruct x as [sx|sx| |sx mx ex]; try discriminate;
    destruct y as [sy|sy| |sy my ey]; try discriminate; cbn [SFsub].
  - eapply rounds_to_ext; [|destruct sx, sy; apply rounds_to_zero].
    cbn [F2R]. ring.
  - eapply rounds_to_ext; [|apply rounds_to_exact; reflexivity].
    cbn [F2R]. destruct sy; cbn [negb sgn]; ring.
  - eapply rounds_to_ext; [|apply rounds_to_exact; reflexivity]. cbn [F2R]. ring.
  - eapply rounds_to_ext; [|apply binary_normalize_rounds].
    rewrite minus_IZR, !IZR_cond_Zopp. cbn [F2R].
    fold (sgn sx) (sgn sy).
    unfold Rminus. rewrite Rmult_plus_distr_r, Ropp_mult_distr_l, !Rmult_assoc.
    rewrite !aligned_value by lia. ring.
Qed.

Lemma bounded_canonical m e :
  SpecFloat.bounded prec emax m e = true ->
  fexp prec emax (Z.pos (digits2_pos m) + e) = e /\ (e <= 971)%Z.
Proof.
  unfold SpecFloat.bounded, canonical_mantissa. intros H.
  apply andb_true_iff in H. destruct H as [H1 H2].
  apply Z.eqb_eq in H1. apply Z.leb_le in H2. split; assumption.
Qed.

Lemma sgn_xorb a b : sgn (xorb a b) = sgn a * sgn b.
Proof. destruct a, b; cbn [xorb sgn]; ring. Qed.

Lemma SFmul_rounds x y :
  valid_binary x = true -> valid_binary y = true ->
  SFfinite x = true -> SFfinite y = true ->
  rounds_to (F2R x * F2R y) (SFmul prec emax x y).
Proof.
  intros Vx Vy Hx Hy.
  destruct x as [sx|sx| |sx mx ex]; try discriminate;
    destruct y as [sy|sy| |sy my ey]; try discriminate; cbn [SFmul].
  - eapply rounds_to_ext; [|apply rounds_to_zero]. cbn [F2R]. ring.
  - eapply rounds_to_ext; [|apply rounds_to_zero]. cbn [F2R]. ring.
  - eapply rounds_to_ext; [|apply rounds_to_zero]. cbn [F2R]. ring.
  - cbn [valid_binary] in Vx, Vy.
    apply bounded_canonical in Vx, Vy.
    destruct Vx as [Cx _], Vy as [Cy _]. rewrite fexp_eq in Cx, Cy.
    eapply rounds_to_ext;
      [|apply (binary_round_aux_rounds (xorb sx sy) (Z.pos (mx * my)) (ex + ey)
                 loc_Exact (IZR (Z.pos (mx * my)) * pow2 (ex + ey)))].
    + rewrite sgn_xorb, Pos2Z.inj_mul, mult_IZR, pow2_add. cbn [F2R].
      fold (sgn sx) (sgn sy). ring.
    + lia.
    + reflexivity.
    + cbn [Zdigits2]. rewrite fexp_eq, digits2_log2.
      rewrite digits2_log2 in Cx, Cy.
      pose proof (Z.log2_mul_below (Z.pos mx) (Z.pos my)).
      pose proof (Z.log2_nonneg (Z.pos mx)).
      pose proof (Z.log2_nonneg (Z.pos my)).
      rewrite Pos2Z.inj_mul. lia.
Qed.

(** *** Division *)

Lemma new_location_inbetween q e my r w :
  (0 < my)%Z -> (0 <= r < my)%Z ->
  w = (IZR q + IZR r / IZR my) * pow2 e ->
  inbetween q e (new_location my r) w.
Proof.
  intros Hmy Hr ->. pose proof (pow2_pos e) as Hp.
  assert (Hmy' : 0 < IZR my) by (apply IZR_lt; lia).
  assert (Hr0 : 0 <= IZR r) by (apply IZR_le; lia).
  assert (Hr1 : IZR r < IZR my) by (apply IZR_lt; lia).
  assert (Hfrac : 0 <= IZR r / IZR my < 1).
  { split; [apply Rmult_le_pos; [assumption|]; left; now apply Rinv_0_lt_compat|].
    apply Rmult_lt_reg_r with (IZR my); [assumption|].
    unfold Rdiv. rewrite Rmult_assoc, Rinv_l by lra. lra. }
  assert (Hcmp : forall c, cmp_holds c (2 * IZR r) (IZR my) ->
                           cmp_holds c ((IZR q + IZR r / IZR my) * pow2 e)
                                     ((IZR q + / 2) * pow2 e)).
  { intros c Hc.
    assert (Hx : IZR r = IZR r / IZR my * IZR my)
      by (unfold Rdiv; rewrite Rmult_assoc, Rinv_l by lra; ring).
    set (f := IZR r / IZR my) in *.
    destruct c; cbn [cmp_holds] in *.
    - assert (f = / 2) by nra. rewrite H. reflexivity.
    - apply Rmult_lt_compat_r; [assumption|]. nra.
    - apply Rmult_lt_compat_r; [assumption|]. nra. }
  assert (Hb : r <> 0%Z ->
               IZR q * pow2 e < (IZR q + IZR r / IZR my) * pow2 e
               < IZR (q + 1) * pow2 e).
  { intros Hnz. assert (0 < IZR r) by (apply IZR_lt; lia).
    assert (0 < IZR r / IZR my).
    { apply Rmult_lt_0_compat; [assumption|]. now apply Rinv_0_lt_compat. }
    rewrite plus_IZR. split; apply Rmult_lt_compat_r; lra. }
  assert (Hex : r = 0%Z -> (IZR q + IZR r / IZR my) * pow2 e = IZR q * pow2 e).
  { intros ->. unfold Rdiv. rewrite Rmult_0_l. ring. }
  unfold new_location.
  destruct (Z.even my) eqn:Heven;
    unfold new_location_even, new_location_odd;
    destruct (Z.eqb_spec r 0) as [Hz|Hnz]; cbn [inbetween];
    try (now apply Hex); (split; [now apply Hb|]); apply Hcmp.
  - destruct (Z.compare_spec (2 * r) my) as [Hc|Hc|Hc]; cbn [cmp_holds].
    + rewrite <- Hc, mult_IZR. reflexivity.
    + rewrite <- mult_IZR. apply IZR_lt. assumption.
    + rewrite <- mult_IZR. apply IZR_lt. assumption.
  - assert (my <> 2 * r)%Z.
    { intros ->. rewrite Z.even_mul in Heven. discriminate. }
    destruct (Z.compare_spec (2 * r + 1) my) as [Hc|Hc|Hc]; cbn [cmp_holds];
      rewrite <- mult_IZR; apply IZR_lt; lia.
Qed.

Lemma SFdiv_core_inbetween mx ex my ey :
  let res := SFdiv_core_binary prec emax (Z.pos mx) ex (Z.pos my) ey in
  let q := fst (fst res) in
  let e' := snd (fst res) in
  (0 <= q)%Z /\
  inbetween q e' (snd res)
            (IZR (Z.pos mx) * pow2 ex / (IZR (Z.pos my) * pow2 ey)) /\
  (e' <= fexp prec emax (Zdigits2 q + e'))%Z.
Proof.
  cbv zeta. unfold SFdiv_core_binary.
  set (d1 := Zdigits2 (Z.pos mx)). set (d2 := Zdigits2 (Z.pos my)).
  set (e' := Z.min (fexp prec emax (d1 + ex - (d2 + ey))) (ex - ey)).
  set (s := (ex - ey - e')%Z).
  assert (Hs : (0 <= s)%Z) by (unfold s, e'; lia).
  set (m' := match s with Z.pos _ => Z.shiftl (Z.pos mx) s | 0%Z => Z.pos mx
                     | Z.neg _ => 0%Z end).
  assert (Hm' : m' = (Z.pos mx * 2 ^ s)%Z).
  { unfold m'. destruct s as [|p|p] eqn:E; [rewrite Z.pow_0_r; lia| |lia].
    apply Z.shiftl_mul_pow2. lia. }
  clearbody m'.
  pose proof (Z_div_mod m' (Z.pos my) (eq_refl : (Z.pos my > 0)%Z)) as Hdiv.
  destruct (Z.div_eucl m' (Z.pos my)) as [q r]. destruct Hdiv as [Hq Hr].
  cbn [fst snd].
  assert (H2s : (0 < 2 ^ s)%Z) by (apply Z.pow_pos_nonneg; lia).
  assert (Hq0 : (0 <= q)%Z) by nia.
  split; [assumption|]. split.
  - apply new_location_inbetween; [lia|assumption|].
    assert (Hmy : 0 < IZR (Z.pos my)) by (apply IZR_lt; lia).
    pose proof (pow2_pos ey) as Hpy. pose proof (pow2_pos e') as Hpe.
    assert (Ex : pow2 ex = IZR (2 ^ s) * (pow2 e' * pow2 ey)).
    { rewrite <- pow2_add, <- pow2_shift by lia. f_equal. unfold s. lia. }
    assert (Em : IZR (Z.pos mx) * IZR (2 ^ s)
                 = IZR (Z.pos my) * IZR q + IZR r).
    { rewrite <- !mult_IZR, <- plus_IZR. f_equal. lia. }
    rewrite Ex. field_simplify_eq; [|lra].
    replace (IZR (Z.pos mx) * IZR (2 ^ s) * pow2 e' * pow2 ey)
      with (IZR (Z.pos mx) * IZR (2 ^ s) * (pow2 e' * pow2 ey)) by ring.
    rewrite Em. ring.
  - apply Z.le_trans with (fexp prec emax (d1 + ex - (d2 + ey))); [unfold e'; lia|].
    apply fexp_mono.
    assert (Hd1 : (2 ^ (d1 - 1) <= Z.pos mx < 2 ^ d1)%Z)
      by (apply Zdigits2_spec; lia).
    assert (Hd2 : (2 ^ (d2 - 1) <= Z.pos my < 2 ^ d2)%Z)
      by (apply Zdigits2_spec; lia).
    assert (Hd1p : (0 < d1)%Z) by (apply Zdigits2_pos; lia).
    assert (Hd2p : (0 < d2)%Z) by (apply Zdigits2_pos; lia).
    destruct (Z_le_gt_dec (d1 + s - d2) 0) as [Hsmall|Hbig].
    + assert (0 <= Zdigits2 q)%Z by (destruct q; cbn; lia).
      unfold s in *. lia.
    + assert (d1 + s - d2 - 1 < Zdigits2 q)%Z; [|unfold s in *; lia].
      apply Zdigits2_ge; [lia|].
      assert (Hlow : (2 ^ (d1 + s - d2 - 1) * 2 ^ d2 <= m')%Z).
      { rewrite <- pow_split by lia.
        replace (d1 + s - d2 - 1 + d2)%Z with ((d1 - 1) + s)%Z by lia.
        rewrite pow_split by lia. rewrite Hm'. nia. }
      assert (0 < 2 ^ (d1 + s - d2 - 1))%Z by (apply Z.pow_pos_nonneg; lia).
      nia.
Qed.

Lemma SFdiv_rounds x y :
  SFfinite x = true -> F2R y <> 0 -> SFfinite y = true ->
  rounds_to (F2R x / F2R y) (SFdiv prec emax x y).
Proof.
  intros Hx Hy0 Hy.
  destruct x as [sx|sx| |sx mx ex]; try discriminate;
    destruct y as [sy|sy| |sy my ey]; try discriminate; cbn [SFdiv];
    try (cbn [F2R] in Hy0; lra).
  - eapply rounds_to_ext; [|apply rounds_to_zero]. cbn [F2R].
    unfold Rdiv. ring.
  - pose proof (SFdiv_core_inbetween mx ex my ey) as H. cbv zeta in H.
    destruct (SFdiv_core_binary prec emax (Z.pos mx) ex (Z.pos my) ey)
      as [[q e'] l]. cbn [fst snd] in H. destruct H as (Hq & Hin & HP).
    eapply rounds_to_ext; [|apply (binary_round_aux_rounds _ _ _ _ _ Hq Hin HP)].
    rewrite sgn_xorb. cbn [F2R]. fold (sgn sx) (sgn sy).
    assert (0 < IZR (Z.pos my)) by (apply IZR_lt; lia).
    pose proof (pow2_pos ey).
    assert (sgn sy <> 0) by (destruct sy; cbn [sgn]; lra).
    assert (sgn sy * sgn sy = 1) by (destruct sy; cbn [sgn]; lra).
    field_simplify_eq; [|repeat split; lra].
    replace (sgn sx * sgn sy ^ 2 * IZR (Z.pos mx) * pow2 ex)
      with (sgn sx * (sgn sy * sgn sy) * IZR (Z.pos mx) * pow2 ex) by ring.
    rewrite H2. ring.
Qed.


(** ** Primitive floats *)

Lemma is_finite_SF x : is_finite x = SFfinite (Prim2SF x).
Proof.
  unfold is_finite, is_nan, is_infinity.
  rewrite !FloatAxioms.eqb_spec, FloatAxioms.abs_spec.
  change (Prim2SF infinity) with (S754_infinity false).
  destruct (Prim2SF x) as [s|s| |s m e]; try reflexivity.
  - destruct s; reflexivity.
  - unfold SFeqb. cbn [SFabs SFcompare SFfinite].
    rewrite Z.compare_refl, Pos.compare_cont_refl.
    destruct s; reflexivity.
Qed.

Lemma SF_rep z : valid_binary z = true -> rep (F2R z).
Proof.
  destruct z as [s|s| |s m e]; cbn [valid_binary F2R]; intros V;
    try apply rep_0.
  apply bounded_canonical in V. destruct V as [C Hmax].
  rewrite fexp_eq, digits2_log2 in C.
  assert (Hm : (Z.pos m < 2 ^ 53)%Z).
  { apply Z.log2_lt_pow2; lia. }
  assert (Hmag : Rabs (IZR (Z.pos m) * pow2 e) < pow2 1024).
  { pose proof (pow2_pos e). assert (0 < IZR (Z.pos m)) by (apply IZR_lt; lia).
    rewrite Rabs_pos_eq by nra.
    apply Rlt_le_trans with (IZR (2 ^ 53) * pow2 e).
    - apply Rmult_lt_compat_r; [assumption|]. apply IZR_lt. assumption.
    - rewrite <- pow2_shift by lia. apply pow2_le. lia. }
  destruct s; cbn [sgn].
  - replace (-1 * (IZR (Z.pos m) * pow2 e)) with (- (IZR (Z.pos m) * pow2 e)) by ring.
    apply rep_opp. exists (Z.pos m), e. repeat split; try lia; assumption.
  - rewrite Rmult_1_l. exists (Z.pos m), e. repeat split; try lia; assumption.
Qed.

Lemma value_rep x : rep (value x).
Proof. apply SF_rep, Prim2SF_valid. Qed.

Lemma rep_make m e :
  (Z.abs m < 2 ^ 53)%Z -> (-1074 <= e <= 971)%Z -> rep (IZR m * pow2 e).
Proof.
  intros Hm He. exists m, e. split; [reflexivity|]. split; [assumption|].
  split; [lia|]. pose proof (pow2_pos e).
  rewrite Rabs_mult, (Rabs_pos_eq (pow2 e)) by lra.
  apply Rlt_le_trans with (IZR (2 ^ 53) * pow2 e).
  - apply Rmult_lt_compat_r; [assumption|]. rewrite <- abs_IZR.
    apply IZR_lt. assumption.
  - rewrite <- pow2_shift by lia. apply pow2_le. lia.
Qed.

Lemma rep_IZR n : (Z.abs n < 2 ^ 53)%Z -> rep (IZR n).
Proof.
  intros Hn. replace (IZR n) with (IZR n * pow2 0).
  - apply rep_make; lia.
  - unfold pow2. cbn. ring.
Qed.

(** A number of the format that is at least [2 ^ k] in magnitude is a
    multiple of [2 ^ (k - 52)]. *)
Lemma rep_grid u k :
  rep u -> pow2 k <= Rabs u -> exists j, u = IZR j * pow2 (k - 52).
Proof.
  intros (m & e & -> & Hm & He & _) Hk.
  pose proof (pow2_pos e) as Hp.
  rewrite Rabs_mult, (Rabs_pos_eq (pow2 e)) in Hk by lra.
  assert (Hlt : pow2 k < pow2 (e + 53)).
  { apply Rle_lt_trans with (Rabs (IZR m) * pow2 e); [assumption|].
    rewrite pow2_shift by lia. apply Rmult_lt_compat_r; [assumption|].
    rewrite <- abs_IZR. apply IZR_lt. assumption. }
  apply pow2_lt_inv in Hlt.
  exists (m * 2 ^ (e - (k - 52)))%Z.
  rewrite mult_IZR, (pow2_diff e (k - 52)) by lia. ring.
Qed.


Lemma add_rounds x y :
  is_finite x = true -> is_finite y = true ->
  rounds_to (value x + value y) (Prim2SF (x + y)).
Proof.
  rewrite !is_finite_SF, FloatAxioms.add_spec. apply SFadd_rounds.
Qed.

Lemma sub_rounds x y :
  is_finite x = true -> is_finite y = true ->
  rounds_to (value x - value y) (Prim2SF (x - y)).
Proof.
  rewrite !is_finite_SF, FloatAxioms.sub_spec. apply SFsub_rounds.
Qed.

Lemma mul_rounds x y :
  is_finite x = true -> is_finite y = true ->
  rounds_to (value x * value y) (Prim2SF (x * y)).
Proof.
  rewrite !is_finite_SF, FloatAxioms.mul_spec. apply SFmul_rounds; apply Prim2SF_valid.
Qed.

Lemma div_rounds x y :
  is_finite x = true -> is_finite y = true -> value y <> 0 ->
  rounds_to (value x / value y) (Prim2SF (x / y)).
Proof.
  rewrite !is_finite_SF, FloatAxioms.div_spec. intros Hx Hy H0. now apply SFdiv_rounds.
Qed.

Lemma rounds_within v z l u :
  rounds_to v (Prim2SF z) -> rep l -> rep u -> l <= v <= u -> within z l u.
Proof.
  intros [Hmono _] Hl Hu Hv. unfold within. rewrite is_finite_SF.
  now apply Hmono.
Qed.

(** Ranges through the rounded operations: an operation on floats within
    given ranges yields a float within any two numbers of the format that
    enclose all exact results. *)
Lemma add_within x y lx ux ly uy l u :
  within x lx ux -> within y ly uy -> rep l -> rep u ->
  l <= lx + ly -> ux + uy <= u -> within (x + y) l u.
Proof.
  intros [Fx Hx] [Fy Hy] Hl Hu H1 H2.
  apply (rounds_within _ _ _ _ (add_rounds x y Fx Fy) Hl Hu). lra.
Qed.

Lemma sub_within x y lx ux ly uy l u :
  within x lx ux -> within y ly uy -> rep l -> rep u ->
  l <= lx - uy -> ux - ly <= u -> within (x - y) l u.
Proof.
  intros [Fx Hx] [Fy Hy] Hl Hu H1 H2.
  apply (rounds_within _ _ _ _ (sub_rounds x y Fx Fy) Hl Hu). lra.
Qed.

Lemma mul_within x y lx ux ly uy l u :
  within x lx ux -> within y ly uy -> rep l -> rep u ->
  (forall a b, lx <= a <= ux -> ly <= b <= uy -> l <= a * b <= u) ->
  within (x * y) l u.
Proof.
  intros [Fx Hx] [Fy Hy] Hl Hu H.
  apply (rounds_within _ _ _ _ (mul_rounds x y Fx Fy) Hl Hu). now apply H.
Qed.

Lemma div_within x y lx ux ly uy l u :
  within x lx ux -> within y ly uy -> 0 < ly -> rep l -> rep u ->
  (forall a b, lx <= a <= ux -> ly <= b <= uy -> l <= a / b <= u) ->
  within (x / y) l u.
Proof.
  intros [Fx Hx] [Fy Hy] Hpos Hl Hu H.
  assert (value y <> 0) by lra.
  apply (rounds_within _ _ _ _ (div_rounds x y Fx Fy H0) Hl Hu). now apply H.
Qed.

Lemma within_weaken x l u l' u' :
  within x l u -> l' <= l -> u <= u' -> within x l' u'.
Proof. intros [F H] ? ?. split; [assumption|lra]. Qed.

End Binary64Facts.

(** * Finiteness of the particle coordinates *)

Module FinitenessFacts.
Import Binary64 Binary64Facts GalaxyCanvas64.

(** ** The values of the constants *)

Lemma value_of_neg c s m e :
  Prim2SF c = S754_finite s m (Z.neg e) ->
  value c = sgn s * IZR (Z.pos m) / IZR (2 ^ Z.pos e).
Proof.
  intros H. unfold value. rewrite H. cbn [F2R]. fold (sgn s).
  assert (pow2 (Z.neg e) = / IZR (2 ^ Z.pos e)).
  { rewrite <- pow2_IZR by lia. unfold pow2.
    change (Z.neg e) with (- Z.pos e)%Z. apply powerRZ_neg'. }
  rewrite H0. unfold Rdiv. ring.
Qed.

Lemma value_of_pos c s m e :
  Prim2SF c = S754_finite s m e -> (0 <= e)%Z ->
  value c = sgn s * IZR (Z.pos m * 2 ^ e).
Proof.
  intros H He. unfold value. rewrite H. cbn [F2R]. fold (sgn s).
  rewrite mult_IZR, <- pow2_IZR by lia. reflexivity.
Qed.

Ltac float_value c H :=
  let v := eval vm_compute in (Prim2SF c) in
  lazymatch v with
  | S754_finite ?s ?m (Z.neg ?e) =>
      let k := eval vm_compute in (2 ^ Z.pos e)%Z in
      pose proof (value_of_neg c s m e eq_refl) as H;
      change (2 ^ Z.pos e)%Z with k in H; cbn [sgn] in H
  | S754_finite ?s ?m ?e =>
      let k := eval vm_compute in (Z.pos m * 2 ^ e)%Z in
      pose proof (value_of_pos c s m e eq_refl ltac:(lia)) as H;
      change (Z.pos m * 2 ^ e)%Z with k in H; cbn [sgn] in H
  end.

Ltac float_within :=
  lazymatch goal with
  | |- within ?c _ _ =>
      let H := fresh "Hv" in
      split; [reflexivity | float_value c H; rewrite H; lra]
  end.


Lemma const_2 : within 2%float 2 2. Proof. float_within. Qed.
Lemma const_3 : within 3%float 3 3. Proof. float_within. Qed.
Lemma const_4 : within 4%float 4 4. Proof. float_within. Qed.
Lemma const_5 : within 5%float 5 5. Proof. float_within. Qed.
Lemma const_1 : within 1%float 1 1. Proof. float_within. Qed.
Lemma const_m1 : within (-1)%float (-1) (-1). Proof. float_within. Qed.
Lemma const_0 : within 0%float 0 0.
Proof. split; [reflexivity|]. unfold value. cbn. lra. Qed.
Lemma const_half : within 0.5%float 0 1. Proof. float_within. Qed.
Lemma const_1_5 : within 1.5%float 0 2. Proof. float_within. Qed.
Lemma const_tenth : within 0.1%float (/ 16) (/ 8). Proof. float_within. Qed.
Lemma const_0_02 : within 0.02%float 0 1. Proof. float_within. Qed.
Lemma const_0_05 : within 0.05%float 0 1. Proof. float_within. Qed.
Lemma const_PI : within Math_PI 3 4. Proof. unfold Math_PI. float_within. Qed.


(** ** Absorption and relaxation *)

Ltac solve_rep :=
  first [ apply rep_IZR; lia
        | apply rep_opp; apply rep_IZR; lia ].

Lemma pow2_60 : pow2 60 = 1152921504606846976.
Proof. rewrite pow2_IZR by lia. reflexivity. Qed.

Lemma pow2_61 : pow2 61 = 2305843009213693952.
Proof. rewrite pow2_IZR by lia. reflexivity. Qed.

Lemma pow2_8 : pow2 8 = 256.
Proof. rewrite pow2_IZR by lia. reflexivity. Qed.

Lemma rep_pow2 k : (-1074 <= k <= 971)%Z -> rep (pow2 k).
Proof.
  intros Hk. replace (pow2 k) with (IZR 1 * pow2 k) by ring.
  apply rep_make; lia.
Qed.

(** Once the magnitude has reached [2 ^ 60], adding a small number no
    longer changes a float. *)
Lemma absorb v z :
  rounds_to v (Prim2SF z) ->
  - pow2 60 - 6 <= v <= pow2 60 + 6 ->
  within z (- pow2 60) (pow2 60).
Proof.
  intros [Hmono Hnear] Hv.
  pose proof (rep_pow2 60 ltac:(lia)) as R60.
  pose proof (rep_pow2 61 ltac:(lia)) as R61.
  pose proof (value_rep z) as Rz.
  pose proof pow2_60 as E60. pose proof pow2_61 as E61. pose proof pow2_8 as E8.
  assert (Hfin : SFfinite (Prim2SF z) = true).
  { apply (Hmono (- pow2 61) (pow2 61)); [now apply rep_opp|assumption|lra]. }
  assert (Herr : Rabs (value z - v) <= 128).
  { assert (Rabs v < pow2 61) by (apply Rabs_def1; lra).
    pose proof (Hnear Hfin 61%Z H) as Hn.
    change (fexp prec emax 61) with 8%Z in Hn. unfold value. lra. }
  apply OrbitFacts.Rabs_le_between in Herr.
  unfold within. rewrite is_finite_SF. split; [assumption|].
  fold (value z) in *. split.
  - destruct (Rle_lt_dec (- pow2 60) v) as [Hge|Hlt].
    + apply (Hmono (- pow2 60) (pow2 61)); [now apply rep_opp|assumption|lra].
    + assert (Hle : value z <= - pow2 60).
      { apply (Hmono (- pow2 61) (- pow2 60)); [now apply rep_opp|now apply rep_opp|lra]. }
      assert (Hmag : pow2 60 <= Rabs (value z)).
      { rewrite Rabs_left1 by lra. lra. }
      destruct (rep_grid _ 60 Rz Hmag) as [j Hj].
      change (60 - 52)%Z with 8%Z in Hj. rewrite E8 in Hj.
      assert (IZR (- 4503599627370497) < IZR j) by (rewrite Hj in *; lra).
      apply lt_IZR in H.
      assert (IZR (- 4503599627370496) <= IZR j) by (apply IZR_le; lia).
      rewrite Hj. lra.
  - destruct (Rle_lt_dec v (pow2 60)) as [Hle|Hgt].
    + apply (Hmono (- pow2 61) (pow2 60)); [now apply rep_opp|assumption|lra].
    + assert (Hge : pow2 60 <= value z).
      { apply (Hmono (pow2 60) (pow2 61)); [assumption|assumption|lra]. }
      assert (Hmag : pow2 60 <= Rabs (value z)).
      { rewrite Rabs_pos_eq by lra. lra. }
      destruct (rep_grid _ 60 Rz Hmag) as [j Hj].
      change (60 - 52)%Z with 8%Z in Hj. rewrite E8 in Hj.
      assert (IZR j < IZR 4503599627370497) by (rewrite Hj in *; lra).
      apply lt_IZR in H.
      assert (IZR j <= IZR 4503599627370496) by (apply IZR_le; lia).
      rewrite Hj. lra.
Qed.

Lemma finite_not_nan a : is_finite a = true -> is_nan a = false.
Proof.
  unfold is_finite. destruct (is_nan a); [discriminate|reflexivity].
Qed.

Lemma Math_min_within a b l u :
  within a l u -> within b l u -> within (Math_min a b) l u.
Proof.
  intros Ha Hb. unfold Math_min.
  rewrite (finite_not_nan a), (finite_not_nan b) by (apply Ha || apply Hb).
  cbn [orb].
  destruct (a <? b)%float; [assumption|].
  destruct (b <? a)%float; [assumption|].
  destruct (get_sign a); assumption.
Qed.

(** One relaxation towards the target followed by the jitter. *)
Lemma settle x t j :
  within x (-68719476736) 68719476736 ->
  within t (-17179869184) 17179869184 ->
  within j (-5) 5 ->
  within (x + (t - x) * 0.1 + j)%float (-68719476736) 68719476736.
Proof.
  intros Hx Ht Hj. pose proof const_tenth as Hc.
  destruct (Rle_lt_dec 34359738368 (value x)) as [Hhi|Hhi].
  - assert (Hx' : within x 34359738368 68719476736)
      by (split; [apply Hx|]; destruct Hx as [_ ?]; lra).
    assert (Hd : within (t - x) (-85899345920) (-17179869184)).
    { eapply sub_within; [exact Ht|exact Hx'|solve_rep|solve_rep|lra|lra]. }
    assert (He : within ((t - x) * 0.1) (-10737418240) (-1073741824)).
    { eapply mul_within; [exact Hd|exact Hc|solve_rep|solve_rep|].
      intros a b Ha Hb. split; nra. }
    assert (H1 : within (x + (t - x) * 0.1) 0 67645734912).
    { eapply add_within; [exact Hx'|exact He|solve_rep|solve_rep|lra|lra]. }
    eapply add_within; [exact H1|exact Hj|solve_rep|solve_rep|lra|lra].
  - destruct (Rle_lt_dec (value x) (-34359738368)) as [Hlo|Hlo].
    + assert (Hx' : within x (-68719476736) (-34359738368))
        by (split; [apply Hx|]; destruct Hx as [_ ?]; lra).
      assert (Hd : within (t - x) 17179869184 85899345920).
      { eapply sub_within; [exact Ht|exact Hx'|solve_rep|solve_rep|lra|lra]. }
      assert (He : within ((t - x) * 0.1) 1073741824 10737418240).
      { eapply mul_within; [exact Hd|exact Hc|solve_rep|solve_rep|].
        intros a b Ha Hb. split; nra. }
      assert (H1 : within (x + (t - x) * 0.1) (-67645734912) 0).
      { eapply add_within; [exact Hx'|exact He|solve_rep|solve_rep|lra|lra]. }
      eapply add_within; [exact H1|exact Hj|solve_rep|solve_rep|lra|lra].
    + assert (Hx' : within x (-34359738368) 34359738368)
        by (split; [apply Hx|]; lra).
      assert (Hd : within (t - x) (-51539607552) 51539607552).
      { eapply sub_within; [exact Ht|exact Hx'|solve_rep|solve_rep|lra|lra]. }
      assert (He : within ((t - x) * 0.1) (-6442450944) 6442450944).
      { eapply mul_within; [exact Hd|exact Hc|solve_rep|solve_rep|].
        intros a b Ha Hb. split; nra. }
      assert (H1 : within (x + (t - x) * 0.1) (-40802189312) 40802189312).
      { eapply add_within; [exact Hx'|exact He|solve_rep|solve_rep|lra|lra]. }
      eapply add_within; [exact H1|exact Hj|solve_rep|solve_rep|lra|lra].
Qed.


(** ** The ranges the fields keep *)

Lemma half_extent w : extent w -> within (w / 2)%float 0 4294967296.
Proof.
  intros Hw. eapply div_within; [exact Hw|exact const_2|lra|solve_rep|solve_rep|].
  intros a b Ha Hb. assert (b = 2) by lra. subst b. lra.
Qed.

Lemma new_Particle_bounded width height draws i :
  extent width -> extent height -> (forall k, unit_float (draws k)) ->
  bounded_state (fst (new_Particle width height draws i)).
Proof.
  intros Hw Hh Hd. unfold bounded_state, new_Particle. cbn [fst x y angle radius angularSpeed].
  pose proof pow2_60 as E60.
  split; [|split; [|split; [|split]]].
  - eapply within_weaken; [apply half_extent; exact Hw|lra|lra].
  - eapply within_weaken; [apply half_extent; exact Hh|lra|lra].
  - assert (H1 : within (draws (1 + i)%nat * Math_PI)%float 0 4).
    { eapply mul_within; [apply Hd|exact const_PI|solve_rep|solve_rep|].
      intros a b Ha Hb. split; nra. }
    assert (H2 : within (draws (1 + i)%nat * Math_PI * 2)%float 0 8).
    { eapply mul_within; [exact H1|exact const_2|solve_rep|solve_rep|].
      intros a b Ha Hb. split; nra. }
    eapply within_weaken; [exact H2|lra|lra].
  - assert (H1 : within (Math_min width height / 3)%float 0 4294967296).
    { eapply div_within;
        [apply Math_min_within; [exact Hw|exact Hh]|exact const_3|lra
        |solve_rep|solve_rep|].
      intros a b Ha Hb. assert (b = 3) by lra. subst b. lra. }
    eapply mul_within; [apply Hd|exact H1|solve_rep|solve_rep|].
    intros a b Ha Hb. split; nra.
  - assert (H1 : within (draws (3 + i)%nat * 0.05)%float 0 1).
    { eapply mul_within; [apply Hd|exact const_0_05|solve_rep|solve_rep|].
      intros a b Ha Hb. split; nra. }
    assert (H2 : within (0.02 + draws (3 + i)%nat * 0.05)%float 0 2).
    { eapply add_within; [exact const_0_02|exact H1|solve_rep|solve_rep|lra|lra]. }
    assert (H3 : within (if (draws (4 + i)%nat <? 0.5)%float then 1 else (-1))%float
                        (-1) 1).
    { destruct (draws (4 + i)%nat <? 0.5)%float.
      - eapply within_weaken; [exact const_1|lra|lra].
      - eapply within_weaken; [exact const_m1|lra|lra]. }
    eapply mul_within; [exact H2|exact H3|solve_rep|solve_rep|].
    intros a b Ha Hb. split; nra.
Qed.

Lemma target_within c f r scale :
  within c 0 4294967296 -> within f (-1) 1 ->
  within r 0 4294967296 -> unit_float scale ->
  within (c + f * (r * (0.1 + scale * 1.5)))%float (-17179869184) 17179869184.
Proof.
  intros Hc Hf Hr Hs.
  assert (H1 : within (scale * 1.5)%float 0 2).
  { eapply mul_within; [exact Hs|exact const_1_5|solve_rep|solve_rep|].
    intros a b Ha Hb. split; nra. }
  assert (H2 : within (0.1 + scale * 1.5)%float 0 3).
  { eapply add_within; [exact const_tenth|exact H1|solve_rep|solve_rep|lra|lra]. }
  assert (H3 : within (r * (0.1 + scale * 1.5))%float 0 12884901888).
  { eapply mul_within; [exact Hr|exact H2|solve_rep|solve_rep|].
    intros a b Ha Hb. split; nra. }
  assert (H4 : within (f * (r * (0.1 + scale * 1.5)))%float
                      (-12884901888) 12884901888).
  { eapply mul_within; [exact Hf|exact H3|solve_rep|solve_rep|].
    intros a b Ha Hb. split; nra. }
  eapply add_within; [exact Hc|exact H4|solve_rep|solve_rep|lra|lra].
Qed.

Lemma jitter_within d chaos :
  unit_float d -> unit_float chaos ->
  within ((d - 0.5) * (chaos * 5))%float (-5) 5.
Proof.
  intros Hd Hc.
  assert (H1 : within (d - 0.5)%float (-1) 1).
  { eapply sub_within; [exact Hd|exact const_half|solve_rep|solve_rep|lra|lra]. }
  assert (H2 : within (chaos * 5)%float 0 5).
  { eapply mul_within; [exact Hc|exact const_5|solve_rep|solve_rep|].
    intros a b Ha Hb. split; nra. }
  eapply mul_within; [exact H1|exact H2|solve_rep|solve_rep|].
  intros a b Ha Hb. split; nra.
Qed.

Lemma angle_within a s chaos :
  within a (- pow2 60) (pow2 60) -> within s (-2) 2 -> unit_float chaos ->
  within (a + s * (1 + chaos * 2))%float (- pow2 60) (pow2 60).
Proof.
  intros Ha Hs Hc.
  assert (H1 : within (chaos * 2)%float 0 2).
  { eapply mul_within; [exact Hc|exact const_2|solve_rep|solve_rep|].
    intros u v Hu Hv. split; nra. }
  assert (H2 : within (1 + chaos * 2)%float 1 3).
  { eapply add_within; [exact const_1|exact H1|solve_rep|solve_rep|lra|lra]. }
  assert (H3 : within (s * (1 + chaos * 2))%float (-6) 6).
  { eapply mul_within; [exact Hs|exact H2|solve_rep|solve_rep|].
    intros u v Hu Hv. split; nra. }
  destruct Ha as [Fa Va], H3 as [Fi Vi].
  apply (absorb _ _ (add_rounds _ _ Fa Fi)). lra.
Qed.

Lemma update_bounded Math_cos Math_sin width height chaos scale p draws i :
  trigonometric Math_cos -> trigonometric Math_sin ->
  (forall k, unit_float (draws k)) ->
  extent width -> extent height -> unit_float chaos -> unit_float scale ->
  bounded_state p ->
  bounded_state (fst (update Math_cos Math_sin width height chaos scale p draws i)).
Proof.
  intros Hcos Hsin Hd Hw Hh Hc Hs (Hx & Hy & Ha & Hr & Hv).
  unfold bounded_state, update. cbn [fst x y angle radius angularSpeed].
  pose proof (angle_within _ _ _ Ha Hv Hc) as Ha'.
  split; [|split; [|split; [|split]]]; try assumption.
  - apply settle; [exact Hx| |apply jitter_within; [apply Hd|exact Hc]].
    apply target_within; [apply half_extent; exact Hw|apply Hcos, Ha'|exact Hr|exact Hs].
  - apply settle; [exact Hy| |apply jitter_within; [apply Hd|exact Hc]].
    apply target_within; [apply half_extent; exact Hh|apply Hsin, Ha'|exact Hr|exact Hs].
Qed.

Lemma reachable_bounded Math_cos Math_sin draws p :
  trigonometric Math_cos -> trigonometric Math_sin ->
  (forall k, unit_float (draws k)) ->
  reachable Math_cos Math_sin draws p -> bounded_state p.
Proof.
  intros Hcos Hsin Hd. induction 1 as [w h i Hw Hh|w h c s p i _ IH Hw Hh Hc Hs].
  - now apply new_Particle_bounded.
  - now apply update_bounded.
Qed.

Lemma finite_not_special a :
  is_finite a = true -> is_nan a = false /\ is_infinity a = false.
Proof.
  unfold is_finite. destruct (is_nan a), (is_infinity a); cbn; intros; try discriminate; auto.
Qed.

(** C3: in binary64 arithmetic, with [Math.cos] and [Math.sin] returning
    floats between -1 and 1 on finite arguments, [Math.random] returning
    floats between 0 and 1 and canvas extents between 0 and [2 ^ 32],
    every particle that the constructor builds and that [update] then moves
    any number of times with [chaos] and [scale] between 0 and 1 has
    coordinates [x] and [y] that are neither NaN nor infinite. *)
Theorem positions_stay_finite Math_cos Math_sin draws p :
  trigonometric Math_cos -> trigonometric Math_sin ->
  (forall k, unit_float (draws k)) ->
  reachable Math_cos Math_sin draws p ->
  (is_nan (x p) = false /\ is_infinity (x p) = false) /\
  (is_nan (y p) = false /\ is_infinity (y p) = false).
Proof.
  intros Hcos Hsin Hd Hp.
  destruct (reachable_bounded _ _ _ _ Hcos Hsin Hd Hp) as ([Fx _] & [Fy _] & _).
  split; now apply finite_not_special.
Qed.


Lemma positions_stay_finite_witness :
  let Math_cos := fun _ : float => 1%float in
  let Math_sin := fun _ : float => 0%float in
  let draws := fun _ : nat => 0.5%float in
  let p0 := fst (new_Particle 800 600 draws 0) in
  let p1 := fst (update Math_cos Math_sin 1024 768 0.3 0.7 p0 draws 7) in
  (is_nan (x p1) = false /\ is_infinity (x p1) = false) /\
  (is_nan (y p1) = false /\ is_infinity (y p1) = false).
Proof.
  cbv zeta.
  apply (positions_stay_finite (fun _ => 1%float) (fun _ => 0%float)
           (fun _ => 0.5%float)).
  - intros a _. eapply within_weaken; [exact const_1|lra|lra].
  - intros a _. eapply within_weaken; [exact const_0|lra|lra].
  - intros k. exact const_half.
  - apply reachable_update.
    + apply reachable_new; unfold extent; float_within.
    + unfold extent; float_within.
    + unfold extent; float_within.
    + unfold unit_float; float_within.
    + unfold unit_float; float_within.
Defined.

End FinitenessFacts.
